(** * Peaje Ruta Viva: demand and revenue engine of [app.py]

    A shallow embedding of the numeric core of the simulator:
    [interp_clamp], [calcular_resultados] and the revenue-maximising
    lookup ([idx_max], [tarifa_opt], [recaud_max_dia], [recaud_max_anio]),
    and of the script around it: the tariff grid ([np.linspace]), the
    session state with its base scenario, and the layout of the charts.

    The program computes on NumPy [float64] arrays.  The embedding is
    written once over a numeric interface [Num] and read at two
    instances: IEEE-754 binary64 (Rocq's primitive floats), which is what
    the program runs on, and exact rationals, which is the arithmetic the
    formulas are meant in. *)

From Stdlib Require Import ZArith List Bool Lia.
From Stdlib Require Import QArith Lqa.
From Stdlib Require Import Floats.
From Stdlib Require Import Permutation.
From Stdlib Require String.
Import ListNotations.
Import String.StringSyntax.
Delimit Scope string_scope with string.

Set Warnings "-inexact-float".
Local Open Scope Z_scope.

(* ================================================================= *)
(** ** Python exceptions *)

(** The exceptions the modelled calls can raise. *)
Inductive PyExc : Type :=
| IndexError   (* [y_grid[0]] on an empty array *)
| ValueError.  (* NumPy / pandas argument errors, [int(nan)] *)

Inductive result (A : Type) : Type :=
| Ok (a : A)
| Raise (e : PyExc).
Arguments Ok {A} a.
Arguments Raise {A} e.

Definition bind {A B} (r : result A) (k : A -> result B) : result B :=
  match r with
  | Ok a => k a
  | Raise e => Raise e
  end.

Notation "'let*' x ':=' r 'in' k" := (bind r (fun x => k))
  (at level 10, x name, r at level 100, k at level 200).

(* ================================================================= *)
(** ** The numeric interface *)

(** What the program asks of its numbers: the four operations, the three
    comparisons, the NaN test and integer constants. *)
Class Num (A : Type) : Type := {
  nadd : A -> A -> A;
  nsub : A -> A -> A;
  nmul : A -> A -> A;
  ndiv : A -> A -> A;
  nltb : A -> A -> bool;
  nleb : A -> A -> bool;
  neqb : A -> A -> bool;
  nisnan : A -> bool;
  nofZ : Z -> A
}.

Declare Scope num_scope.
Delimit Scope num_scope with num.
Infix "+" := nadd : num_scope.
Infix "-" := nsub : num_scope.
Infix "*" := nmul : num_scope.
Infix "/" := ndiv : num_scope.
Infix "<?" := nltb : num_scope.
Infix "<=?" := nleb : num_scope.
Infix "=?" := neqb : num_scope.

(** C's [a > b] and [a >= b] are [b < a] and [b <= a]. *)
Definition ngtb {A} `{Num A} (a b : A) : bool := nltb b a.
Definition ngeb {A} `{Num A} (a b : A) : bool := nleb b a.

(** Integer constants as binary64: exact for the small ones used here. *)
Definition float_of_Z (z : Z) : float :=
  match z with
  | Z0 => PrimFloat.zero
  | Zpos _ => PrimFloat.of_uint63 (Uint63.of_Z z)
  | Zneg _ => PrimFloat.opp (PrimFloat.of_uint63 (Uint63.of_Z (Z.opp z)))
  end.

(** NumPy's [float64]. *)
#[export] Instance Binary64 : Num float := {
  nadd := PrimFloat.add;
  nsub := PrimFloat.sub;
  nmul := PrimFloat.mul;
  ndiv := PrimFloat.div;
  nltb := PrimFloat.ltb;
  nleb := PrimFloat.leb;
  neqb := PrimFloat.eqb;
  nisnan := PrimFloat.is_nan;
  nofZ := float_of_Z
}.

(** Exact rational arithmetic: no rounding, no NaN. *)
#[export] Instance Exact : Num Q := {
  nadd := Qplus;
  nsub := Qminus;
  nmul := Qmult;
  ndiv := Qdiv;
  nltb := fun a b => negb (Qle_bool b a);
  nleb := Qle_bool;
  neqb := Qeq_bool;
  nisnan := fun _ => false;
  nofZ := inject_Z
}.


(** The value pandas writes over a missing entry before it looks for a
    maximum: [-inf]. *)
Class NegInf (A : Type) : Type := {
  nneginf : A
}.

#[export] Instance Binary64_neginf : NegInf float := {
  nneginf := PrimFloat.neg_infinity
}.

(** [-inf] is a number and no number lies below it. *)
Class NegInfLaws (A : Type) `{Num A} `{NegInf A} : Prop := {
  nneginf_not_nan : nisnan nneginf = false;
  nneginf_least : forall v : A, nisnan v = false -> nleb nneginf v = true
}.

(** The order the program relies on: a total preorder on the numbers
    that are not NaN, with [<] its strict part and [==] its equivalence;
    every comparison with NaN is false. *)
Class NumLaws (A : Type) `{Num A} : Prop := {
  nltb_total : forall a b : A,
    nisnan a = false -> nisnan b = false ->
    nltb a b = false -> nleb b a = true;
  nltb_nleb : forall a b : A, nltb a b = true -> nleb a b = true;
  nleb_trans : forall a b c : A,
    nleb a b = true -> nleb b c = true -> nleb a c = true;
  nltb_nleb_trans : forall a b c : A,
    nltb a b = true -> nleb b c = true -> nltb a c = true;
  nleb_nltb_trans : forall a b c : A,
    nleb a b = true -> nltb b c = true -> nltb a c = true;
  nltb_not_nleb : forall a b : A, nltb a b = true -> nleb b a = false;
  nleb_not_nan : forall a b : A,
    nleb a b = true -> nisnan a = false /\ nisnan b = false;
  neqb_nleb : forall a b : A, neqb a b = nleb a b && nleb b a;
  nleb_refl : forall a : A, nisnan a = false -> nleb a a = true
}.

(** *** Binary64 comparison, read off the IEEE-754 specification

    [SFcompare] orders two numbers by sign, then exponent, then
    mantissa: a lexicographic comparison of the triple [sf_rank]. *)

Definition sf_rank (x : spec_float) : Z * Z * Z :=
  match x with
  | S754_nan => (0, 0, 0)
  | S754_zero _ => (0, 0, 0)
  | S754_infinity s => (if s then -2 else 2, 0, 0)
  | S754_finite s m e =>
      if s then (-1, - e, Z.neg m) else (1, e, Z.pos m)
  end.

Definition lex3 (p q : Z * Z * Z) : comparison :=
  let '(a1, b1, c1) := p in
  let '(a2, b2, c2) := q in
  match a1 ?= a2 with
  | Eq => match b1 ?= b2 with
          | Eq => c1 ?= c2
          | c => c
          end
  | c => c
  end.

Definition lex_lt (a1 b1 c1 a2 b2 c2 : Z) : Prop :=
  a1 < a2 \/ (a1 = a2 /\ (b1 < b2 \/ (b1 = b2 /\ c1 < c2))).

Definition sf_is_nan (x : spec_float) : bool :=
  match x with S754_nan => true | _ => false end.

Definition frank (a : float) : Z * Z * Z := sf_rank (Prim2SF a).

Definition fcmp (a b : float) : option comparison :=
  if PrimFloat.is_nan a || PrimFloat.is_nan b then None
  else Some (lex3 (frank a) (frank b)).

(* ================================================================= *)
(** ** NumPy: [np.interp]

    [interp_clamp] is one call of [np.interp].  NumPy is a library the
    program imports; the definitions below follow its C routine
    [arr_interp] and the search it uses, [binary_search_with_guess]
    (file [compiled_base.c]), statement by statement.  Arrays are lists,
    indices are [Z] as [npy_intp] is signed, and every arithmetic
    operation is rounded on its own, as the compiled code does where it
    has no fused multiply-add. *)

Section NumPy.
Context {A : Type} {N : Num A}.

(** [arr[i]] of a C array held as a list. *)
Definition get (arr : list A) (i : Z) : A :=
  nth (Z.to_nat i) arr (nofZ 0).

(** [for (i = i0; i < len && key >= arr[i]; ++i);] and the final [i].
    The loop runs at most [len - i0 + 1] tests; [fuel] counts them. *)
Fixpoint linear_scan (fuel : nat) (key : A) (arr : list A) (len i : Z) : Z :=
  match fuel with
  | O => i
  | S fuel' =>
      if (i <? len)%Z && ngeb key (get arr i)
      then linear_scan fuel' key arr len (i + 1)
      else i
  end.

(** [while (imin < imax) { imid = imin + ((imax - imin) >> 1);
      if (key >= arr[imid]) imin = imid + 1; else imax = imid; }]
    and the final [imin].  Every turn narrows [imax - imin] by one at
    least, so a [fuel] of [imax - imin] lets the loop run to its end
    ([bisect_spec]). *)
Fixpoint bisect (fuel : nat) (key : A) (arr : list A) (imin imax : Z) : Z :=
  match fuel with
  | O => imin
  | S fuel' =>
      if (imin <? imax)%Z then
        let imid := (imin + Z.shiftr (imax - imin) 1)%Z in
        if ngeb key (get arr imid)
        then bisect fuel' key arr (imid + 1) imax
        else bisect fuel' key arr imin imid
      else imin
  end.

Definition LIKELY_IN_CACHE_SIZE : Z := 8.

(** [binary_search_with_guess(key, arr, len, guess)]: the index [j]
    with [arr[j] <= key < arr[j+1]], [-1] below the array and [len]
    above it; [guess] is where the previous query was found.  Arrays of
    up to four entries are scanned, longer ones are probed around the
    guess and then bisected. *)
Definition binary_search_with_guess
    (key : A) (arr : list A) (len guess : Z) : Z :=
  if ngtb key (get arr (len - 1)) then len
  else if nltb key (get arr 0) then -1
  else if (len <=? 4)%Z then
    linear_scan (Z.to_nat len) key arr len 1 - 1
  else
    let guess := if (guess >? len - 3)%Z then len - 3 else guess in
    let guess := if (guess <? 1)%Z then 1 else guess in
    if nltb key (get arr guess) then
      if nltb key (get arr (guess - 1)) then
        let imax := guess - 1 in
        let imin :=
          if (guess >? LIKELY_IN_CACHE_SIZE)%Z
             && ngeb key (get arr (guess - LIKELY_IN_CACHE_SIZE))
          then guess - LIKELY_IN_CACHE_SIZE else 0 in
        bisect (Z.to_nat (imax - imin)) key arr imin imax - 1
      else guess - 1
    else if nltb key (get arr (guess + 1)) then guess
    else if nltb key (get arr (guess + 2)) then guess + 1
    else
      let imin := guess + 2 in
      let imax :=
        if (guess <? len - LIKELY_IN_CACHE_SIZE - 1)%Z
           && nltb key (get arr (guess + LIKELY_IN_CACHE_SIZE))
        then guess + LIKELY_IN_CACHE_SIZE else len in
      bisect (Z.to_nat (imax - imin)) key arr imin imax - 1.

(** One query of the main loop of [arr_interp], for [lenxp >= 2]: the
    value stored in [dres[i]] and the index handed to the next query. *)
Definition interp_one (dx dy : list A) (lenxp : Z) (lval rval : A)
    (j : Z) (x_val : A) : A * Z :=
  if nisnan x_val then (x_val, j)
  else
    let j := binary_search_with_guess x_val dx lenxp j in
    if (j =? -1)%Z then (lval, j)
    else if (j =? lenxp)%Z then (rval, j)
    else if (j =? lenxp - 1)%Z then (get dy j, j)
    else if (get dx j =? x_val)%num then (get dy j, j)
    else
      let slope :=
        ((get dy (j + 1) - get dy j) / (get dx (j + 1) - get dx j))%num in
      let r := (slope * (x_val - get dx j) + get dy j)%num in
      if nisnan r then
        let r := (slope * (x_val - get dx (j + 1)) + get dy (j + 1))%num in
        if nisnan r && (get dy j =? get dy (j + 1))%num
        then (get dy j, j)
        else (r, j)
      else (r, j).

(** The main loop of [arr_interp] over the queries [dz], the index [j]
    carried from one query to the next. *)
Fixpoint interp_loop (dx dy : list A) (lenxp : Z) (lval rval : A)
    (j : Z) (dz : list A) : list A :=
  match dz with
  | [] => []
  | x_val :: dz' =>
      let '(r, j') := interp_one dx dy lenxp lval rval j x_val in
      r :: interp_loop dx dy lenxp lval rval j' dz'
  end.

(** The single-sample branch of [arr_interp] ([lenxp == 1]). *)
Definition interp_single (xp_val fp_val lval rval x_val : A) : A :=
  if nltb x_val xp_val then lval
  else if ngtb x_val xp_val then rval
  else fp_val.

(** [np.interp(x, xp, fp, left=..., right=...)] on float64 arrays:
    [ValueError] on an empty [xp] and on [fp] of another length. *)
Definition np_interp (x xp fp : list A) (left right : A) : result (list A) :=
  match xp with
  | [] => Raise ValueError
  | xp0 :: xp' =>
      if negb (Nat.eqb (length fp) (length xp)) then Raise ValueError
      else
        match xp' with
        | [] => Ok (map (interp_single xp0 (get fp 0) left right) x)
        | _ :: _ =>
            Ok (interp_loop xp fp (Z.of_nat (length xp)) left right 0 x)
        end
  end.

(** [y_grid[0]] and [y_grid[-1]]. *)
Definition first_item (a : list A) : result A :=
  match a with
  | [] => Raise IndexError
  | y :: _ => Ok y
  end.

Definition last_item (a : list A) : result A :=
  match a with
  | [] => Raise IndexError
  | y :: _ => Ok (last a y)
  end.

(** [app.py], lines 70-72:
    [np.interp(xq, x_grid, y_grid, left=y_grid[0], right=y_grid[-1])]. *)
Definition interp_clamp (x_grid y_grid xq : list A) : result (list A) :=
  let* left := first_item y_grid in
  let* right := last_item y_grid in
  np_interp xq x_grid y_grid left right.

(** *** What the claims say about [interp_clamp] *)

(** The smallest and the largest entry of a column. *)
Definition seq_min (l : list A) : A :=
  fold_left (fun m v => if nltb v m then v else m) (tl l) (hd (nofZ 0) l).

Definition seq_max (l : list A) : A :=
  fold_left (fun m v => if nltb m v then v else m) (tl l) (hd (nofZ 0) l).

(** The value [interp_clamp] yields for one query [x] when the search
    starts from the guess [j]. *)
Definition interp_at (x_grid y_grid : list A) (j : Z) (x : A) : A :=
  let left := hd (nofZ 0) y_grid in
  let right := last y_grid (nofZ 0) in
  match x_grid with
  | [xp0] => interp_single xp0 (get y_grid 0) left right x
  | _ =>
      fst (interp_one x_grid y_grid (Z.of_nat (length x_grid))
             left right j x)
  end.

(** The value [np.interp] computes for a query inside segment [i]. *)
Definition on_segment (x_grid y_grid : list A) (i : Z) (q : A) : A :=
  if (get x_grid i =? q)%num then get y_grid i
  else
    let slope :=
      ((get y_grid (i + 1) - get y_grid i) /
       (get x_grid (i + 1) - get x_grid i))%num in
    let r := (slope * (q - get x_grid i) + get y_grid i)%num in
    if nisnan r then
      let r := (slope * (q - get x_grid (i + 1)) + get y_grid (i + 1))%num in
      if nisnan r && (get y_grid i =? get y_grid (i + 1))%num
      then get y_grid i else r
    else r.

(** Sample points in ascending order, as [np.interp] expects them. *)
Fixpoint ascending (l : list A) : bool :=
  match l with
  | [] => true
  | a :: l' =>
      match l' with
      | [] => true
      | b :: _ => nleb a b && ascending l'
      end
  end.

Fixpoint strictly_ascending (l : list A) : bool :=
  match l with
  | [] => true
  | a :: l' =>
      match l' with
      | [] => true
      | b :: _ => nltb a b && strictly_ascending l'
      end
  end.

(** [j] brackets [key]: [arr[j] <= key], and [key < arr[j+1]] unless
    [j] is the last index. *)
Definition bracket (key : A) (arr : list A) (len j : Z) : Prop :=
  0 <= j < len /\ nleb (get arr j) key = true /\
  (j = len - 1 \/ nltb key (get arr (j + 1)) = true).

(** What is known below [imin] when the bisection starts or goes on:
    nothing lies below, or the entry just below passed the test, or
    the entry at [imin] itself is known to pass it. *)
Definition lower_ok (key : A) (arr : list A) (imin imax : Z) : Prop :=
  imin = 0 \/ nleb (get arr (imin - 1)) key = true \/
  (imin < imax /\ nleb (get arr imin) key = true).

(** The three outcomes of the search. *)
Definition search_post (key : A) (arr : list A) (len j : Z) : Prop :=
  (j = -1 /\ nltb key (get arr 0) = true) \/
  (j = len /\ nltb (get arr (len - 1)) key = true) \/
  bracket key arr len j.

(** No entry of the array is NaN. *)
Definition nonan (arr : list A) : Prop :=
  Forall (fun a => nisnan a = false) arr.

End NumPy.

(* ================================================================= *)
(** ** pandas: the probability table *)

Section Table.
Context {A : Type} {N : Num A}.

(** A row of the [DataFrame] returned by [tabla_probabilidades_base]. *)
Record ProbRow : Type := mkProbRow {
  pkm : A;
  pr_rv : A;
  pr_mix : A;
  pr_int : A
}.

(** Two keys that [drop_duplicates] takes for the same one: equal as
    floats, or both missing. *)
Definition same_key (a b : A) : bool :=
  (a =? b)%num || (nisnan a && nisnan b).

(** [DataFrame.drop_duplicates(subset=["pkm"])], [keep="first"]: a row
    stays when no earlier row of the frame carries its key. *)
Fixpoint drop_duplicates_seen (seen : list A) (df : list ProbRow)
    : list ProbRow :=
  match df with
  | [] => []
  | r :: df' =>
      if existsb (same_key (pkm r)) seen
      then drop_duplicates_seen seen df'
      else r :: drop_duplicates_seen (pkm r :: seen) df'
  end.

Definition drop_duplicates (df : list ProbRow) : list ProbRow :=
  drop_duplicates_seen [] df.

(** The first row of a frame that carries the key [k]. *)
Definition first_with (k : A) (df : list ProbRow) : option ProbRow :=
  find (fun r => same_key k (pkm r)) df.

(** The rows of a frame that carry the key [k]. *)
Definition rows_with (k : A) (df : list ProbRow) : list ProbRow :=
  filter (fun r => same_key k (pkm r)) df.

(** The order [sort_values("pkm")] leaves between two neighbours:
    ascending keys, missing keys last. *)
Definition in_order (a b : ProbRow) : bool :=
  if nisnan (pkm a) then nisnan (pkm b)
  else nisnan (pkm b) || (pkm a <=? pkm b)%num.

Fixpoint sorted_by_pkm (df : list ProbRow) : bool :=
  match df with
  | [] => true
  | a :: df' =>
      match df' with
      | [] => true
      | b :: _ => in_order a b && sorted_by_pkm df'
      end
  end.

(** [DataFrame.sort_values("pkm")] with pandas' default
    [kind="quicksort"]: the rows of the frame, rearranged into ascending
    key order.  pandas documents this kind as not stable, so the order
    it leaves between rows of equal key is no part of the contract. *)
Class SortValues : Type := {
  sort_values : list ProbRow -> list ProbRow;
  sort_values_perm : forall df, Permutation df (sort_values df);
  sort_values_sorted : forall df, sorted_by_pkm (sort_values df) = true
}.

(** [kind="stable"]: insertion after the rows of smaller or equal key. *)
Fixpoint insert_stable (r : ProbRow) (df : list ProbRow) : list ProbRow :=
  match df with
  | [] => [r]
  | a :: df' =>
      if in_order a r then a :: insert_stable r df' else r :: a :: df'
  end.

Definition sort_stable (df : list ProbRow) : list ProbRow :=
  fold_left (fun acc r => insert_stable r acc) df [].

(** A sort that is not stable: insertion before the rows of equal key. *)
Fixpoint insert_front (r : ProbRow) (df : list ProbRow) : list ProbRow :=
  match df with
  | [] => [r]
  | a :: df' =>
      if in_order r a then r :: a :: df' else a :: insert_front r df'
  end.

Definition sort_front (df : list ProbRow) : list ProbRow :=
  fold_left (fun acc r => insert_front r acc) df [].

End Table.

Arguments ProbRow A : clear implicits.
Arguments SortValues A {_}.

(* ================================================================= *)
(** ** NumPy: the sort behind [sort_values]

    [DataFrame.sort_values("pkm")] goes through pandas' [nargsort]: the
    rows whose key is missing are set aside, the keys of the others go
    to [ndarray.argsort(kind="quicksort")], and the frame is read in the
    order of the indices that come back, the rows set aside last.

    What [argsort] does with equal keys depends on the routine NumPy
    dispatches to.  Its scalar quicksort sorts an array of up to sixteen
    keys by insertion, which leaves equal keys in their order.  On
    x86-64 with AVX2 or AVX-512, NumPy 2 runs a vectorised routine
    instead, which sorts an array of up to four keys in one register of
    four lanes (the low half of a register of eight), the lanes past the
    end of the array filled with [+inf], by three steps of [cmp_merge].
    The definitions below follow that routine for arrays of up to four
    keys, none of them NaN. *)

Section Argsort.
Local Open Scope float_scope.

(** A lane of the key register with the lane of the index register that
    goes with it. *)
Definition lane : Type := (float * nat)%type.

(** A lane past the end of the array. *)
Definition lane_max : lane := (infinity, 0%nat).

(** [cmp_merge] as one lane sees it.  The lane receives the smaller of
    the other lane's key and its own where its mask bit is 0, the larger
    where it is 1 ([vminpd] and [vmaxpd], taken of the other lane and
    its own in this order); it keeps its index where the key it receives
    equals its own and takes the other lane's index elsewhere. *)
Definition cmp_merge (bit : bool) (own other : lane) : lane :=
  let key :=
    if bit
    then (if fst own <? fst other then fst other else fst own)
    else (if fst other <? fst own then fst other else fst own) in
  (key, if key =? fst own then snd own else snd other).

(** The sorting network of one register: each lane against its
    neighbour, mask [0xAA]; against the lane opposite in the reversed
    register, mask [0xCC]; against its neighbour again. *)
Definition sort_reg (r : lane * lane * lane * lane)
    : lane * lane * lane * lane :=
  let '(a, b, c, d) := r in
  let '(a, b, c, d) :=
    (cmp_merge false a b, cmp_merge true b a,
     cmp_merge false c d, cmp_merge true d c) in
  let '(a, b, c, d) :=
    (cmp_merge false a d, cmp_merge false b c,
     cmp_merge true c b, cmp_merge true d a) in
  (cmp_merge false a b, cmp_merge true b a,
   cmp_merge false c d, cmp_merge true d c).

(** The gather under the load mask: lane [i] holds key [i] of the array
    and the index [i]. *)
Definition load (keys : list float) (i : nat) : lane :=
  match nth_error keys i with
  | Some k => (k, i)
  | None => lane_max
  end.

(** [argsort] by the vectorised routine: an array of fewer than two keys
    is left alone; one of up to four keys is sorted in the register and
    the lanes under the load mask are stored.  [None] for the arrays
    this model does not cover: more than four keys, or a NaN among
    them. *)
Definition argsort_simd (keys : list float) : option (list nat) :=
  if (4 <? length keys)%nat || existsb PrimFloat.is_nan keys then None
  else if (length keys <=? 1)%nat then Some (seq 0 (length keys))
  else
    let '(a, b, c, d) :=
      sort_reg (load keys 0, load keys 1, load keys 2, load keys 3) in
    Some (firstn (length keys) [snd a; snd b; snd c; snd d]).

(** [take]: the rows at the positions of the indexer, in its order. *)
Definition take {B : Type} (indexer : list nat) (l : list B) : list B :=
  flat_map (fun i => match nth_error l i with
                     | Some x => [x]
                     | None => []
                     end) indexer.

(** [sort_values("pkm")] where [argsort] is the vectorised routine.  A
    frame with more than four keyed rows is outside what is modelled
    here: it is put in order as [kind="stable"] does. *)
Definition sort_values_simd (df : list (ProbRow float))
    : list (ProbRow float) :=
  let non_nans := filter (fun r => negb (PrimFloat.is_nan (pkm r))) df in
  let nans := filter (fun r => PrimFloat.is_nan (pkm r)) df in
  match argsort_simd (map pkm non_nans) with
  | Some indexer => take indexer non_nans
  | None => sort_stable non_nans
  end ++ nans.

End Argsort.

(* ================================================================= *)
(** ** The engine: [calcular_resultados] *)

Section Engine.
Context {A : Type} {N : Num A} {SV : SortValues A}.

(** A row of the [DataFrame] that [calcular_resultados] returns, one
    field per column, in the order the columns are created. *)
Record ResultRow : Type := mkResultRow {
  tarifa_usd_km_livianos : A;
  tarifa_usd_km_camiones : A;
  distancia_promedio_km : A;
  pr_rv_liv : A;  Q_rv_liv_veh_dia : A;
  pr_mix_liv : A; Q_mix_liv_veh_dia : A;
  pr_int_liv : A; Q_int_liv_veh_dia : A;
  pr_rv_cam : A;  Q_rv_cam_veh_dia : A;
  pr_mix_cam : A; Q_mix_cam_veh_dia : A;
  pr_int_cam : A; Q_int_cam_veh_dia : A;
  recaud_liv_usd_dia : A;
  recaud_cam_usd_dia : A;
  recaud_total_usd_dia : A;
  recaud_liv_usd_anio : A;
  recaud_cam_usd_anio : A;
  recaud_total_usd_anio : A
}.

(** Row [i] of the frame built from the twelve columns, with the six
    revenue columns that lines 130-137 add to it. *)
Definition fila (dist_km : A)
    (p_liv p_cam liv_rv q_rv_liv liv_mix q_mix_liv liv_int q_int_liv
     cam_rv q_rv_cam cam_mix q_mix_cam cam_int q_int_cam : list A)
    (i : nat) : ResultRow :=
  let at_i (col : list A) := nth i col (nofZ 0) in
  let recaud_liv := (at_i q_rv_liv * (at_i p_liv * dist_km))%num in
  let recaud_cam := (at_i q_rv_cam * (at_i p_cam * dist_km))%num in
  let recaud_total := (recaud_liv + recaud_cam)%num in
  {| tarifa_usd_km_livianos := at_i p_liv;
     tarifa_usd_km_camiones := at_i p_cam;
     distancia_promedio_km := dist_km;
     pr_rv_liv := at_i liv_rv;   Q_rv_liv_veh_dia := at_i q_rv_liv;
     pr_mix_liv := at_i liv_mix; Q_mix_liv_veh_dia := at_i q_mix_liv;
     pr_int_liv := at_i liv_int; Q_int_liv_veh_dia := at_i q_int_liv;
     pr_rv_cam := at_i cam_rv;   Q_rv_cam_veh_dia := at_i q_rv_cam;
     pr_mix_cam := at_i cam_mix; Q_mix_cam_veh_dia := at_i q_mix_cam;
     pr_int_cam := at_i cam_int; Q_int_cam_veh_dia := at_i q_int_cam;
     recaud_liv_usd_dia := recaud_liv;
     recaud_cam_usd_dia := recaud_cam;
     recaud_total_usd_dia := recaud_total;
     recaud_liv_usd_anio := (recaud_liv * nofZ 365)%num;
     recaud_cam_usd_anio := (recaud_cam * nofZ 365)%num;
     recaud_total_usd_anio := (recaud_total * nofZ 365)%num |}.

(** [app.py], lines 75-139.  The columns are computed as arrays, as in
    the source, and row [i] of the returned frame is read off them. *)
Definition calcular_resultados (df_prob : list (ProbRow A))
    (tarifa_grid_liv : list A) (tpda_liv tpda_cam mult_cam dist_km : A)
    : result (list ResultRow) :=
  let df_prob := drop_duplicates (sort_values df_prob) in
  let x := map pkm df_prob in
  let pr_rv := map pr_rv df_prob in
  let pr_mix := map pr_mix df_prob in
  let pr_int := map pr_int df_prob in
  (* Livianos *)
  let p_liv := tarifa_grid_liv in
  let* liv_rv := interp_clamp x pr_rv p_liv in
  let* liv_mix := interp_clamp x pr_mix p_liv in
  let* liv_int := interp_clamp x pr_int p_liv in
  (* Camiones *)
  let p_cam := map (fun p => (p * mult_cam)%num) tarifa_grid_liv in
  let* cam_rv := interp_clamp x pr_rv p_cam in
  let* cam_mix := interp_clamp x pr_mix p_cam in
  let* cam_int := interp_clamp x pr_int p_cam in
  (* Cantidades esperadas *)
  let q_rv_liv := map (nmul tpda_liv) liv_rv in
  let q_mix_liv := map (nmul tpda_liv) liv_mix in
  let q_int_liv := map (nmul tpda_liv) liv_int in
  let q_rv_cam := map (nmul tpda_cam) cam_rv in
  let q_mix_cam := map (nmul tpda_cam) cam_mix in
  let q_int_cam := map (nmul tpda_cam) cam_int in
  Ok (map (fila dist_km
             p_liv p_cam liv_rv q_rv_liv liv_mix q_mix_liv liv_int q_int_liv
             cam_rv q_rv_cam cam_mix q_mix_cam cam_int q_int_cam)
          (seq 0 (length p_liv))).

(** What [calcular_resultados] puts in a row, read column by column:
    [x], [rv], [mix] and [int] are the four columns of the sorted,
    deduplicated table. *)
Record row_ok (x rv mix int : list A)
    (tpda_liv tpda_cam mult_cam dist_km : A) (r : ResultRow) : Prop := {
  ok_p_cam :
    tarifa_usd_km_camiones r = (tarifa_usd_km_livianos r * mult_cam)%num;
  ok_dist : distancia_promedio_km r = dist_km;
  ok_pr_rv_liv :
    exists j, pr_rv_liv r = interp_at x rv j (tarifa_usd_km_livianos r);
  ok_pr_mix_liv :
    exists j, pr_mix_liv r = interp_at x mix j (tarifa_usd_km_livianos r);
  ok_pr_int_liv :
    exists j, pr_int_liv r = interp_at x int j (tarifa_usd_km_livianos r);
  ok_pr_rv_cam :
    exists j, pr_rv_cam r = interp_at x rv j (tarifa_usd_km_camiones r);
  ok_pr_mix_cam :
    exists j, pr_mix_cam r = interp_at x mix j (tarifa_usd_km_camiones r);
  ok_pr_int_cam :
    exists j, pr_int_cam r = interp_at x int j (tarifa_usd_km_camiones r);
  ok_Q_rv_liv : Q_rv_liv_veh_dia r = (tpda_liv * pr_rv_liv r)%num;
  ok_Q_mix_liv : Q_mix_liv_veh_dia r = (tpda_liv * pr_mix_liv r)%num;
  ok_Q_int_liv : Q_int_liv_veh_dia r = (tpda_liv * pr_int_liv r)%num;
  ok_Q_rv_cam : Q_rv_cam_veh_dia r = (tpda_cam * pr_rv_cam r)%num;
  ok_Q_mix_cam : Q_mix_cam_veh_dia r = (tpda_cam * pr_mix_cam r)%num;
  ok_Q_int_cam : Q_int_cam_veh_dia r = (tpda_cam * pr_int_cam r)%num;
  ok_recaud_liv_dia :
    recaud_liv_usd_dia r =
    (Q_rv_liv_veh_dia r * (tarifa_usd_km_livianos r * dist_km))%num;
  ok_recaud_cam_dia :
    recaud_cam_usd_dia r =
    (Q_rv_cam_veh_dia r * (tarifa_usd_km_camiones r * dist_km))%num;
  ok_recaud_total_dia :
    recaud_total_usd_dia r =
    (recaud_liv_usd_dia r + recaud_cam_usd_dia r)%num;
  ok_recaud_liv_anio :
    recaud_liv_usd_anio r = (recaud_liv_usd_dia r * nofZ 365)%num;
  ok_recaud_cam_anio :
    recaud_cam_usd_anio r = (recaud_cam_usd_dia r * nofZ 365)%num;
  ok_recaud_total_anio :
    recaud_total_usd_anio r = (recaud_total_usd_dia r * nofZ 365)%num
}.

(* --------------------------------------------------------------- *)
(** *** The revenue-maximising tariff (lines 279-282) *)

Context {NI : NegInf A}.

(** [Series.idxmax()] with [skipna=True] is pandas' [nanops.nanargmax]:
    the missing entries are overwritten with [-inf]
    ([_get_values(..., fill_value_typ="-inf")]), NumPy's [argmax] runs on
    the filled array, and [_maybe_arg_null_out] discards the result when
    every entry was missing. *)

(** What stands in the filled array for the entry [v]. *)
Definition fill_value (v : A) : A := if nisnan v then nneginf else v.

(** NumPy's [DOUBLE_argmax], the loop from the second entry on:
    [if (!(ip[0] <= mp)) { mp = ip[0]; max_ind[0] = i;
         if (npy_isnan(mp)) break; }]. *)
Fixpoint argmax_loop (i : nat) (mp : A) (max_ind : nat) (s : list A)
    : nat :=
  match s with
  | [] => max_ind
  | v :: s' =>
      if negb (v <=? mp)%num then
        if nisnan v then i else argmax_loop (S i) v i s'
      else argmax_loop (S i) mp max_ind s'
  end.

(** [ndarray.argmax()] on doubles: [ValueError] on an empty array, the
    first NaN if there is one, the first largest entry otherwise. *)
Definition argmax (s : list A) : result nat :=
  match s with
  | [] => Raise ValueError
  | v :: s' => Ok (if nisnan v then 0%nat else argmax_loop 1 v 0 s')
  end.

(** [nanops.nanargmax(values, skipna=True)]; [None] is the [-1] of
    [_maybe_arg_null_out]. *)
Definition nanargmax (s : list A) : result (option nat) :=
  let* i := argmax (map fill_value s) in
  Ok (if forallb nisnan s then None else Some i).


(** What [argmax_loop] knows after the entries [pre] have been read:
    [mp] stands at [max_ind], no entry is larger and every earlier one
    is smaller. *)
Definition argmax_inv (pre : list A) (mp : A) (max_ind : nat) : Prop :=
  nth_error pre max_ind = Some mp /\
  (forall j w, nth_error pre j = Some w -> nleb w mp = true) /\
  (forall j w, (j < max_ind)%nat -> nth_error pre j = Some w ->
     nltb w mp = true).

(** [Series.idxmax()] on the frame's [RangeIndex]: the label is the
    position; [ValueError] on an empty series, the NaN label ([None])
    when every entry is missing. *)
Definition idxmax (s : list A) : result (option nat) := nanargmax s.

(** [int(label)]: [ValueError] on NaN. *)
Definition int_of_label (l : option nat) : result nat :=
  match l with
  | Some i => Ok i
  | None => Raise ValueError
  end.

(** [app.py], line 279:
    [int(resultados["recaud_total_usd_dia"].idxmax())]. *)
Definition idx_max (resultados : list ResultRow) : result nat :=
  let* l := idxmax (map recaud_total_usd_dia resultados) in
  int_of_label l.

(** [resultados.loc[i, col]] on the frame's [RangeIndex]. *)
Definition loc (resultados : list ResultRow) (i : nat)
    (col : ResultRow -> A) : result A :=
  match nth_error resultados i with
  | Some r => Ok (col r)
  | None => Raise IndexError
  end.

(** [tarifa_opt], [recaud_max_dia] and [recaud_max_anio]. *)
Definition kpis (resultados : list ResultRow) : result (A * A * A) :=
  let* i := idx_max resultados in
  let* tarifa_opt := loc resultados i tarifa_usd_km_livianos in
  let* recaud_max_dia := loc resultados i recaud_total_usd_dia in
  let* recaud_max_anio := loc resultados i recaud_total_usd_anio in
  Ok (tarifa_opt, recaud_max_dia, recaud_max_anio).

End Engine.

Arguments ResultRow A : clear implicits.

(* ================================================================= *)
(** ** The embedded data of [app.py] *)

Section Data.
Local Open Scope float_scope.

(** [tabla_probabilidades_base()], row by row. *)
Definition tabla_probabilidades_base : list (ProbRow float) :=
  [ mkProbRow 0.00 0.46 0.25 0.28; mkProbRow 0.05 0.39 0.32 0.29;
    mkProbRow 0.10 0.32 0.39 0.29; mkProbRow 0.15 0.25 0.45 0.30;
    mkProbRow 0.20 0.19 0.51 0.30; mkProbRow 0.25 0.14 0.56 0.30;
    mkProbRow 0.30 0.10 0.60 0.30; mkProbRow 0.35 0.07 0.63 0.31;
    mkProbRow 0.40 0.04 0.65 0.31; mkProbRow 0.45 0.03 0.66 0.31;
    mkProbRow 0.50 0.02 0.67 0.31; mkProbRow 0.55 0.01 0.68 0.31;
    mkProbRow 0.60 0.01 0.68 0.31; mkProbRow 0.65 0.01 0.69 0.31;
    mkProbRow 0.70 0.00 0.69 0.31; mkProbRow 0.75 0.00 0.69 0.31;
    mkProbRow 0.80 0.00 0.69 0.31 ].

(** [DEFAULTS]: the base scenario. *)
Definition tpda_liv_base : float := 84461.6.
Definition tpda_bus_base : float := 1648.8.
Definition tpda_pes_base : float := 2654.4.
Definition tpda_cam_base : float := tpda_bus_base + tpda_pes_base.
Definition mult_cam_base : float := 6.0.
Definition dist_km_base : float := 10.0.

(** The three-point table of the end-to-end example: the rows of the
    base table at 0.0, 0.5 and 0.8 USD/km. *)
Definition tabla_ejemplo : list (ProbRow float) :=
  [ mkProbRow 0.0 0.46 0.25 0.28; mkProbRow 0.5 0.02 0.67 0.31;
    mkProbRow 0.8 0.00 0.69 0.31 ].

Definition grid_ejemplo : list float := [0.0; 0.25; 0.5].

End Data.

(** The same example in exact arithmetic. *)
Definition tabla_ejemplo_exacta : list (ProbRow Q) :=
  [ mkProbRow 0 (46 # 100) (25 # 100) (28 # 100);
    mkProbRow (5 # 10) (2 # 100) (67 # 100) (31 # 100);
    mkProbRow (8 # 10) 0 (69 # 100) (31 # 100) ]%Q.

Definition grid_ejemplo_exacta : list Q := [0; 25 # 100; 5 # 10]%Q.

(* ================================================================= *)
(** ** Predicates of the claims *)

(** [p] lies between the smallest and the largest entry of [col]. *)
Definition dentro_de (col : list Q) (p : Q) : Prop :=
  (seq_min col <= p <= seq_max col)%Q.

(** The same in binary64. *)
Definition en_rango (col : list float) (p : float) : Prop :=
  (seq_min col <=? p)%float = true /\ (p <=? seq_max col)%float = true.

(** The query [q] lies strictly inside a segment of the table whose two
    values differ, and [y] is what [np.interp] computes there. *)
Definition en_pendiente (x_grid y_grid : list float) (q y : float) : Prop :=
  exists i,
    0 <= i /\ i + 1 < Z.of_nat (length x_grid) /\
    (get x_grid i <? q)%float = true /\
    (q <? get x_grid (i + 1))%float = true /\
    (get y_grid i =? get y_grid (i + 1))%float = false /\
    y = on_segment x_grid y_grid i q.

(** The probability [p], interpolated at the tariff [q] in the column
    [col] of the table [t] the engine made of [df_prob], lies in the
    range of that column of [df_prob] unless [q] lies strictly inside a
    segment of [t] whose two values differ. *)
Definition acotada (df_prob t : list (ProbRow float))
    (col : ProbRow float -> float) (q p : float) : Prop :=
  en_rango (map col df_prob) p \/
  en_pendiente (map pkm t) (map col t) q p.

(** The quantity and revenue columns of a row that are zero when its
    interpolated probabilities and its tariff-times-distance products
    are finite numbers. *)
Definition columnas_cero (dist_km : float) (r : ResultRow float) : Prop :=
  (PrimFloat.is_finite (pr_rv_liv r) = true ->
   PrimFloat.is_zero (Q_rv_liv_veh_dia r) = true) /\
  (PrimFloat.is_finite (pr_mix_liv r) = true ->
   PrimFloat.is_zero (Q_mix_liv_veh_dia r) = true) /\
  (PrimFloat.is_finite (pr_int_liv r) = true ->
   PrimFloat.is_zero (Q_int_liv_veh_dia r) = true) /\
  (PrimFloat.is_finite (pr_rv_cam r) = true ->
   PrimFloat.is_zero (Q_rv_cam_veh_dia r) = true) /\
  (PrimFloat.is_finite (pr_mix_cam r) = true ->
   PrimFloat.is_zero (Q_mix_cam_veh_dia r) = true) /\
  (PrimFloat.is_finite (pr_int_cam r) = true ->
   PrimFloat.is_zero (Q_int_cam_veh_dia r) = true) /\
  (PrimFloat.is_finite (pr_rv_liv r) = true ->
   PrimFloat.is_finite (tarifa_usd_km_livianos r * dist_km) = true ->
   PrimFloat.is_zero (recaud_liv_usd_dia r) = true /\
   PrimFloat.is_zero (recaud_liv_usd_anio r) = true) /\
  (PrimFloat.is_finite (pr_rv_cam r) = true ->
   PrimFloat.is_finite (tarifa_usd_km_camiones r * dist_km) = true ->
   PrimFloat.is_zero (recaud_cam_usd_dia r) = true /\
   PrimFloat.is_zero (recaud_cam_usd_anio r) = true) /\
  (PrimFloat.is_finite (pr_rv_liv r) = true ->
   PrimFloat.is_finite (tarifa_usd_km_livianos r * dist_km) = true ->
   PrimFloat.is_finite (pr_rv_cam r) = true ->
   PrimFloat.is_finite (tarifa_usd_km_camiones r * dist_km) = true ->
   PrimFloat.is_zero (recaud_total_usd_dia r) = true /\
   PrimFloat.is_zero (recaud_total_usd_anio r) = true).

(** Every quantity and every revenue of the row is zero. *)
Definition todo_cero (r : ResultRow float) : Prop :=
  PrimFloat.is_zero (Q_rv_liv_veh_dia r) = true /\
  PrimFloat.is_zero (Q_mix_liv_veh_dia r) = true /\
  PrimFloat.is_zero (Q_int_liv_veh_dia r) = true /\
  PrimFloat.is_zero (Q_rv_cam_veh_dia r) = true /\
  PrimFloat.is_zero (Q_mix_cam_veh_dia r) = true /\
  PrimFloat.is_zero (Q_int_cam_veh_dia r) = true /\
  PrimFloat.is_zero (recaud_liv_usd_dia r) = true /\
  PrimFloat.is_zero (recaud_cam_usd_dia r) = true /\
  PrimFloat.is_zero (recaud_total_usd_dia r) = true /\
  PrimFloat.is_zero (recaud_liv_usd_anio r) = true /\
  PrimFloat.is_zero (recaud_cam_usd_anio r) = true /\
  PrimFloat.is_zero (recaud_total_usd_anio r) = true.

(** Two rows defined for the same breakpoint, 0.5 USD/km. *)
Definition tabla_duplicada : list (ProbRow float) :=
  [ mkProbRow 0.5 0.02 0.67 0.31; mkProbRow 0.5 0.10 0.60 0.30 ]%float.

(** Four rows, not in ascending order: the breakpoint 0.5 USD/km defined
    twice, then the breakpoints 0.0 and 0.2. *)
Definition tabla_desordenada : list (ProbRow float) :=
  [ mkProbRow 0.5 0.02 0.67 0.31; mkProbRow 0.5 0.10 0.60 0.30;
    mkProbRow 0.0 0.46 0.25 0.28; mkProbRow 0.2 0.19 0.51 0.30 ]%float.

(* ================================================================= *)
(** ** The table the engine interpolates on *)

Section Prepared.
Context {A : Type} {N : Num A}.

(** No two rows of the frame carry the same breakpoint. *)
Fixpoint distinct_keys (df : list (ProbRow A)) : bool :=
  match df with
  | [] => true
  | r :: df' =>
      negb (existsb (fun r' => same_key (pkm r) (pkm r')) df') &&
      distinct_keys df'
  end.

End Prepared.

(* ================================================================= *)
(** ** NumPy: [np.linspace]

    The tariff grid is one call of [np.linspace] with its defaults
    ([endpoint=True], no [dtype]) on two Python floats and an [int].
    The definition follows NumPy's [function_base.py]: the samples are
    [arange(0, num) * step + start], computed as [arange / div * delta]
    when the step rounds to zero, and the last one is overwritten with
    [stop]. *)

Section Linspace.
Context {A : Type} {N : Num A}.

(** [y[-1] = stop]. *)
Fixpoint set_last (stop : A) (y : list A) : list A :=
  match y with
  | [] => []
  | a :: y' =>
      match y' with
      | [] => [stop]
      | _ :: _ => a :: set_last stop y'
      end
  end.

(** [arange(0, num)] as floats. *)
Definition arange (num : Z) : list A :=
  map (fun i => nofZ (Z.of_nat i)) (seq 0 (Z.to_nat num)).

Definition linspace (start stop : A) (num : Z) : result (list A) :=
  if (num <? 0)%Z then Raise ValueError
  else
    let div := (num - 1)%Z in
    let delta := (stop - start)%num in
    let y := arange num in
    let y :=
      if (div >? 0)%Z then
        let step := (delta / nofZ div)%num in
        if (step =? nofZ 0)%num
        then map (fun v => (v / nofZ div * delta)%num) y
        else map (fun v => (v * step)%num) y
      else map (fun v => (v * delta)%num) y in
    let y := map (fun v => (v + start)%num) y in
    Ok (if (num >? 1)%Z then set_last stop y else y).

End Linspace.

(* ================================================================= *)
(** ** The script: from the sidebar to the result table *)

Section Script.
Context {A : Type} {N : Num A} {SV : SortValues A}.

(** [app.py], lines 214, 231 and 250-257: the truck volume, the tariff
    grid and the call of the engine, in the order the script runs
    them. *)
Definition resultados (df_prob : list (ProbRow A))
    (tpda_liv tpda_bus tpda_pes mult_cam dist_km pmin pmax : A) (npts : Z)
    : result (list (ResultRow A)) :=
  let tpda_cam := (tpda_bus + tpda_pes)%num in
  let* tarifa_grid := linspace pmin pmax npts in
  calcular_resultados df_prob tarifa_grid tpda_liv tpda_cam mult_cam dist_km.

End Script.

(* ================================================================= *)
(** ** The session state and the base scenario *)

(** The values the script keeps in [st.session_state]. *)
Inductive PyVal : Type :=
| PyFloat (x : float)
| PyInt (n : Z)
| PyStr (s : String.string).

(** A Python [dict] with string keys, in insertion order. *)
Definition PyDict : Type := list (String.string * PyVal).

(** [k in d]. *)
Definition contains (k : String.string) (d : PyDict) : bool :=
  existsb (fun kv => String.eqb (fst kv) k) d.

(** [d.get(k)]. *)
Definition getitem (k : String.string) (d : PyDict) : option PyVal :=
  option_map snd (find (fun kv => String.eqb (fst kv) k) d).

(** [d[k] = v]: the entry is replaced where it stands, a new key goes
    to the end. *)
Fixpoint setitem (k : String.string) (v : PyVal) (d : PyDict) : PyDict :=
  match d with
  | [] => [(k, v)]
  | (k', v') :: d' =>
      if String.eqb k' k then (k, v) :: d' else (k', v') :: setitem k v d'
  end.

(** [app.py], lines 31-42. *)
Definition DEFAULTS : PyDict :=
  [ ("tpda_liv", PyFloat 84461.6); ("tpda_bus", PyFloat 1648.8);
    ("tpda_pes", PyFloat 2654.4); ("mult_cam", PyFloat 6.0);
    ("dist_km", PyFloat 10.0); ("pmin", PyFloat 0.00);
    ("pmax", PyFloat 0.80); ("npts", PyInt 17);
    ("tipo_vehiculo", PyStr "Ambos"); ("ruta", PyStr "Ruta Viva")
  ]%string%float.

(** Lines 45-47: [for k, v in items: if k not in state: state[k] = v]. *)
Definition init_from (items : PyDict) (session_state : PyDict) : PyDict :=
  fold_left
    (fun st kv => if contains (fst kv) st then st
                  else setitem (fst kv) (snd kv) st)
    items session_state.

Definition init_session_state : PyDict -> PyDict := init_from DEFAULTS.

(** Lines 204-205, the reset button:
    [for k, v in items: state[k] = v]. *)
Definition reset_from (items : PyDict) (session_state : PyDict) : PyDict :=
  fold_left (fun st kv => setitem (fst kv) (snd kv) st) items session_state.

Definition reset_session_state : PyDict -> PyDict := reset_from DEFAULTS.

(** The keys of a [dict]. *)
Definition keys (d : PyDict) : list String.string := map fst d.

(* ================================================================= *)
(** ** Where the charts go *)

(** The layout columns of the page: [colA, colB] of the demand section
    and [c1, c2, c3] of each revenue tab. *)
Inductive Columna : Type := colA | colB | c1 | c2 | c3.

(** The series a chart shows. *)
Inductive Serie : Type := Livianos | Camiones | Total.

(** [tipo_vehiculo in ["Livianos", "Ambos"]] and
    [tipo_vehiculo in ["Camiones (buses + pesados)", "Ambos"]]. *)
Definition muestra_livianos (tipo_vehiculo : String.string) : bool :=
  existsb (String.eqb tipo_vehiculo) ["Livianos"; "Ambos"]%string.

Definition muestra_camiones (tipo_vehiculo : String.string) : bool :=
  existsb (String.eqb tipo_vehiculo)
    ["Camiones (buses + pesados)"; "Ambos"]%string.

(** Lines 315-340: the demand charts in the order they are drawn, each
    with the column that receives it. *)
Definition curvas_demanda (tipo_vehiculo : String.string)
    : list (Columna * Serie) :=
  (if muestra_livianos tipo_vehiculo then [(colA, Livianos)] else []) ++
  (if muestra_camiones tipo_vehiculo
   then [(if String.eqb tipo_vehiculo "Ambos" then colB else colA, Camiones)]
   else []).

(** Lines 352-385 and 387-420: the revenue charts of one tab. *)
Definition curvas_recaudacion (tipo_vehiculo : String.string)
    : list (Columna * Serie) :=
  (if muestra_livianos tipo_vehiculo then [(c1, Livianos)] else []) ++
  (if muestra_camiones tipo_vehiculo
   then [(if String.eqb tipo_vehiculo "Ambos" then c2 else c1, Camiones)]
   else []) ++
  [(if String.eqb tipo_vehiculo "Ambos" then c3 else c2, Total)].

(* ================================================================= *)
(** * Properties *)

(* ================================================================= *)
(** ** The order on binary64 and on the rationals *)

Lemma SFcompare_rank x y :
  SFcompare x y =
  if sf_is_nan x || sf_is_nan y then None
  else Some (lex3 (sf_rank x) (sf_rank y)).
Proof.
  destruct x as [[|]|[|]| |[|] m1 e1], y as [[|]|[|]| |[|] m2 e2];
    try reflexivity; cbn [SFcompare sf_is_nan orb sf_rank lex3]; cbn [Z.compare].
  all: try (rewrite Z.compare_opp, (Z.compare_antisym e1 e2));
    destruct (e1 ?= e2); reflexivity.
Qed.

Lemma lex3_spec a1 b1 c1 a2 b2 c2 :
  match lex3 (a1, b1, c1) (a2, b2, c2) with
  | Eq => a1 = a2 /\ b1 = b2 /\ c1 = c2
  | Lt => lex_lt a1 b1 c1 a2 b2 c2
  | Gt => lex_lt a2 b2 c2 a1 b1 c1
  end.
Proof.
  unfold lex3, lex_lt.
  destruct (Z.compare_spec a1 a2), (Z.compare_spec b1 b2),
    (Z.compare_spec c1 c2); lia.
Qed.

Lemma is_nan_sf a : PrimFloat.is_nan a = sf_is_nan (Prim2SF a).
Proof.
  unfold PrimFloat.is_nan. rewrite eqb_spec. unfold SFeqb.
  rewrite SFcompare_rank.
  destruct (sf_is_nan (Prim2SF a)); [reflexivity|]. cbn [orb].
  destruct (sf_rank (Prim2SF a)) as [[x y] z].
  generalize (lex3_spec x y z x y z).
  destruct (lex3 _ _); unfold lex_lt; intros; try reflexivity; lia.
Qed.

Lemma compare_fcmp a b : SFcompare (Prim2SF a) (Prim2SF b) = fcmp a b.
Proof. unfold fcmp, frank. now rewrite SFcompare_rank, !is_nan_sf. Qed.

Lemma ltb_fcmp a b :
  PrimFloat.ltb a b = match fcmp a b with Some Lt => true | _ => false end.
Proof. rewrite ltb_spec. unfold SFltb. now rewrite compare_fcmp. Qed.

Lemma leb_fcmp a b :
  PrimFloat.leb a b =
  match fcmp a b with Some (Lt | Eq) => true | _ => false end.
Proof. rewrite leb_spec. unfold SFleb. now rewrite compare_fcmp. Qed.

Lemma eqb_fcmp a b :
  PrimFloat.eqb a b = match fcmp a b with Some Eq => true | _ => false end.
Proof. rewrite eqb_spec. unfold SFeqb. now rewrite compare_fcmp. Qed.

Ltac float_order :=
  cbn [nltb nleb neqb nisnan Binary64];
  rewrite ?ltb_fcmp, ?leb_fcmp, ?eqb_fcmp; unfold fcmp;
  repeat match goal with
    | |- context [PrimFloat.is_nan ?a] => destruct (PrimFloat.is_nan a)
    end; cbn [orb andb]; try easy;
  repeat match goal with
    | |- context [frank ?a] =>
        let x := fresh "x" in let y := fresh "y" in let z := fresh "z" in
        destruct (frank a) as [[x y] z]
    end;
  repeat match goal with
    | |- context [lex3 (?a1, ?b1, ?c1) (?a2, ?b2, ?c2)] =>
        generalize (lex3_spec a1 b1 c1 a2 b2 c2);
        destruct (lex3 (a1, b1, c1) (a2, b2, c2))
    end;
  unfold lex_lt; intros; try easy; try (exfalso; lia); auto.

#[export] Instance Binary64_laws : NumLaws float.
Proof.
  split; intros.
  - revert H H0 H1. float_order.
  - revert H. float_order.
  - revert H H0. float_order.
  - revert H H0. float_order.
  - revert H H0. float_order.
  - revert H. float_order.
  - revert H. float_order.
  - float_order.
  - revert H. float_order.
Qed.

#[export] Instance Binary64_neginf_laws : NegInfLaws float.
Proof.
  split.
  - reflexivity.
  - intros v. cbn [nisnan nleb nneginf Binary64 Binary64_neginf].
    rewrite leb_spec, is_nan_sf. unfold SFleb.
    rewrite SFcompare_rank.
    change (Prim2SF neg_infinity) with (S754_infinity true).
    destruct (Prim2SF v) as [s|[|]| |[|] m e]; cbn; try discriminate;
      reflexivity.
Qed.

Lemma Qle_bool_false a b : Qle_bool a b = false <-> (b < a)%Q.
Proof.
  rewrite <- Bool.not_true_iff_false, Qle_bool_iff. split.
  - apply Qnot_le_lt.
  - apply Qlt_not_le.
Qed.

Ltac q_order :=
  cbn [nltb nleb neqb nisnan Exact];
  rewrite ?Bool.negb_true_iff, ?Bool.negb_false_iff,
    ?Qle_bool_false, ?Qle_bool_iff.

#[export] Instance Exact_laws : NumLaws Q.
Proof.
  split.
  - intros a b _ _. cbn [nltb nleb Exact].
    now destruct (Qle_bool b a).
  - intros a b. q_order. apply Qlt_le_weak.
  - intros a b c. q_order. apply Qle_trans.
  - intros a b c. q_order. apply Qlt_le_trans.
  - intros a b c. q_order. apply Qle_lt_trans.
  - intros a b. q_order. auto.
  - intros a b. q_order. auto.
  - intros a b. cbn [nltb nleb neqb nisnan Exact].
    destruct (Qeq_bool a b) eqn:E.
    + apply Qeq_bool_iff in E. symmetry.
      apply andb_true_iff; split; apply Qle_bool_iff; rewrite E; apply Qle_refl.
    + symmetry. apply andb_false_iff.
      destruct (Qle_bool a b) eqn:E1; [|now left]. right.
      destruct (Qle_bool b a) eqn:E2; [|reflexivity].
      apply Qle_bool_iff in E1, E2.
      assert (a == b)%Q as H by now apply Qle_antisym.
      apply Qeq_bool_iff in H. congruence.
  - intros a _. q_order. apply Qle_refl.
Qed.

(* ================================================================= *)
(** ** Consequences of the order laws *)

Section OrderFacts.
Context {A : Type} {N : Num A} {L : NumLaws A}.

Lemma nltb_not_nan (a b : A) :
  nltb a b = true -> nisnan a = false /\ nisnan b = false.
Proof. intros Hlt. apply nleb_not_nan. now apply nltb_nleb. Qed.

Lemma nleb_not_nltb (a b : A) : nleb a b = true -> nltb b a = false.
Proof.
  intros Hle. destruct (nltb b a) eqn:E; [|reflexivity].
  apply nltb_not_nleb in E. congruence.
Qed.

Lemma nltb_asym (a b : A) : nltb a b = true -> nltb b a = false.
Proof. intros Hlt. apply nleb_not_nltb. now apply nltb_nleb. Qed.

Lemma nltb_irrefl (a : A) : nltb a a = false.
Proof.
  destruct (nltb a a) eqn:E; [|reflexivity].
  pose proof (nltb_asym _ _ E). congruence.
Qed.

Lemma nltb_trans (a b c : A) :
  nltb a b = true -> nltb b c = true -> nltb a c = true.
Proof.
  intros Hab Hbc. eapply nltb_nleb_trans; [exact Hab|].
  now apply nltb_nleb.
Qed.

Lemma not_nleb_nltb (a b : A) :
  nisnan a = false -> nisnan b = false ->
  nleb a b = false -> nltb b a = true.
Proof.
  intros Ha Hb Hle. destruct (nltb b a) eqn:E; [reflexivity|].
  apply nltb_total in E; auto. congruence.
Qed.

Lemma neqb_true_nleb (a b : A) :
  neqb a b = true <-> nleb a b = true /\ nleb b a = true.
Proof. rewrite neqb_nleb. apply andb_true_iff. Qed.

Lemma neqb_refl (a : A) : nisnan a = false -> neqb a a = true.
Proof. intros Ha. rewrite neqb_nleb, nleb_refl; auto. Qed.

End OrderFacts.

(* ================================================================= *)
(** ** [binary_search_with_guess] brackets the key *)

Section Search.
Context {A : Type} {N : Num A} {L : NumLaws A}.
Variables (key : A) (arr : list A) (len : Z).
Hypothesis Hlen : len = Z.of_nat (length arr).
Hypothesis Harr : nonan arr.
Hypothesis Hkey : nisnan key = false.

Lemma get_nonan i : 0 <= i < len -> nisnan (get arr i) = false.
Proof.
  intros Hi. unfold get.
  assert (Hin : In (nth (Z.to_nat i) arr (nofZ 0)) arr) by (apply nth_In; lia).
  unfold nonan in Harr. rewrite Forall_forall in Harr. now apply Harr.
Qed.

Lemma ngeb_false_nltb i :
  0 <= i < len -> ngeb key (get arr i) = false -> nltb key (get arr i) = true.
Proof.
  intros Hi Hge. apply not_nleb_nltb; auto using get_nonan.
Qed.

Lemma nltb_false_ngeb i :
  0 <= i < len -> nltb key (get arr i) = false -> nleb (get arr i) key = true.
Proof.
  intros Hi Hlt. apply nltb_total; auto using get_nonan.
Qed.

Lemma linear_scan_spec fuel : forall i,
  1 <= i <= len -> len - i < Z.of_nat fuel ->
  nleb (get arr (i - 1)) key = true ->
  let r := linear_scan fuel key arr len i in
  i <= r <= len /\ nleb (get arr (r - 1)) key = true /\
  (r = len \/ nltb key (get arr r) = true).
Proof.
  induction fuel as [|fuel IH]; intros i Hi Hfuel Hprev; [lia|].
  cbn [linear_scan].
  destruct (Z.ltb_spec i len) as [Hlt|Hge]; cbn [andb].
  - destruct (ngeb key (get arr i)) eqn:Hcmp.
    + destruct (IH (i + 1)) as (Hr & Hle & Hnext); try lia.
      * now replace (i + 1 - 1) with i by lia.
      * cbv zeta. repeat split; auto; lia.
    + cbv zeta. repeat split; auto; try lia.
      right. apply ngeb_false_nltb; auto; lia.
  - cbv zeta. repeat split; auto; lia.
Qed.

Lemma bisect_spec fuel : forall imin imax,
  0 <= imin <= imax -> imax <= len -> imax - imin <= Z.of_nat fuel ->
  lower_ok key arr imin imax ->
  (imax = len \/ nltb key (get arr imax) = true) ->
  let r := bisect fuel key arr imin imax in
  imin <= r <= imax /\
  (r = 0 \/ nleb (get arr (r - 1)) key = true) /\
  (r = len \/ nltb key (get arr r) = true).
Proof.
  induction fuel as [|fuel IH]; intros imin imax Hmin Hmax Hfuel Hlo Hhi;
    cbn [bisect].
  - assert (imin = imax) by lia. subst imax.
    cbv zeta. repeat split; auto; try lia.
    destruct Hlo as [|[|[]]]; auto; lia.
  - destruct (Z.ltb_spec imin imax) as [Hlt|Hge].
    + rewrite Z.shiftr_div_pow2 by lia. change (2 ^ 1) with 2.
      set (imid := imin + (imax - imin) / 2).
      assert (Hmid : imin <= imid < imax).
      { unfold imid.
        pose proof (Z.div_lt_upper_bound (imax - imin) 2 (imax - imin)).
        pose proof (Z.div_pos (imax - imin) 2). lia. }
      destruct (ngeb key (get arr imid)) eqn:Hcmp.
      * destruct (IH (imid + 1) imax) as (Hr & Hle & Hnext); try lia; auto.
        { right; left. now replace (imid + 1 - 1) with imid by lia. }
        cbv zeta. repeat split; auto; lia.
      * destruct (IH imin imid) as (Hr & Hle & Hnext); try lia; auto.
        { destruct Hlo as [Hlo|[Hlo|[_ Hlo]]];
            [now left|now right; left|right; right].
          split; auto.
          destruct (Z.eq_dec imin imid) as [E|E]; [|lia].
          rewrite <- E in Hcmp. unfold ngeb in Hcmp. congruence. }
        { right. apply ngeb_false_nltb; auto; lia. }
        cbv zeta. repeat split; auto; lia.
    + assert (imin = imax) by lia. subst imax.
      cbv zeta. repeat split; auto; try lia.
      destruct Hlo as [|[|[]]]; auto; lia.
Qed.

Lemma bisect_bracket fuel imin imax :
  1 <= len -> nltb key (get arr 0) = false ->
  0 <= imin <= imax -> imax <= len -> imax - imin <= Z.of_nat fuel ->
  lower_ok key arr imin imax ->
  (imax = len \/ nltb key (get arr imax) = true) ->
  bracket key arr len (bisect fuel key arr imin imax - 1).
Proof.
  intros Hpos H0 Hmin Hmax Hfuel Hlo Hhi.
  destruct (bisect_spec fuel imin imax) as (Hr & Hle & Hnext); auto.
  set (r := bisect fuel key arr imin imax) in *.
  assert (Hr0 : r <> 0).
  { intros E. destruct Hnext as [Hn|Hn]; [lia|]. rewrite E in Hn. congruence. }
  unfold bracket. destruct Hle as [|Hle]; [contradiction|].
  repeat split; try lia; auto.
  destruct Hnext as [Hn|Hn]; [left; lia|right].
  now replace (r - 1 + 1) with r by lia.
Qed.

End Search.

Ltac search_side :=
  unfold lower_ok;
  repeat match goal with
    | |- context [Z.gtb ?a ?b] => destruct (Z.gtb_spec a b)
    | |- context [Z.ltb ?a ?b] => destruct (Z.ltb_spec a b)
    end; cbn [andb];
  repeat match goal with
    | |- context [if ?c then _ else _] =>
        let E := fresh "E" in destruct c eqn:E
    end;
  first [ lia | now left | now right | now (right; left)
        | right; right; split; [lia|assumption] ].

Section SearchSpec.
Context {A : Type} {N : Num A} {L : NumLaws A}.
Variables (key : A) (arr : list A) (len : Z).
Hypothesis Hlen : len = Z.of_nat (length arr).
Hypothesis Harr : nonan arr.
Hypothesis Hkey : nisnan key = false.

Theorem binary_search_with_guess_spec guess :
  1 <= len ->
  search_post key arr len (binary_search_with_guess key arr len guess).
Proof.
  intros Hpos. unfold binary_search_with_guess, search_post, ngtb.
  destruct (nltb (get arr (len - 1)) key) eqn:Habove; [right; left; auto|].
  destruct (nltb key (get arr 0)) eqn:Hbelow; [left; auto|].
  right; right.
  assert (Hfirst : nleb (get arr 0) key = true)
    by (apply nltb_false_ngeb with (len := len); auto; lia).
  destruct (Z.leb_spec len 4) as [Hsmall|Hbig].
  - destruct (linear_scan_spec key arr len Hlen Harr Hkey (Z.to_nat len) 1)
      as (Hr & Hle & Hnext); try lia; auto.
    set (r := linear_scan (Z.to_nat len) key arr len 1) in *.
    unfold bracket. repeat split; try lia; auto.
    destruct Hnext as [Hn|Hn]; [left; lia|right].
    now replace (r - 1 + 1) with r by lia.
  - set (g0 := if guess >? len - 3 then len - 3 else guess).
    set (g := if g0 <? 1 then 1 else g0).
    assert (Hg : 1 <= g <= len - 3).
    { unfold g, g0. destruct (Z.gtb_spec guess (len - 3));
        [destruct (Z.ltb_spec (len - 3) 1)|destruct (Z.ltb_spec guess 1)]; lia. }
    clearbody g. clear g0. unfold LIKELY_IN_CACHE_SIZE.
    assert (Hge : forall i, 0 <= i < len ->
              nltb key (get arr i) = false -> nleb (get arr i) key = true)
      by (intros; apply nltb_false_ngeb with (len := len); auto).
    destruct (nltb key (get arr g)) eqn:Hg0.
    + destruct (nltb key (get arr (g - 1))) eqn:Hg1.
      * apply bisect_bracket; auto; search_side.
      * unfold bracket. repeat split; try lia.
        -- apply Hge; auto; lia.
        -- right. now replace (g - 1 + 1) with g by lia.
    + destruct (nltb key (get arr (g + 1))) eqn:Hg1.
      * unfold bracket. repeat split; try lia; auto.
        apply Hge; auto; lia.
      * destruct (nltb key (get arr (g + 2))) eqn:Hg2.
        -- unfold bracket. repeat split; try lia.
           ++ apply Hge; auto; lia.
           ++ right. now replace (g + 1 + 1) with (g + 2) by lia.
        -- assert (Hg1' : nleb (get arr (g + 2 - 1)) key = true).
           { replace (g + 2 - 1) with (g + 1) by lia. apply Hge; auto; lia. }
           apply bisect_bracket; auto; search_side.
Qed.

End SearchSpec.

(* ================================================================= *)
(** ** [interp_clamp], query by query *)

Section InterpShape.
Context {A : Type} {N : Num A}.

Lemma interp_loop_length dx dy lenxp lval rval dz : forall j,
  length (interp_loop dx dy lenxp lval rval j dz) = length dz.
Proof.
  induction dz as [|x dz IH]; intros j; cbn [interp_loop]; [reflexivity|].
  destruct (interp_one dx dy lenxp lval rval j x) as [r j'].
  cbn [length]. now rewrite IH.
Qed.

Lemma interp_loop_nth dx dy lenxp lval rval dz : forall j k x,
  nth_error dz k = Some x ->
  exists j',
    nth_error (interp_loop dx dy lenxp lval rval j dz) k =
    Some (fst (interp_one dx dy lenxp lval rval j' x)).
Proof.
  induction dz as [|x0 dz IH]; intros j k x Hk.
  - destruct k; discriminate.
  - cbn [interp_loop].
    destruct (interp_one dx dy lenxp lval rval j x0) as [r j'] eqn:E.
    destruct k as [|k]; cbn [nth_error] in *.
    + injection Hk as <-. exists j. now rewrite E.
    + now apply IH.
Qed.

Lemma last_cons_default (a : A) (l : list A) (d : A) :
  last (a :: l) a = last (a :: l) d.
Proof.
  assert (Hgen : forall (l : list A) (d1 d2 : A),
             l <> [] -> last l d1 = last l d2).
  { clear. induction l as [|b l IH]; intros d1 d2 Hne; [congruence|].
    destruct l as [|c l]; [reflexivity|].
    cbn [last] in *. apply IH. discriminate. }
  apply Hgen. discriminate.
Qed.

(** On a non-empty table with as many values as sample points,
    [interp_clamp] returns one value per query, each of them the value
    [interp_at] of that query for some guess. *)
Lemma interp_clamp_nth (x_grid y_grid xq : list A) :
  x_grid <> [] -> length y_grid = length x_grid ->
  exists ys,
    interp_clamp x_grid y_grid xq = Ok ys /\
    length ys = length xq /\
    forall k x, nth_error xq k = Some x ->
      exists j, nth_error ys k = Some (interp_at x_grid y_grid j x).
Proof.
  intros Hne Hlen.
  destruct x_grid as [|x0 x_grid]; [congruence|].
  destruct y_grid as [|y0 y_grid]; [discriminate|].
  unfold interp_clamp, first_item, last_item, bind, np_interp.
  rewrite Hlen, Nat.eqb_refl. cbn [negb].
  destruct x_grid as [|x1 x_grid].
  - eexists; split; [reflexivity|]. split; [apply length_map|].
    intros k x Hk. exists 0.
    rewrite nth_error_map, Hk. cbn [option_map].
    unfold interp_at. cbn [hd].
    now rewrite <- (last_cons_default y0 y_grid (nofZ 0)).
  - eexists; split; [reflexivity|]. split; [apply interp_loop_length|].
    intros k x Hk.
    destruct (interp_loop_nth (x0 :: x1 :: x_grid) (y0 :: y_grid)
                (Z.of_nat (length (x0 :: x1 :: x_grid))) y0
                (last (y0 :: y_grid) y0) xq 0 k x Hk) as [j Hj].
    exists j. rewrite Hj. unfold interp_at. cbn [hd].
    now rewrite <- (last_cons_default y0 y_grid (nofZ 0)).
Qed.

End InterpShape.

(* ================================================================= *)
(** ** Ascending sample points *)

Section Ascending.
Context {A : Type} {N : Num A} {L : NumLaws A}.

Lemma ascending_nth (l : list A) (d : A) :
  ascending l = true ->
  forall i j, (i < j < length l)%nat ->
    nleb (nth i l d) (nth j l d) = true.
Proof.
  induction l as [|a l IH]; intros Hasc i j Hij; [cbn in Hij; lia|].
  destruct l as [|b l]; [cbn in Hij; lia|].
  cbn [ascending] in Hasc. apply andb_true_iff in Hasc as [Hab Hasc].
  destruct j as [|j]; [lia|]. destruct i as [|i].
  - cbn [nth]. destruct j as [|j]; [exact Hab|].
    apply nleb_trans with b; [exact Hab|].
    apply (IH Hasc 0%nat (S j)). cbn [length] in *. lia.
  - apply (IH Hasc i j). cbn [length] in *. lia.
Qed.

Lemma strictly_ascending_nth (l : list A) (d : A) :
  strictly_ascending l = true ->
  forall i j, (i < j < length l)%nat ->
    nltb (nth i l d) (nth j l d) = true.
Proof.
  induction l as [|a l IH]; intros Hasc i j Hij; [cbn in Hij; lia|].
  destruct l as [|b l]; [cbn in Hij; lia|].
  cbn [strictly_ascending] in Hasc.
  apply andb_true_iff in Hasc as [Hab Hasc].
  destruct j as [|j]; [lia|]. destruct i as [|i].
  - cbn [nth]. destruct j as [|j]; [exact Hab|].
    apply nltb_trans with b; [exact Hab|].
    apply (IH Hasc 0%nat (S j)). cbn [length] in *. lia.
  - apply (IH Hasc i j). cbn [length] in *. lia.
Qed.

Lemma strictly_ascending_ascending (l : list A) :
  strictly_ascending l = true -> ascending l = true.
Proof.
  induction l as [|a l IH]; [reflexivity|].
  destruct l as [|b l]; [reflexivity|].
  cbn [strictly_ascending ascending]. rewrite !andb_true_iff.
  intros [Hab Hasc]. split; [now apply nltb_nleb|now apply IH].
Qed.

(** Two or more ascending sample points are all numbers. *)
Lemma ascending_nonan (l : list A) :
  ascending l = true -> (2 <= length l)%nat -> nonan l.
Proof.
  intros Hasc Hlen. unfold nonan. apply Forall_forall. intros a Hin.
  destruct (In_nth l a (nofZ 0) Hin) as (i & Hi & <-).
  destruct (Nat.eq_dec i 0) as [->|Hi0].
  - apply (nleb_not_nan _ (nth 1 l (nofZ 0))).
    apply ascending_nth; [exact Hasc|lia].
  - apply (nleb_not_nan (nth 0 l (nofZ 0))).
    apply ascending_nth; [exact Hasc|lia].
Qed.

Lemma ascending_get (l : list A) (i j : Z) :
  ascending l = true -> 0 <= i < j -> j < Z.of_nat (length l) ->
  nleb (get l i) (get l j) = true.
Proof.
  intros Hasc Hij Hj. unfold get. apply ascending_nth; [exact Hasc|lia].
Qed.

Lemma strictly_ascending_get (l : list A) (i j : Z) :
  strictly_ascending l = true -> 0 <= i < j -> j < Z.of_nat (length l) ->
  nltb (get l i) (get l j) = true.
Proof.
  intros Hasc Hij Hj. unfold get.
  apply strictly_ascending_nth; [exact Hasc|lia].
Qed.

Lemma get_0_hd (l : list A) : get l 0 = hd (nofZ 0) l.
Proof. now destruct l. Qed.

Lemma get_last (l : list A) :
  get l (Z.of_nat (length l) - 1) = last l (nofZ 0).
Proof.
  unfold get. destruct l as [|a l]; [reflexivity|].
  replace (Z.to_nat (Z.of_nat (length (a :: l)) - 1)) with (length l)
    by (cbn [length]; lia).
  revert a. induction l as [|b l IH]; intros a; [reflexivity|].
  change (nth (length l) (b :: l) (nofZ 0) = last (b :: l) (nofZ 0)).
  apply IH.
Qed.

End Ascending.

(* ================================================================= *)
(** ** Clamp outside the table, exactness at the sample points *)

Section Clamp.
Context {A : Type} {N : Num A} {L : NumLaws A}.
Variables (x_grid y_grid : list A).
Hypothesis Hne : x_grid <> [].
Hypothesis Hlen : length y_grid = length x_grid.

(** Below the first sample point: the first value. *)
Lemma interp_at_below (j : Z) (x : A) :
  ascending x_grid = true ->
  nltb x (hd (nofZ 0) x_grid) = true ->
  interp_at x_grid y_grid j x = hd (nofZ 0) y_grid.
Proof.
  intros Hasc Hlt. unfold interp_at.
  destruct x_grid as [|x0 [|x1 xs]] eqn:Eg; [congruence| |].
  - cbn [hd] in Hlt. unfold interp_single. now rewrite Hlt.
  - rewrite <- Eg in *. unfold interp_one.
    destruct (nltb_not_nan _ _ Hlt) as [Hx _]. rewrite Hx.
    unfold binary_search_with_guess, ngtb.
    rewrite <- get_0_hd in Hlt.
    assert (Hlast : nltb (get x_grid (Z.of_nat (length x_grid) - 1)) x = false).
    { apply nltb_asym. eapply nltb_nleb_trans; [exact Hlt|].
      apply ascending_get; auto; rewrite Eg; cbn [length]; lia. }
    rewrite Hlast, Hlt. reflexivity.
Qed.

(** Above the last sample point: the last value. *)
Lemma interp_at_above (j : Z) (x : A) :
  nltb (last x_grid (nofZ 0)) x = true ->
  interp_at x_grid y_grid j x = last y_grid (nofZ 0).
Proof.
  intros Hlt. unfold interp_at.
  destruct x_grid as [|x0 [|x1 xs]] eqn:Eg; [congruence| |].
  - cbn [last] in Hlt. unfold interp_single, ngtb.
    now rewrite (nltb_asym _ _ Hlt), Hlt.
  - rewrite <- Eg in *. unfold interp_one.
    destruct (nltb_not_nan _ _ Hlt) as [_ Hx]. rewrite Hx.
    unfold binary_search_with_guess, ngtb.
    rewrite get_last, Hlt.
    assert ((Z.of_nat (length x_grid) =? -1) = false) as ->
      by (apply Z.eqb_neq; lia).
    now rewrite Z.eqb_refl.
Qed.

(** At a sample point of a strictly ascending table: its value. *)
Lemma interp_at_knot (j i : Z) :
  strictly_ascending x_grid = true ->
  0 <= i < Z.of_nat (length x_grid) ->
  interp_at x_grid y_grid j (get x_grid i) = get y_grid i.
Proof.
  intros Hasc Hi. unfold interp_at.
  destruct x_grid as [|x0 [|x1 xs]] eqn:Eg; [congruence| |].
  - cbn [length] in Hi. assert (i = 0) as -> by lia.
    change (get [x0] 0) with x0.
    unfold interp_single, ngtb. now rewrite nltb_irrefl.
  - rewrite <- Eg in *.
    set (len := Z.of_nat (length x_grid)) in *.
    assert (Hlen2 : 2 <= len) by (unfold len; rewrite Eg; cbn [length]; lia).
    assert (Hnn : nonan x_grid).
    { apply ascending_nonan; [now apply strictly_ascending_ascending|].
      rewrite Eg; cbn [length]; lia. }
    assert (Hx : nisnan (get x_grid i) = false)
      by (apply get_nonan with (len := len); auto).
    assert (Hmono : forall a b, 0 <= a < b -> b < len ->
              nltb (get x_grid a) (get x_grid b) = true)
      by (intros; apply strictly_ascending_get; auto).
    unfold interp_one. rewrite Hx.
    pose proof (binary_search_with_guess_spec
                  (get x_grid i) x_grid len eq_refl Hnn Hx j) as Hs.
    set (r := binary_search_with_guess (get x_grid i) x_grid len j) in *.
    assert (Hr : r = i).
    { destruct Hs as [[_ Hs]|[[_ Hs]|(Hr & Hle & Hnext)]]; try lia.
      - exfalso. destruct (Z.eq_dec i 0) as [->|];
          [rewrite nltb_irrefl in Hs; discriminate|].
        rewrite (nltb_asym _ _ (Hmono 0 i ltac:(lia) ltac:(lia))) in Hs.
        discriminate.
      - exfalso. destruct (Z.eq_dec i (len - 1)) as [->|];
          [rewrite nltb_irrefl in Hs; discriminate|].
        rewrite (nltb_asym _ _ (Hmono i (len - 1) ltac:(lia) ltac:(lia))) in Hs.
        discriminate.
      - assert (r <= i).
        { destruct (Z_le_gt_dec r i); auto. exfalso.
          rewrite (nltb_not_nleb _ _ (Hmono i r ltac:(lia) ltac:(lia))) in Hle.
          discriminate. }
        destruct Hnext as [Hn|Hn]; [lia|].
        destruct (Z_le_gt_dec i r); [lia|]. exfalso.
        destruct (Z.eq_dec (r + 1) i) as [E|E].
        + rewrite E, nltb_irrefl in Hn. discriminate.
        + rewrite (nltb_asym _ _ (Hmono (r + 1) i ltac:(lia) ltac:(lia))) in Hn.
          discriminate. }
    rewrite Hr.
    assert ((i =? -1) = false) as -> by (apply Z.eqb_neq; lia).
    assert ((i =? len) = false) as -> by (apply Z.eqb_neq; lia).
    destruct (i =? len - 1); [reflexivity|].
    now rewrite neqb_refl.
Qed.

End Clamp.

(* ================================================================= *)
(** ** Sorting the table *)

Section Sorting.
Context {A : Type} {N : Num A} {L : NumLaws A}.
Implicit Types (a b c r : ProbRow A) (df : list (ProbRow A)).

Lemma in_order_total a b : in_order a b = false -> in_order b a = true.
Proof.
  unfold in_order.
  destruct (nisnan (pkm a)) eqn:Ea, (nisnan (pkm b)) eqn:Eb;
    cbn [orb]; try congruence.
  intros Hle. apply nltb_nleb. now apply not_nleb_nltb.
Qed.

Lemma in_order_refl a : in_order a a = true.
Proof.
  unfold in_order. destruct (nisnan (pkm a)) eqn:Ea; [reflexivity|].
  now rewrite nleb_refl.
Qed.

Lemma in_order_trans a b c :
  in_order a b = true -> in_order b c = true -> in_order a c = true.
Proof.
  unfold in_order.
  destruct (nisnan (pkm a)) eqn:Ea, (nisnan (pkm b)) eqn:Eb,
    (nisnan (pkm c)) eqn:Ec; cbn [orb]; try congruence.
  apply nleb_trans.
Qed.

Lemma sorted_by_pkm_tail a df :
  sorted_by_pkm (a :: df) = true -> sorted_by_pkm df = true.
Proof.
  destruct df as [|b df]; [reflexivity|].
  cbn [sorted_by_pkm]. rewrite andb_true_iff. tauto.
Qed.

Lemma sorted_by_pkm_head a df :
  sorted_by_pkm (a :: df) = true ->
  forall b, In b df -> in_order a b = true.
Proof.
  revert a. induction df as [|c df IH]; intros a Hs b Hin; [contradiction|].
  cbn [sorted_by_pkm] in Hs. apply andb_true_iff in Hs as [Hac Hs].
  destruct Hin as [<-|Hin]; [exact Hac|].
  apply in_order_trans with c; [exact Hac|]. now apply IH.
Qed.

Lemma sorted_by_pkm_cons a df :
  sorted_by_pkm df = true ->
  (forall b, In b df -> in_order a b = true) ->
  sorted_by_pkm (a :: df) = true.
Proof.
  intros Hs Ha. destruct df as [|b df]; [reflexivity|].
  cbn [sorted_by_pkm]. apply andb_true_iff. split; [|exact Hs].
  apply Ha. now left.
Qed.

(** *** The stable insertion sort *)

Lemma insert_stable_perm r df : Permutation (r :: df) (insert_stable r df).
Proof.
  induction df as [|a df IH]; cbn [insert_stable]; [reflexivity|].
  destruct (in_order a r); [|reflexivity].
  rewrite perm_swap. now apply perm_skip.
Qed.

Lemma insert_stable_sorted r df :
  sorted_by_pkm df = true -> sorted_by_pkm (insert_stable r df) = true.
Proof.
  induction df as [|a df IH]; intros Hs; cbn [insert_stable]; [reflexivity|].
  destruct (in_order a r) eqn:Ear.
  - apply sorted_by_pkm_cons.
    + apply IH. now apply sorted_by_pkm_tail in Hs.
    + intros b Hb.
      apply (Permutation_in _ (Permutation_sym (insert_stable_perm r df))) in Hb.
      destruct Hb as [<-|Hb]; [exact Ear|].
      now apply (sorted_by_pkm_head a df).
  - apply sorted_by_pkm_cons; [exact Hs|].
    intros b [<-|Hb]; [now apply in_order_total|].
    apply in_order_trans with a; [now apply in_order_total|].
    now apply (sorted_by_pkm_head a df).
Qed.

Lemma sort_stable_acc df : forall acc,
  sorted_by_pkm acc = true ->
  let out := fold_left (fun acc r => insert_stable r acc) df acc in
  Permutation (df ++ acc) out /\ sorted_by_pkm out = true.
Proof.
  induction df as [|r df IH]; intros acc Hs; cbn [fold_left app].
  - split; [reflexivity|exact Hs].
  - destruct (IH (insert_stable r acc)) as [Hp Hs'];
      [now apply insert_stable_sorted|].
    split; [|exact Hs'].
    rewrite <- Hp. rewrite <- insert_stable_perm.
    now rewrite Permutation_middle.
Qed.

(** *** The insertion sort that puts equal keys in front *)

Lemma insert_front_perm r df : Permutation (r :: df) (insert_front r df).
Proof.
  induction df as [|a df IH]; cbn [insert_front]; [reflexivity|].
  destruct (in_order r a); [reflexivity|].
  rewrite perm_swap. now apply perm_skip.
Qed.

Lemma insert_front_sorted r df :
  sorted_by_pkm df = true -> sorted_by_pkm (insert_front r df) = true.
Proof.
  induction df as [|a df IH]; intros Hs; cbn [insert_front]; [reflexivity|].
  destruct (in_order r a) eqn:Era.
  - apply sorted_by_pkm_cons; [exact Hs|].
    intros b [<-|Hb]; [exact Era|].
    apply in_order_trans with a; [exact Era|].
    now apply (sorted_by_pkm_head a df).
  - apply sorted_by_pkm_cons.
    + apply IH. now apply sorted_by_pkm_tail in Hs.
    + intros b Hb.
      apply (Permutation_in _ (Permutation_sym (insert_front_perm r df))) in Hb.
      destruct Hb as [<-|Hb]; [now apply in_order_total|].
      now apply (sorted_by_pkm_head a df).
Qed.

Lemma sort_front_acc df : forall acc,
  sorted_by_pkm acc = true ->
  let out := fold_left (fun acc r => insert_front r acc) df acc in
  Permutation (df ++ acc) out /\ sorted_by_pkm out = true.
Proof.
  induction df as [|r df IH]; intros acc Hs; cbn [fold_left app].
  - split; [reflexivity|exact Hs].
  - destruct (IH (insert_front r acc)) as [Hp Hs'];
      [now apply insert_front_sorted|].
    split; [|exact Hs'].
    rewrite <- Hp. rewrite <- insert_front_perm.
    now rewrite Permutation_middle.
Qed.

(** [sort_values(..., kind="stable")]. *)
Definition StableSort : SortValues A.
Proof.
  refine {| sort_values := sort_stable |}; intros df; unfold sort_stable.
  - destruct (sort_stable_acc df []) as [Hp _]; [reflexivity|].
    now rewrite app_nil_r in Hp.
  - now destruct (sort_stable_acc df []) as [_ Hs].
Defined.

(** A sort within the contract of [sort_values] that is not stable. *)
Definition FrontSort : SortValues A.
Proof.
  refine {| sort_values := sort_front |}; intros df; unfold sort_front.
  - destruct (sort_front_acc df []) as [Hp _]; [reflexivity|].
    now rewrite app_nil_r in Hp.
  - now destruct (sort_front_acc df []) as [_ Hs].
Defined.

End Sorting.

(* ================================================================= *)
(** ** The vectorised sort *)

Section Network.
Local Open Scope float_scope.
Implicit Types (a b c d : lane).

Lemma ltb_infinity (x : float) : (infinity <? x) = false.
Proof.
  rewrite ltb_spec. unfold SFltb. rewrite SFcompare_rank.
  change (Prim2SF infinity) with (S754_infinity false).
  destruct (Prim2SF x) as [s|[|]| |[|] m e]; reflexivity.
Qed.

Lemma ltb_not_eqb (x y : float) :
  (x <? y) = true -> (x =? y) = false /\ (y =? x) = false.
Proof. intros H. split; revert H; float_order. Qed.

Lemma leb_trans (x y z : float) :
  (x <=? y) = true -> (y <=? z) = true -> (x <=? z) = true.
Proof. apply (@nleb_trans float Binary64 Binary64_laws). Qed.

Lemma eqb_refl_number (x : float) :
  PrimFloat.is_nan x = false -> (x =? x) = true.
Proof. float_order. Qed.

(** The compare-exchange of two lanes: they change places when the key
    of the upper one is the smaller. *)
Definition exchange a b : lane * lane :=
  if fst b <? fst a then (b, a) else (a, b).

Definition number a : Prop := PrimFloat.is_nan (fst a) = false.

Lemma cmp_merge_lower a b :
  number a -> cmp_merge false a b = fst (exchange a b).
Proof.
  unfold number, cmp_merge, exchange. destruct a as [x i], b as [y j].
  cbn [fst snd]. intros Hx.
  destruct (y <? x) eqn:E; cbn [fst].
  - now rewrite (proj1 (ltb_not_eqb _ _ E)).
  - now rewrite (eqb_refl_number _ Hx).
Qed.

Lemma cmp_merge_upper a b :
  number b -> cmp_merge true b a = snd (exchange a b).
Proof.
  unfold number, cmp_merge, exchange. destruct a as [x i], b as [y j].
  cbn [fst snd]. intros Hy.
  destruct (y <? x) eqn:E; cbn [snd].
  - now rewrite (proj2 (ltb_not_eqb _ _ E)).
  - now rewrite (eqb_refl_number _ Hy).
Qed.

Lemma exchange_number a b :
  number a -> number b ->
  number (fst (exchange a b)) /\ number (snd (exchange a b)).
Proof. unfold exchange. destruct (fst b <? fst a); cbn [fst snd]; auto. Qed.

(** On keys that are numbers the register is sorted by six
    compare-exchanges. *)
Definition network (r : lane * lane * lane * lane)
    : lane * lane * lane * lane :=
  let '(a, b, c, d) := r in
  let '(a, b) := exchange a b in
  let '(c, d) := exchange c d in
  let '(a, d) := exchange a d in
  let '(b, c) := exchange b c in
  let '(a, b) := exchange a b in
  let '(c, d) := exchange c d in
  (a, b, c, d).

Lemma sort_reg_network a b c d :
  number a -> number b -> number c -> number d ->
  sort_reg (a, b, c, d) = network (a, b, c, d).
Proof.
  intros Ha Hb Hc Hd. unfold sort_reg, network.
  rewrite (cmp_merge_lower a b Ha), (cmp_merge_upper a b Hb),
    (cmp_merge_lower c d Hc), (cmp_merge_upper c d Hd).
  destruct (exchange_number a b Ha Hb) as [Ha1 Hb1].
  destruct (exchange_number c d Hc Hd) as [Hc1 Hd1].
  destruct (exchange a b) as [a1 b1], (exchange c d) as [c1 d1].
  cbn [fst snd] in *.
  rewrite (cmp_merge_lower a1 d1 Ha1), (cmp_merge_upper a1 d1 Hd1),
    (cmp_merge_lower b1 c1 Hb1), (cmp_merge_upper b1 c1 Hc1).
  destruct (exchange_number a1 d1 Ha1 Hd1) as [Ha2 Hd2].
  destruct (exchange_number b1 c1 Hb1 Hc1) as [Hb2 Hc2].
  destruct (exchange a1 d1) as [a2 d2], (exchange b1 c1) as [b2 c2].
  cbn [fst snd] in *.
  rewrite (cmp_merge_lower a2 b2 Ha2), (cmp_merge_upper a2 b2 Hb2),
    (cmp_merge_lower c2 d2 Hc2), (cmp_merge_upper c2 d2 Hd2).
  destruct (exchange a2 b2), (exchange c2 d2). reflexivity.
Qed.

Ltac perm_solve :=
  cbn [app];
  lazymatch goal with
  | |- Permutation [] [] => constructor
  | |- Permutation (?x :: ?l) (?x :: ?l') => apply perm_skip; perm_solve
  | |- Permutation (?x :: ?l) (?y :: ?x :: ?l') =>
      apply (Permutation_cons_app [y] l' x); perm_solve
  | |- Permutation (?x :: ?l) (?y :: ?z :: ?x :: ?l') =>
      apply (Permutation_cons_app [y; z] l' x); perm_solve
  | |- Permutation (?x :: ?l) (?y :: ?z :: ?w :: ?x :: ?l') =>
      apply (Permutation_cons_app [y; z; w] l' x); perm_solve
  end.

Ltac order_facts :=
  repeat match goal with
    | H : (?x <? ?y) = true |- _ =>
        apply (@nltb_nleb float Binary64 Binary64_laws) in H
    | H : (?x <? ?y) = false, Hx : PrimFloat.is_nan ?x = false,
      Hy : PrimFloat.is_nan ?y = false |- _ =>
        apply (@nltb_total float Binary64 Binary64_laws x y Hx Hy) in H
    end;
  cbn [nleb nltb Binary64] in *.

(* One case for each way the comparisons of the network can turn out. *)
Ltac run_network :=
  unfold network, exchange, lane_max; cbn [fst snd];
  repeat (rewrite ?ltb_infinity; cbv beta iota zeta; cbn [fst snd];
          match goal with
          | |- context [if (?x <? ?y) then _ else _] =>
              destruct (x <? y) eqn:?; try discriminate
          end);
  cbv beta iota zeta; cbn [fst snd length firstn].

Ltac in_order_goal :=
  cbn [sorted_by_pkm]; unfold in_order; cbn [nisnan Binary64 nleb];
  repeat match goal with
    | H : PrimFloat.is_nan ?x = false |- context [PrimFloat.is_nan ?x] =>
        rewrite H
    end;
  cbn [orb andb]; order_facts;
  repeat (apply andb_true_iff; split);
  eauto 4 using leb_trans.

(** Whatever the keys, the indexer the routine returns puts the rows in
    ascending key order and leaves none out. *)
Lemma argsort_simd_sorts (l : list (ProbRow float)) (indexer : list nat) :
  Forall (fun r => PrimFloat.is_nan (pkm r) = false) l ->
  argsort_simd (map pkm l) = Some indexer ->
  Permutation l (take indexer l) /\ sorted_by_pkm (take indexer l) = true.
Proof.
  intros Hn. unfold argsort_simd.
  destruct l as [|r0 [|r1 [|r2 [|r3 [|r4 l]]]]].
  - cbn. intros [= <-]. cbn. split; [constructor|reflexivity].
  - apply Forall_cons_iff in Hn as [H0 _].
    cbn. rewrite H0. cbn. intros [= <-]. cbn. split; reflexivity.
  - apply Forall_cons_iff in Hn as [H0 Hn].
    apply Forall_cons_iff in Hn as [H1 _].
    cbn [map length existsb Nat.ltb Nat.leb orb]. rewrite H0, H1.
    cbn [orb load nth_error].
    rewrite sort_reg_network; try assumption; try reflexivity.
    run_network;
    intros [= <-]; cbn [take flat_map nth_error app];
    (split; [perm_solve|in_order_goal]).
  - apply Forall_cons_iff in Hn as [H0 Hn].
    apply Forall_cons_iff in Hn as [H1 Hn].
    apply Forall_cons_iff in Hn as [H2 _].
    cbn [map length existsb Nat.ltb Nat.leb orb]. rewrite H0, H1, H2.
    cbn [orb load nth_error].
    rewrite sort_reg_network; try assumption; try reflexivity.
    run_network;
    intros [= <-]; cbn [take flat_map nth_error app];
    (split; [perm_solve|in_order_goal]).
  - apply Forall_cons_iff in Hn as [H0 Hn].
    apply Forall_cons_iff in Hn as [H1 Hn].
    apply Forall_cons_iff in Hn as [H2 Hn].
    apply Forall_cons_iff in Hn as [H3 _].
    cbn [map length existsb Nat.ltb Nat.leb orb]. rewrite H0, H1, H2, H3.
    cbn [orb load nth_error].
    rewrite sort_reg_network; try assumption; try reflexivity.
    run_network;
    intros [= <-]; cbn [take flat_map nth_error app];
    (split; [perm_solve|in_order_goal]).
  - cbn. intros [=].
Qed.

Lemma nargsort_split (df : list (ProbRow float)) :
  Permutation df
    (filter (fun r => negb (PrimFloat.is_nan (pkm r))) df ++
     filter (fun r => PrimFloat.is_nan (pkm r)) df).
Proof.
  induction df as [|r df IH]; [constructor|].
  cbn [filter]. destruct (PrimFloat.is_nan (pkm r)); cbn [negb app].
  - now apply Permutation_cons_app.
  - now apply perm_skip.
Qed.

Lemma sorted_by_pkm_nans_last (keyed nans : list (ProbRow float)) :
  sorted_by_pkm keyed = true ->
  Forall (fun r => PrimFloat.is_nan (pkm r) = false) keyed ->
  Forall (fun r => PrimFloat.is_nan (pkm r) = true) nans ->
  sorted_by_pkm (keyed ++ nans) = true.
Proof.
  intros Hs Hk Hn. induction keyed as [|a keyed IH].
  - cbn [app]. clear Hs Hk.
    induction nans as [|a nans IH]; [reflexivity|].
    apply Forall_cons_iff in Hn as [Ha Hn].
    specialize (IH Hn). destruct nans as [|b nans]; [reflexivity|].
    apply Forall_cons_iff in Hn as [Hb _].
    change (in_order a b && sorted_by_pkm (b :: nans) = true).
    rewrite IH, andb_true_r.
    unfold in_order. cbn [nisnan Binary64]. now rewrite Ha.
  - apply Forall_cons_iff in Hk as [Ha Hk].
    pose proof (sorted_by_pkm_tail _ _ Hs) as Hs'.
    specialize (IH Hs' Hk).
    destruct keyed as [|b keyed].
    + cbn [app] in *. destruct nans as [|b nans]; [reflexivity|].
      apply Forall_cons_iff in Hn as [Hb _].
      change (in_order a b && sorted_by_pkm (b :: nans) = true).
      rewrite IH, andb_true_r.
      unfold in_order. cbn [nisnan Binary64]. now rewrite Ha, Hb.
    + change (in_order a b && sorted_by_pkm (b :: keyed) = true) in Hs.
      apply andb_true_iff in Hs as [Hab _].
      change (in_order a b && sorted_by_pkm ((b :: keyed) ++ nans) = true).
      now rewrite Hab, IH.
Qed.

(** [sort_values("pkm")] where NumPy sorts with its vectorised
    routine. *)
Definition SimdSort : SortValues float.
Proof.
  refine {| sort_values := sort_values_simd |}; intros df;
    unfold sort_values_simd;
    set (non_nans := filter (fun r => negb (PrimFloat.is_nan (pkm r))) df);
    set (nans := filter (fun r => PrimFloat.is_nan (pkm r)) df);
    assert (Hk : Forall (fun r => PrimFloat.is_nan (pkm r) = false) non_nans)
      by (apply Forall_forall; intros r Hr; apply filter_In in Hr as [_ Hr];
          now apply negb_true_iff in Hr);
    assert (Hn : Forall (fun r => PrimFloat.is_nan (pkm r) = true) nans)
      by (apply Forall_forall; intros r Hr; now apply filter_In in Hr as [_ Hr]);
    assert (Hsort :
      Permutation non_nans
        match argsort_simd (map pkm non_nans) with
        | Some indexer => take indexer non_nans
        | None => sort_stable non_nans
        end /\
      sorted_by_pkm
        match argsort_simd (map pkm non_nans) with
        | Some indexer => take indexer non_nans
        | None => sort_stable non_nans
        end = true)
      by (destruct (argsort_simd (map pkm non_nans)) as [indexer|] eqn:E;
          [ now apply argsort_simd_sorts
          | unfold sort_stable;
            destruct (@sort_stable_acc float Binary64 Binary64_laws
                        non_nans [] eq_refl) as [Hp Hs];
            rewrite app_nil_r in Hp; split; assumption ]);
    destruct Hsort as [Hp Hs].
  - rewrite (nargsort_split df). now apply Permutation_app_tail.
  - apply sorted_by_pkm_nans_last;
      [exact Hs|exact (Permutation_Forall Hp Hk)|exact Hn].
Defined.

End Network.

(* ================================================================= *)
(** ** Dropping duplicate breakpoints *)

Section Dedup.
Context {A : Type} {N : Num A} {L : NumLaws A}.
Implicit Types (a b c r : ProbRow A) (df : list (ProbRow A)) (k : A).

Lemma same_key_sym (x y : A) : same_key x y = same_key y x.
Proof.
  unfold same_key. rewrite (neqb_nleb x y), (neqb_nleb y x).
  now rewrite (andb_comm (nleb x y)), (andb_comm (nisnan x)).
Qed.

Lemma same_key_trans (x y z : A) :
  same_key x y = true -> same_key y z = true -> same_key x z = true.
Proof.
  unfold same_key. rewrite !orb_true_iff, !andb_true_iff, !neqb_true_nleb.
  intros [[Hxy Hyx]|[Hx Hy]] [[Hyz Hzy]|[Hy' Hz]].
  - left. split; eapply nleb_trans; eauto.
  - apply nleb_not_nan in Hxy as [_ Hy]. congruence.
  - apply nleb_not_nan in Hyz as [Hy' _]. congruence.
  - now right.
Qed.

Lemma same_key_congr (x y z : A) :
  same_key x y = true -> same_key x z = same_key y z.
Proof.
  intros Hxy.
  destruct (same_key x z) eqn:Exz, (same_key y z) eqn:Eyz; auto.
  - rewrite same_key_sym in Hxy.
    rewrite (same_key_trans _ _ _ Hxy Exz) in Eyz. discriminate.
  - rewrite (same_key_trans _ _ _ Hxy Eyz) in Exz. discriminate.
Qed.

Lemma seen_congr (x y : A) (seen : list A) :
  same_key x y = true ->
  existsb (same_key x) seen = existsb (same_key y) seen.
Proof.
  intros Hxy. induction seen as [|s seen IH]; [reflexivity|].
  cbn [existsb]. now rewrite IH, (same_key_congr x y s).
Qed.

(** Under a key already seen nothing is kept; under any other key the
    first row of the frame that carries it. *)
Lemma drop_duplicates_seen_first k df : forall seen,
  first_with k (drop_duplicates_seen seen df) =
  if existsb (same_key k) seen then None else first_with k df.
Proof.
  unfold first_with.
  induction df as [|r df IH]; intros seen; cbn [drop_duplicates_seen find].
  - now destruct (existsb _ seen).
  - destruct (existsb (same_key (pkm r)) seen) eqn:Er.
    + rewrite IH. destruct (existsb (same_key k) seen) eqn:Ek; [reflexivity|].
      destruct (same_key k (pkm r)) eqn:Ekr; [|reflexivity].
      rewrite (seen_congr _ _ seen Ekr) in Ek. congruence.
    + cbn [find]. destruct (same_key k (pkm r)) eqn:Ekr.
      * rewrite (seen_congr _ _ seen Ekr), Er. reflexivity.
      * rewrite IH. cbn [existsb]. rewrite Ekr. reflexivity.
Qed.

Lemma drop_duplicates_seen_count k df : forall seen,
  (length (rows_with k (drop_duplicates_seen seen df)) <=
   if existsb (same_key k) seen then 0 else 1)%nat.
Proof.
  unfold rows_with.
  induction df as [|r df IH]; intros seen; cbn [drop_duplicates_seen filter].
  - destruct (existsb _ seen); cbn; lia.
  - destruct (existsb (same_key (pkm r)) seen) eqn:Er; [apply IH|].
    cbn [filter]. specialize (IH (pkm r :: seen)). cbn [existsb] in IH.
    destruct (same_key k (pkm r)) eqn:Ekr; cbn [orb length] in *.
    + rewrite (seen_congr _ _ seen Ekr), Er. lia.
    + exact IH.
Qed.

Lemma drop_duplicates_seen_incl df : forall seen r,
  In r (drop_duplicates_seen seen df) -> In r df.
Proof.
  induction df as [|a df IH]; intros seen r; cbn [drop_duplicates_seen];
    [auto|].
  destruct (existsb _ seen); [right; eauto|].
  intros [<-|Hin]; [now left|right; eauto].
Qed.

(** [drop_duplicates] keeps, under every key, the first row of the
    frame that carries it, and no other row with that key. *)
Lemma drop_duplicates_first k df :
  first_with k (drop_duplicates df) = first_with k df.
Proof. apply (drop_duplicates_seen_first k df []). Qed.

Lemma drop_duplicates_count k df :
  (length (rows_with k (drop_duplicates df)) <= 1)%nat.
Proof. apply (drop_duplicates_seen_count k df []). Qed.

Lemma drop_duplicates_incl df r : In r (drop_duplicates df) -> In r df.
Proof. apply drop_duplicates_seen_incl. Qed.

(** *** A stable sort keeps the first-defined row in front *)

Lemma in_order_congr a b r :
  same_key (pkm b) (pkm r) = true -> in_order a b = in_order a r.
Proof.
  unfold in_order, same_key.
  rewrite orb_true_iff, andb_true_iff, neqb_true_nleb.
  intros [[Hbr Hrb]|[Hb Hr]].
  - destruct (nleb_not_nan _ _ Hbr) as [Hb Hr]. rewrite Hb, Hr.
    destruct (nisnan (pkm a)); [reflexivity|]. cbn [orb].
    destruct (nleb (pkm a) (pkm b)) eqn:Eab.
    + symmetry. eapply nleb_trans; eauto.
    + destruct (nleb (pkm a) (pkm r)) eqn:Ear; [|reflexivity].
      rewrite (nleb_trans _ _ _ Ear Hrb) in Eab. discriminate.
  - now rewrite Hb, Hr.
Qed.

Lemma insert_stable_first k r df :
  sorted_by_pkm df = true ->
  first_with k (insert_stable r df) =
  match first_with k df with
  | Some x => Some x
  | None => if same_key k (pkm r) then Some r else None
  end.
Proof.
  unfold first_with. set (f := fun r0 => same_key k (pkm r0)).
  induction df as [|a df IH]; intros Hs; cbn [insert_stable];
    [reflexivity|].
  destruct (in_order a r) eqn:Ear.
  - cbn [find]. destruct (f a); [reflexivity|].
    apply IH. now apply sorted_by_pkm_tail in Hs.
  - change (find f (r :: a :: df))
      with (if f r then Some r else find f (a :: df)).
    change (f r) with (same_key k (pkm r)).
    destruct (same_key k (pkm r)) eqn:Ekr; [|now destruct (find f (a :: df))].
    destruct (find f (a :: df)) as [b|] eqn:Ef; [exfalso|reflexivity].
    apply find_some in Ef as [Hb Ekb]. unfold f in Ekb.
    assert (Hbr : same_key (pkm b) (pkm r) = true).
    { apply same_key_trans with k; [now rewrite same_key_sym|exact Ekr]. }
    assert (Hab : in_order a b = true).
    { destruct Hb as [<-|Hb]; [|now apply (sorted_by_pkm_head a df)].
      apply in_order_refl. }
    rewrite (in_order_congr a b r Hbr) in Hab. congruence.
Qed.

Lemma sort_stable_first k df :
  first_with k (sort_stable df) = first_with k df.
Proof.
  unfold sort_stable.
  assert (Hgen : forall acc, sorted_by_pkm acc = true ->
    first_with k (fold_left (fun acc r => insert_stable r acc) df acc) =
    match first_with k acc with
    | Some x => Some x
    | None => first_with k df
    end).
  { induction df as [|r df IH]; intros acc Hs; cbn [fold_left].
    - now destruct (first_with k acc).
    - rewrite IH by now apply insert_stable_sorted.
      rewrite insert_stable_first by exact Hs.
      destruct (first_with k acc); [reflexivity|].
      unfold first_with. cbn [find]. now destruct (same_key k (pkm r)). }
  now rewrite Hgen.
Qed.

End Dedup.

(* ================================================================= *)
(** ** A table with strictly ascending breakpoints sorts to itself *)

Section SortedTable.
Context {A : Type} {N : Num A} {L : NumLaws A}.
Implicit Types (a b : ProbRow A) (df : list (ProbRow A)).

Lemma strictly_ascending_head a df b :
  strictly_ascending (map pkm (a :: df)) = true -> In b df ->
  nltb (pkm a) (pkm b) = true.
Proof.
  intros Hasc Hin.
  destruct (In_nth df b a Hin) as (i & Hi & <-).
  pose proof (strictly_ascending_nth (map pkm (a :: df)) (pkm a) Hasc
                0%nat (S i)) as Hlt.
  cbn [map nth] in Hlt. rewrite (map_nth pkm) in Hlt.
  apply Hlt. cbn [length]. rewrite length_map. lia.
Qed.

Lemma strictly_ascending_tail (x : A) (l : list A) :
  strictly_ascending (x :: l) = true -> strictly_ascending l = true.
Proof.
  destruct l as [|y l]; [reflexivity|].
  cbn [strictly_ascending]. rewrite andb_true_iff. tauto.
Qed.

Lemma sorted_perm_unique df : forall df',
  strictly_ascending (map pkm df) = true ->
  Permutation df df' -> sorted_by_pkm df' = true -> df' = df.
Proof.
  induction df as [|a df IH]; intros df' Hasc Hperm Hs.
  - now apply Permutation_nil in Hperm.
  - destruct df' as [|b df'];
      [apply Permutation_sym, Permutation_nil in Hperm; discriminate|].
    assert (Hab : a = b).
    { assert (Hb : In b (a :: df))
        by (apply (Permutation_in _ (Permutation_sym Hperm)); now left).
      destruct Hb as [Hb|Hb]; [exact Hb|exfalso].
      pose proof (strictly_ascending_head a df b Hasc Hb) as Hlt.
      assert (Ha : In a (b :: df')) by (apply (Permutation_in _ Hperm); now left).
      destruct Ha as [Ha|Ha].
      - subst b. rewrite nltb_irrefl in Hlt. discriminate.
      - pose proof (sorted_by_pkm_head b df' Hs a Ha) as Hord.
        unfold in_order in Hord.
        destruct (nltb_not_nan _ _ Hlt) as [Hna Hnb].
        rewrite Hna, Hnb in Hord. cbn [orb] in Hord.
        rewrite (nltb_not_nleb _ _ Hlt) in Hord. discriminate. }
    subst b. f_equal. apply IH.
    + cbn [map] in Hasc. now apply strictly_ascending_tail in Hasc.
    + now apply Permutation_cons_inv in Hperm.
    + now apply sorted_by_pkm_tail in Hs.
Qed.

(** Whatever the sort does with ties, it leaves such a table as it is. *)
Lemma sort_values_sorted_table {SV : SortValues A} df :
  strictly_ascending (map pkm df) = true -> sort_values df = df.
Proof.
  intros Hasc. apply sorted_perm_unique; auto.
  - apply sort_values_perm.
  - apply sort_values_sorted.
Qed.

End SortedTable.

(* ================================================================= *)
(** ** [idxmax]: the first largest entry *)

Section ArgMax.
Context {A : Type} {N : Num A} {L : NumLaws A}.
Context {NI : NegInf A} {NL : NegInfLaws A}.

Lemma fill_value_not_nan (v : A) : nisnan (fill_value v) = false.
Proof.
  unfold fill_value. destruct (nisnan v) eqn:E; [|exact E].
  apply nneginf_not_nan.
Qed.

Lemma fill_value_number (v : A) : nisnan v = false -> fill_value v = v.
Proof. intros H. unfold fill_value. now rewrite H. Qed.

Lemma fill_nonan (s : list A) : nonan (map fill_value s).
Proof.
  unfold nonan. apply Forall_forall. intros w Hw.
  apply in_map_iff in Hw as (v & <- & _). apply fill_value_not_nan.
Qed.

Lemma argmax_inv_snoc_keep (pre : list A) (mp v : A) (k : nat) :
  argmax_inv pre mp k -> nleb v mp = true ->
  argmax_inv (pre ++ [v]) mp k.
Proof.
  intros (Hk & Hmax & Hfirst) Hle.
  assert (Hlt : (k < length pre)%nat) by (apply nth_error_Some; congruence).
  split; [|split].
  - now rewrite nth_error_app1.
  - intros j w Hj.
    destruct (Nat.lt_ge_cases j (length pre)) as [Hjl|Hjl].
    + rewrite nth_error_app1 in Hj by exact Hjl. eauto.
    + rewrite nth_error_app2 in Hj by exact Hjl.
      destruct (j - length pre)%nat as [|[|n]]; cbn in Hj;
        try discriminate. congruence.
  - intros j w Hjk Hj. rewrite nth_error_app1 in Hj by lia. eauto.
Qed.

Lemma argmax_inv_snoc_take (pre : list A) (mp v : A) (k : nat) :
  argmax_inv pre mp k -> nisnan v = false -> nltb mp v = true ->
  argmax_inv (pre ++ [v]) v (length pre).
Proof.
  intros (Hk & Hmax & Hfirst) Hv Hlt.
  split; [|split].
  - rewrite nth_error_app2, Nat.sub_diag by lia. reflexivity.
  - intros j w Hj.
    destruct (Nat.lt_ge_cases j (length pre)) as [Hjl|Hjl].
    + rewrite nth_error_app1 in Hj by exact Hjl.
      apply nleb_trans with mp; [eauto|now apply nltb_nleb].
    + rewrite nth_error_app2 in Hj by exact Hjl.
      destruct (j - length pre)%nat as [|[|n]]; cbn in Hj;
        try discriminate.
      injection Hj as <-. now apply nleb_refl.
  - intros j w Hjl Hj. rewrite nth_error_app1 in Hj by exact Hjl.
    eapply nleb_nltb_trans; [|exact Hlt]. eauto.
Qed.

(** On an array without NaN the loop ends at the first largest entry. *)
Lemma argmax_loop_inv (s : list A) : forall pre mp k,
  nonan s -> nisnan mp = false -> argmax_inv pre mp k ->
  exists mp',
    argmax_inv (pre ++ s) mp' (argmax_loop (length pre) mp k s).
Proof.
  induction s as [|v s IH]; intros pre mp k Hs Hmp Hinv;
    cbn [argmax_loop].
  - exists mp. now rewrite app_nil_r.
  - inversion Hs as [|? ? Hv Hs']. subst.
    replace (pre ++ v :: s) with ((pre ++ [v]) ++ s)
      by now rewrite <- app_assoc.
    replace (S (length pre)) with (length (pre ++ [v]))
      by (rewrite length_app; cbn; lia).
    destruct (nleb v mp) eqn:Ele; cbn [negb].
    + apply IH; [assumption|assumption|].
      now apply argmax_inv_snoc_keep.
    + rewrite Hv.
      replace (length pre) with (length (pre ++ [v]) - 1)%nat at 2
        by (rewrite length_app; cbn; lia).
      replace (length (pre ++ [v]) - 1)%nat with (length pre)
        by (rewrite length_app; cbn; lia).
      apply IH; [assumption|assumption|].
      apply argmax_inv_snoc_take with mp k; [assumption|assumption|].
      now apply not_nleb_nltb.
Qed.

(** [argmax] on the filled series. *)
Lemma argmax_fill (s : list A) :
  s <> [] ->
  exists k fv,
    argmax (map fill_value s) = Ok k /\
    argmax_inv (map fill_value s) fv k.
Proof.
  destruct s as [|v s]; [congruence|]. intros _.
  cbn [map argmax]. rewrite fill_value_not_nan.
  destruct (argmax_loop_inv (map fill_value s) [fill_value v]
              (fill_value v) 0 (fill_nonan s) (fill_value_not_nan v))
    as (mp' & Hinv).
  - split; [reflexivity|]. split.
    + intros [|[|j]] w Hj; cbn in Hj; try discriminate.
      injection Hj as <-. apply nleb_refl, fill_value_not_nan.
    + intros j w Hj. lia.
  - eexists. exists mp'. split; [reflexivity|exact Hinv].
Qed.

Lemma forallb_nisnan_false (s : list A) :
  (exists w, In w s /\ nisnan w = false) -> forallb nisnan s = false.
Proof.
  intros (w & Hw & Hn).
  destruct (forallb nisnan s) eqn:E; [|reflexivity].
  rewrite forallb_forall in E. rewrite (E w Hw) in Hn. discriminate.
Qed.

(** [idxmax] on a series with a number in it: the first largest entry
    of the filled series. *)
Lemma idxmax_ok (s : list A) :
  (exists w, In w s /\ nisnan w = false) ->
  exists k fv,
    idxmax s = Ok (Some k) /\ argmax_inv (map fill_value s) fv k.
Proof.
  intros Hex.
  assert (Hne : s <> []) by (destruct Hex as (w & Hw & _); now destruct s).
  destruct (argmax_fill s Hne) as (k & fv & Hk & Hinv).
  exists k, fv. unfold idxmax, nanargmax. rewrite Hk. cbn [bind].
  now rewrite (forallb_nisnan_false s Hex).
Qed.

(** What a label returned by [idxmax] says about the series. *)
Lemma idxmax_inv (s : list A) (k : nat) :
  idxmax s = Ok (Some k) ->
  (exists w, In w s /\ nisnan w = false) /\
  exists fv, argmax_inv (map fill_value s) fv k.
Proof.
  unfold idxmax, nanargmax. intros H.
  destruct s as [|v0 s0] eqn:Es; [discriminate|]. rewrite <- Es in *.
  assert (Hne : s <> []) by (rewrite Es; discriminate).
  destruct (argmax_fill s Hne) as (k' & fv & Hk & Hinv).
  rewrite Hk in H. cbn [bind] in H.
  destruct (forallb nisnan s) eqn:E; [discriminate|].
  injection H as <-. split; [|now exists fv].
  clear - E. induction s as [|v s IH]; [discriminate|].
  cbn in E. destruct (nisnan v) eqn:Ev.
  - destruct (IH E) as (w & Hw & Hn). exists w. split; [now right|exact Hn].
  - exists v. split; [now left|exact Ev].
Qed.

(** [idxmax] on a series of NaN: the label is NaN. *)
Lemma idxmax_all_nan (s : list A) :
  s <> [] -> (forall w, In w s -> nisnan w = true) ->
  idxmax s = Ok None.
Proof.
  intros Hne Hall.
  destruct (argmax_fill s Hne) as (k & fv & Hk & _).
  unfold idxmax, nanargmax. rewrite Hk. cbn [bind].
  assert (E : forallb nisnan s = true) by now apply forallb_forall.
  now rewrite E.
Qed.

(** The only series without a label, NaN or not, is the empty one. *)
Lemma idxmax_raise (s : list A) (e : PyExc) :
  idxmax s = Raise e -> s = [] /\ e = ValueError.
Proof.
  intros H. destruct s as [|v s].
  - unfold idxmax, nanargmax in H. cbn in H. now injection H as <-.
  - destruct (argmax_fill (v :: s) ltac:(discriminate)) as (k & fv & Hk & _).
    unfold idxmax, nanargmax in H. rewrite Hk in H. discriminate.
Qed.

Lemma idxmax_none (s : list A) :
  idxmax s = Ok None -> forall w, In w s -> nisnan w = true.
Proof.
  unfold idxmax, nanargmax. intros H.
  destruct (argmax (map fill_value s)); [|discriminate].
  cbn [bind] in H. destruct (forallb nisnan s) eqn:E; [|discriminate].
  now apply forallb_forall.
Qed.


End ArgMax.

(* ================================================================= *)
(** ** The rows of [calcular_resultados] *)

Section Rows.
Context {A : Type} {N : Num A} {SV : SortValues A}.

Lemma map_nth_seq (l : list A) (d : A) :
  map (fun i => nth i l d) (seq 0 (length l)) = l.
Proof.
  apply nth_ext with (d := d) (d' := d).
  - now rewrite length_map, length_seq.
  - intros n Hn. rewrite length_map, length_seq in Hn.
    rewrite (nth_indep _ d (nth 0 l d)) by now rewrite length_map, length_seq.
    rewrite (map_nth (fun i => nth i l d)), seq_nth by exact Hn.
    reflexivity.
Qed.

Lemma nth_map_in (f : A -> A) (l : list A) (i : nat) (d : A) :
  (i < length l)%nat -> nth i (map f l) d = f (nth i l d).
Proof.
  intros Hi. rewrite (nth_indep _ d (f d)) by now rewrite length_map.
  apply map_nth.
Qed.

Lemma nth_of_nth_error (l : list A) (i : nat) (d v : A) :
  nth_error l i = Some v -> nth i l d = v.
Proof. intros Hv. now apply nth_error_nth. Qed.

Lemma sorted_table_nonempty (df : list (ProbRow A)) :
  df <> [] -> drop_duplicates (sort_values df) <> [].
Proof.
  intros Hne. destruct (sort_values df) as [|r t] eqn:Es; [|discriminate].
  pose proof (sort_values_perm df) as Hp. rewrite Es in Hp.
  apply Permutation_sym, Permutation_nil in Hp. congruence.
Qed.

(** On a non-empty table the engine returns one row per grid point,
    in the order of the grid, each filled as [row_ok] says. *)
Theorem calcular_resultados_rows (df_prob : list (ProbRow A))
    (tarifa_grid_liv : list A) (tpda_liv tpda_cam mult_cam dist_km : A) :
  df_prob <> [] ->
  let t := drop_duplicates (sort_values df_prob) in
  exists rows,
    calcular_resultados df_prob tarifa_grid_liv
      tpda_liv tpda_cam mult_cam dist_km = Ok rows /\
    map tarifa_usd_km_livianos rows = tarifa_grid_liv /\
    Forall (row_ok (map pkm t) (map pr_rv t) (map pr_mix t) (map pr_int t)
              tpda_liv tpda_cam mult_cam dist_km) rows.
Proof.
  intros Hne t. unfold calcular_resultados. fold t.
  assert (Hx : map pkm t <> []).
  { pose proof (sorted_table_nonempty df_prob Hne) as Ht. fold t in Ht.
    destruct t; [congruence|discriminate]. }
  set (p_cam := map (fun p => (p * mult_cam)%num) tarifa_grid_liv).
  destruct (interp_clamp_nth (map pkm t) (map pr_rv t) tarifa_grid_liv Hx)
    as (liv_rv & -> & Hl1 & Hn1); [now rewrite !length_map|].
  destruct (interp_clamp_nth (map pkm t) (map pr_mix t) tarifa_grid_liv Hx)
    as (liv_mix & -> & Hl2 & Hn2); [now rewrite !length_map|].
  destruct (interp_clamp_nth (map pkm t) (map pr_int t) tarifa_grid_liv Hx)
    as (liv_int & -> & Hl3 & Hn3); [now rewrite !length_map|].
  destruct (interp_clamp_nth (map pkm t) (map pr_rv t) p_cam Hx)
    as (cam_rv & -> & Hl4 & Hn4); [now rewrite !length_map|].
  destruct (interp_clamp_nth (map pkm t) (map pr_mix t) p_cam Hx)
    as (cam_mix & -> & Hl5 & Hn5); [now rewrite !length_map|].
  destruct (interp_clamp_nth (map pkm t) (map pr_int t) p_cam Hx)
    as (cam_int & -> & Hl6 & Hn6); [now rewrite !length_map|].
  cbn [bind]. eexists. split; [reflexivity|]. split.
  - rewrite map_map. cbn [fila tarifa_usd_km_livianos].
    apply map_nth_seq.
  - apply Forall_forall. intros r Hr.
    apply in_map_iff in Hr as (i & <- & Hi). apply in_seq in Hi.
    assert (Hlc : length p_cam = length tarifa_grid_liv)
      by (unfold p_cam; apply length_map).
    destruct (nth_error tarifa_grid_liv i) as [p|] eqn:Ep;
      [|apply nth_error_None in Ep; lia].
    destruct (nth_error p_cam i) as [pc|] eqn:Epc;
      [|apply nth_error_None in Epc; lia].
    destruct (Hn1 i p Ep) as (j1 & E1). destruct (Hn2 i p Ep) as (j2 & E2).
    destruct (Hn3 i p Ep) as (j3 & E3). destruct (Hn4 i pc Epc) as (j4 & E4).
    destruct (Hn5 i pc Epc) as (j5 & E5). destruct (Hn6 i pc Epc) as (j6 & E6).
    split; cbn [fila tarifa_usd_km_livianos tarifa_usd_km_camiones
                distancia_promedio_km pr_rv_liv pr_mix_liv pr_int_liv
                pr_rv_cam pr_mix_cam pr_int_cam
                Q_rv_liv_veh_dia Q_mix_liv_veh_dia Q_int_liv_veh_dia
                Q_rv_cam_veh_dia Q_mix_cam_veh_dia Q_int_cam_veh_dia
                recaud_liv_usd_dia recaud_cam_usd_dia recaud_total_usd_dia
                recaud_liv_usd_anio recaud_cam_usd_anio
                recaud_total_usd_anio];
      rewrite ?(nth_of_nth_error _ _ _ _ Ep), ?(nth_of_nth_error _ _ _ _ Epc);
      try reflexivity;
      try (eexists; apply nth_of_nth_error; eassumption);
      try (apply nth_map_in; lia).
    unfold p_cam in Epc. rewrite nth_error_map, Ep in Epc.
    now injection Epc as <-.
Qed.

End Rows.

(* ================================================================= *)
(** ** Smallest and largest entry of a column *)

Section MinMax.
Context {A : Type} {N : Num A} {L : NumLaws A}.

Lemma fold_max_ge (l : list A) : forall m,
  nisnan m = false -> nonan l ->
  let r := fold_left (fun m v => if nltb m v then v else m) l m in
  nisnan r = false /\ nleb m r = true /\
  forall v, In v l -> nleb v r = true.
Proof.
  induction l as [|a l IH]; intros m Hm Hl; cbn [fold_left].
  - repeat split; auto using nleb_refl; intros v [].
  - apply Forall_cons_iff in Hl as [Ha Hl].
    destruct (nltb m a) eqn:E.
    + destruct (IH a Ha Hl) as (Hr & Hle & Hall).
      repeat split; auto.
      * apply nleb_trans with a; [now apply nltb_nleb|exact Hle].
      * intros v [<-|Hv]; auto.
    + destruct (IH m Hm Hl) as (Hr & Hle & Hall).
      repeat split; auto.
      intros v [<-|Hv]; auto.
      apply nleb_trans with m; [now apply nltb_total|exact Hle].
Qed.

Lemma fold_min_le (l : list A) : forall m,
  nisnan m = false -> nonan l ->
  let r := fold_left (fun m v => if nltb v m then v else m) l m in
  nisnan r = false /\ nleb r m = true /\
  forall v, In v l -> nleb r v = true.
Proof.
  induction l as [|a l IH]; intros m Hm Hl; cbn [fold_left].
  - repeat split; auto using nleb_refl; intros v [].
  - apply Forall_cons_iff in Hl as [Ha Hl].
    destruct (nltb a m) eqn:E.
    + destruct (IH a Ha Hl) as (Hr & Hle & Hall).
      repeat split; auto.
      * apply nleb_trans with a; [exact Hle|now apply nltb_nleb].
      * intros v [<-|Hv]; auto.
    + destruct (IH m Hm Hl) as (Hr & Hle & Hall).
      repeat split; auto.
      intros v [<-|Hv]; auto.
      apply nleb_trans with m; [exact Hle|now apply nltb_total].
Qed.

Lemma seq_max_ge (l : list A) (v : A) :
  nonan l -> In v l -> nleb v (seq_max l) = true.
Proof.
  intros Hl Hv. unfold seq_max.
  destruct l as [|a l]; [contradiction|]. cbn [hd tl].
  apply Forall_cons_iff in Hl as [Ha Hl].
  destruct (fold_max_ge l a Ha Hl) as (_ & Hle & Hall).
  destruct Hv as [<-|Hv]; auto.
Qed.

Lemma seq_min_le (l : list A) (v : A) :
  nonan l -> In v l -> nleb (seq_min l) v = true.
Proof.
  intros Hl Hv. unfold seq_min.
  destruct l as [|a l]; [contradiction|]. cbn [hd tl].
  apply Forall_cons_iff in Hl as [Ha Hl].
  destruct (fold_min_le l a Ha Hl) as (_ & Hle & Hall).
  destruct Hv as [<-|Hv]; auto.
Qed.

End MinMax.

(* ================================================================= *)
(** ** Interpolation in exact arithmetic stays within the values *)

Section ExactRange.
Local Open Scope Q_scope.

Lemma lerp_between (x0 x1 y0 y1 x lo hi : Q) :
  x0 <= x -> x < x1 -> lo <= y0 <= hi -> lo <= y1 <= hi ->
  lo <= (y1 - y0) / (x1 - x0) * (x - x0) + y0 <= hi.
Proof.
  intros Hx0 Hx1 [Hl0 Hh0] [Hl1 Hh1].
  assert (Hd : 0 < x1 - x0) by lra.
  set (t := (x - x0) / (x1 - x0)).
  assert (Ht0 : 0 <= t) by (unfold t; apply Qle_shift_div_l; lra).
  assert (Ht1 : t <= 1) by (unfold t; apply Qle_shift_div_r; lra).
  assert (E : (y1 - y0) / (x1 - x0) * (x - x0) + y0 == y0 + t * (y1 - y0))
    by (unfold t; field; lra).
  rewrite E. split; nra.
Qed.

Lemma nonan_exact (l : list Q) : nonan l.
Proof. unfold nonan. apply Forall_forall. reflexivity. Qed.

Lemma get_in (l : list Q) (i : Z) :
  (0 <= i < Z.of_nat (length l))%Z -> In (get l i) l.
Proof. intros Hi. unfold get. apply nth_In. lia. Qed.

(** Every value [interp_clamp] can return for a query lies in any
    interval that holds all the values of the table. *)
Lemma interp_at_between (x_grid y_grid : list Q) (j : Z) (x lo hi : Q) :
  x_grid <> [] -> length y_grid = length x_grid ->
  (forall y, In y y_grid -> lo <= y <= hi) ->
  lo <= interp_at x_grid y_grid j x <= hi.
Proof.
  intros Hne Hlen Hall. unfold interp_at.
  assert (Hy : y_grid <> []) by (destruct y_grid, x_grid; cbn in *; congruence).
  assert (Hhd : In (hd (nofZ 0) y_grid) y_grid)
    by (destruct y_grid; [congruence|now left]).
  assert (Hlast : In (last y_grid (nofZ 0)) y_grid).
  { rewrite <- get_last. apply get_in.
    destruct y_grid; [congruence|cbn [length]; lia]. }
  destruct x_grid as [|x0 [|x1 xs]] eqn:Eg; [congruence| |].
  - unfold interp_single.
    destruct (nltb x x0); [auto|]. destruct (ngtb x x0); [auto|].
    apply Hall, get_in. rewrite Hlen. cbn [length]. lia.
  - rewrite <- Eg in *.
    set (len := Z.of_nat (length x_grid)) in *.
    assert (Hlen2 : (2 <= len)%Z) by (unfold len; rewrite Eg; cbn [length]; lia).
    unfold interp_one. cbn [nisnan Exact].
    pose proof (binary_search_with_guess_spec x x_grid len eq_refl
                  (nonan_exact x_grid) eq_refl j ltac:(lia)) as Hs.
    set (r := binary_search_with_guess x x_grid len j) in *.
    destruct (Z.eqb_spec r (-1)) as [|Hr0]; [cbn [fst]; auto|].
    destruct (Z.eqb_spec r len) as [|Hrl]; [cbn [fst]; auto|].
    destruct Hs as [[Hr _]|[[Hr _]|(Hr & Hle & Hnext)]].
    + contradiction.
    + contradiction.
    + assert (Hyr : In (get y_grid r) y_grid)
        by (apply get_in; rewrite Hlen; fold len; lia).
      destruct (Z.eqb_spec r (len - 1)) as [|Hr1]; [cbn [fst]; auto|].
      destruct (neqb (get x_grid r) x); [cbn [fst]; auto|].
      cbn [fst]. destruct Hnext as [|Hnext]; [contradiction|].
      apply lerp_between.
      * now apply Qle_bool_iff.
      * cbn [nltb Exact] in Hnext.
        apply negb_true_iff, Qle_bool_false in Hnext. exact Hnext.
      * auto.
      * apply Hall, get_in. rewrite Hlen. fold len. lia.
Qed.

End ExactRange.

(* ================================================================= *)
(** ** Binary64: zero times a finite number *)

Section Binary64Zero.
Local Open Scope float_scope.

Lemma is_zero_sf (x : float) :
  PrimFloat.is_zero x = true <-> exists s, Prim2SF x = S754_zero s.
Proof.
  unfold PrimFloat.is_zero. rewrite eqb_spec.
  change (Prim2SF zero) with (S754_zero false).
  split.
  - destruct (Prim2SF x) as [s|[|]| |[|] m e]; cbn; try discriminate; eauto.
  - intros [s ->]. reflexivity.
Qed.

Lemma is_finite_sf (x : float) :
  PrimFloat.is_finite x = true ->
  (exists s, Prim2SF x = S754_zero s) \/
  (exists s m e, Prim2SF x = S754_finite s m e).
Proof.
  unfold PrimFloat.is_finite, PrimFloat.is_infinity.
  rewrite negb_true_iff, orb_false_iff, is_nan_sf, eqb_spec, abs_spec.
  change (Prim2SF infinity) with (S754_infinity false).
  destruct (Prim2SF x) as [s|s| |s m e]; cbn; intros [Hn Hi];
    try discriminate; eauto.
Qed.

Lemma mul_zero_finite (a b : float) :
  PrimFloat.is_zero a = true -> PrimFloat.is_finite b = true ->
  PrimFloat.is_zero (a * b) = true.
Proof.
  intros Ha Hb. apply is_zero_sf in Ha as [s Ha].
  apply is_zero_sf. rewrite mul_spec, Ha. unfold SF64mul.
  destruct (is_finite_sf b Hb) as [[sb ->]|(sb & m & e & ->)];
    cbn; eauto.
Qed.

Lemma add_zero_zero (a b : float) :
  PrimFloat.is_zero a = true -> PrimFloat.is_zero b = true ->
  PrimFloat.is_zero (a + b) = true.
Proof.
  intros Ha Hb. apply is_zero_sf in Ha as [sa Ha], Hb as [sb Hb].
  apply is_zero_sf. rewrite add_spec, Ha, Hb. unfold SF64add.
  destruct sa, sb; cbn; eauto.
Qed.

(** Zero added to a number gives a float equal to that number. *)
Lemma add_zero_l (a b : float) :
  PrimFloat.is_zero a = true -> PrimFloat.is_nan b = false ->
  (a + b =? b) = true.
Proof.
  intros Ha Hb. apply is_zero_sf in Ha as [s Ha].
  rewrite is_nan_sf in Hb.
  destruct (Prim2SF b) as [sb|sb| |sb m e] eqn:Eb; try discriminate.
  - rewrite eqb_spec, add_spec, Ha, Eb. unfold SF64add.
    destruct s, sb; reflexivity.
  - assert (E : a + b = b).
    { apply Prim2SF_inj. rewrite add_spec, Ha, Eb. reflexivity. }
    rewrite E. apply (neqb_refl (L := Binary64_laws)). simpl.
    rewrite is_nan_sf, Eb. reflexivity.
  - assert (E : a + b = b).
    { apply Prim2SF_inj. rewrite add_spec, Ha, Eb. reflexivity. }
    rewrite E. apply (neqb_refl (L := Binary64_laws)). simpl.
    rewrite is_nan_sf, Eb. reflexivity.
Qed.

End Binary64Zero.

(* ================================================================= *)
(** ** Binary64: a segment between two equal values *)

Section Binary64Flat.
Local Open Scope float_scope.

(** Equal floats: two zeros, or one and the same number. *)
Lemma sf_eqb_cases (x y : spec_float) :
  SFeqb x y = true ->
  (exists s s', x = S754_zero s /\ y = S754_zero s') \/
  (exists s, x = S754_infinity s /\ y = x) \/
  (exists s m e, x = S754_finite s m e /\ y = x).
Proof.
  unfold SFeqb. rewrite SFcompare_rank.
  destruct x as [s|s| |s m e]; intros H.
  - left. destruct y as [s'|s'| |s' m' e']; try discriminate.
    + eauto.
    + destruct s'; discriminate.
    + destruct s'; discriminate.
  - right; left. exists s. split; [reflexivity|].
    destruct y as [s'|s'| |s' m' e']; try (destruct s; discriminate);
      try (destruct s, s'; discriminate).
    destruct s, s'; try discriminate; reflexivity.
  - discriminate.
  - right; right. exists s, m, e. split; [reflexivity|].
    destruct y as [s'|s'| |s' m' e']; try (destruct s; discriminate);
      try (destruct s, s'; discriminate).
    cbn [sf_is_nan orb sf_rank] in H.
    destruct s, s';
      match type of H with
      | context [lex3 (?a1, ?b1, ?c1) (?a2, ?b2, ?c2)] =>
          generalize (lex3_spec a1 b1 c1 a2 b2 c2);
          destruct (lex3 (a1, b1, c1) (a2, b2, c2))
      end; try discriminate; intros (E1 & E2 & E3); try lia.
    + assert (e' = e) by lia. subst. congruence.
    + subst. congruence.
Qed.

(** A float that is zero or NaN. *)
Definition zero_or_nan (x : float) : Prop :=
  PrimFloat.is_zero x = true \/ PrimFloat.is_nan x = true.

Lemma sub_eq_zero_or_nan (a b : float) :
  (a =? b) = true -> zero_or_nan (b - a).
Proof.
  intros H. rewrite eqb_spec in H. unfold zero_or_nan.
  rewrite is_zero_sf, is_nan_sf, sub_spec. unfold SF64sub.
  destruct (sf_eqb_cases _ _ H)
    as [(s & s' & -> & ->)|[(s & Ea & ->)|(s & m & e & Ea & ->)]].
  - left. destruct s, s'; cbn; eauto.
  - right. rewrite Ea. destruct s; reflexivity.
  - left. rewrite Ea. cbn [SFsub]. rewrite Z.sub_diag. cbn. eauto.
Qed.

Lemma div_zero_or_nan (z d : float) : zero_or_nan z -> zero_or_nan (z / d).
Proof.
  unfold zero_or_nan. rewrite !is_zero_sf, !is_nan_sf, div_spec.
  unfold SF64div.
  intros [[s ->]|H].
  - destruct (Prim2SF d); cbn; eauto.
  - destruct (Prim2SF z); try discriminate. now right.
Qed.

Lemma mul_zero_or_nan (z u : float) : zero_or_nan z -> zero_or_nan (z * u).
Proof.
  unfold zero_or_nan. rewrite !is_zero_sf, !is_nan_sf, mul_spec.
  unfold SF64mul.
  intros [[s ->]|H].
  - destruct (Prim2SF u); cbn; eauto.
  - destruct (Prim2SF z); try discriminate. now right.
Qed.

(** Zero or NaN added to a number: that number, or NaN. *)
Lemma add_zero_or_nan (t y : float) :
  zero_or_nan t -> PrimFloat.is_nan y = false ->
  (PrimFloat.is_nan (t + y) = false /\ (t + y =? y) = true) \/
  PrimFloat.is_nan (t + y) = true.
Proof.
  intros [Hz|Hn] Hy.
  - left. pose proof (add_zero_l t y Hz Hy) as E. split; [|assumption].
    now destruct (@nleb_not_nan float Binary64 Binary64_laws _ _
                    (proj1 (proj1 (neqb_true_nleb (L := Binary64_laws)
                                     _ _) E))).
  - right. revert Hn. rewrite !is_nan_sf, add_spec. unfold SF64add.
    destruct (Prim2SF t); try discriminate. reflexivity.
Qed.

Lemma eqb_sym_trans (a b c : float) :
  (a =? b) = true -> (c =? b) = true -> (c =? a) = true.
Proof.
  intros H1 H2.
  apply (neqb_true_nleb (L := Binary64_laws)) in H1, H2.
  apply (neqb_true_nleb (L := Binary64_laws)).
  destruct H1, H2.
  split; eapply (@nleb_trans float Binary64 Binary64_laws); eassumption.
Qed.

(** On a segment whose two values are equal, what [np.interp] computes
    equals that value. *)
Lemma on_segment_flat (x_grid y_grid : list float) (i : Z) (q : float) :
  (get y_grid i =? get y_grid (i + 1)) = true ->
  (on_segment x_grid y_grid i q =? get y_grid i) = true.
Proof.
  intros He.
  assert (Hy : PrimFloat.is_nan (get y_grid i) = false /\
               PrimFloat.is_nan (get y_grid (i + 1)) = false).
  { apply (neqb_true_nleb (L := Binary64_laws)) in He.
    exact (@nleb_not_nan float Binary64 Binary64_laws _ _ (proj1 He)). }
  destruct Hy as [Hy0 Hy1].
  assert (Hrefl : (get y_grid i =? get y_grid i) = true)
    by (apply (neqb_refl (L := Binary64_laws)); exact Hy0).
  unfold on_segment. cbn [nadd nsub nmul ndiv neqb nisnan Binary64].
  destruct (get x_grid i =? q); [exact Hrefl|].
  cbv zeta.
  set (slope := (get y_grid (i + 1) - get y_grid i) /
                (get x_grid (i + 1) - get x_grid i)).
  assert (Hs : zero_or_nan slope)
    by (apply div_zero_or_nan, sub_eq_zero_or_nan; exact He).
  destruct (add_zero_or_nan (slope * (q - get x_grid i)) (get y_grid i)
              (mul_zero_or_nan _ _ Hs) Hy0) as [[Hn1 E1]|Hn1];
    rewrite Hn1; [exact E1|].
  destruct (add_zero_or_nan (slope * (q - get x_grid (i + 1)))
              (get y_grid (i + 1)) (mul_zero_or_nan _ _ Hs) Hy1)
    as [[Hn2 E2]|Hn2]; rewrite Hn2; cbn [andb].
  - now apply (eqb_sym_trans _ _ _ He).
  - rewrite He. exact Hrefl.
Qed.

End Binary64Flat.

(* ================================================================= *)
(** ** Where an interpolated value can leave the range of the table *)

Section Located.
Context {A : Type} {N : Num A} {L : NumLaws A}.

Lemma get_In (l : list A) (i : Z) :
  0 <= i < Z.of_nat (length l) -> In (get l i) l.
Proof. intros Hi. unfold get. apply nth_In. lia. Qed.

(** Every value [interp_clamp] can return for a query that is a number:
    one of the values of the table, or what the slope formula gives
    strictly inside a segment. *)
Lemma interp_at_value_or_segment (x_grid y_grid : list A) (j : Z) (x : A) :
  x_grid <> [] -> length y_grid = length x_grid ->
  nonan x_grid -> nisnan x = false ->
  In (interp_at x_grid y_grid j x) y_grid \/
  exists i,
    0 <= i /\ i + 1 < Z.of_nat (length x_grid) /\
    nltb (get x_grid i) x = true /\
    nltb x (get x_grid (i + 1)) = true /\
    interp_at x_grid y_grid j x = on_segment x_grid y_grid i x.
Proof.
  intros Hne Hlen Hn Hx. unfold interp_at.
  assert (Hy : y_grid <> []) by (destruct y_grid, x_grid; cbn in *; congruence).
  assert (Hhd : In (hd (nofZ 0) y_grid) y_grid)
    by (destruct y_grid; [congruence|now left]).
  assert (Hlast : In (last y_grid (nofZ 0)) y_grid).
  { rewrite <- get_last. apply get_In.
    destruct y_grid; [congruence|cbn [length]; lia]. }
  destruct x_grid as [|x0 [|x1 xs]] eqn:Eg; [congruence| |].
  - left. unfold interp_single.
    destruct (nltb x x0); [auto|]. destruct (ngtb x x0); [auto|].
    apply get_In. rewrite Hlen. cbn [length]. lia.
  - rewrite <- Eg in *.
    set (len := Z.of_nat (length x_grid)) in *.
    assert (Hlen2 : 2 <= len) by (unfold len; rewrite Eg; cbn [length]; lia).
    unfold interp_one. rewrite Hx.
    pose proof (binary_search_with_guess_spec x x_grid len eq_refl
                  Hn Hx j ltac:(lia)) as Hs.
    set (r := binary_search_with_guess x x_grid len j) in *.
    destruct (Z.eqb_spec r (-1)) as [|Hr0]; [cbn [fst]; auto|].
    destruct (Z.eqb_spec r len) as [|Hrl]; [cbn [fst]; auto|].
    destruct Hs as [[Hr _]|[[Hr _]|(Hr & Hle & Hnext)]];
      [contradiction|contradiction|].
    assert (Hyr : In (get y_grid r) y_grid)
      by (apply get_In; rewrite Hlen; fold len; lia).
    destruct (Z.eqb_spec r (len - 1)) as [|Hr1]; [cbn [fst]; auto|].
    destruct (neqb (get x_grid r) x) eqn:Eq; [cbn [fst]; auto|].
    destruct Hnext as [|Hnext]; [contradiction|].
    right. exists r. split; [lia|]. split; [lia|]. split; [|split].
    + destruct (nleb_not_nan _ _ Hle) as [Hr' _].
      apply not_nleb_nltb; auto.
      rewrite neqb_nleb, Hle in Eq. exact Eq.
    + exact Hnext.
    + unfold on_segment. rewrite Eq. cbv zeta.
      repeat match goal with
        | |- context [if ?c then _ else _] => destruct c
        end; reflexivity.
Qed.

End Located.

Section Binary64Range.
Local Open Scope float_scope.

Lemma en_rango_In (col : list float) (y : float) :
  nonan col -> In y col -> en_rango col y.
Proof.
  intros Hn Hy. split.
  - now apply (@seq_min_le float Binary64 Binary64_laws).
  - now apply (@seq_max_ge float Binary64 Binary64_laws).
Qed.

Lemma en_rango_eqb (col : list float) (y z : float) :
  (z =? y) = true -> en_rango col y -> en_rango col z.
Proof.
  intros E [Hlo Hhi].
  apply (neqb_true_nleb (L := Binary64_laws)) in E as [Hzy Hyz].
  split; eapply (@nleb_trans float Binary64 Binary64_laws); eassumption.
Qed.

(** What [interp_clamp] returns for a query that is a number lies in
    the range of any column that holds the values of the table, unless
    the query lies strictly inside a segment whose two values differ. *)
Lemma interp_at_en_rango (x_grid y_grid col : list float) (j : Z)
    (x : float) :
  x_grid <> [] -> length y_grid = length x_grid ->
  nonan x_grid -> nonan col ->
  (forall y, In y y_grid -> In y col) ->
  PrimFloat.is_nan x = false ->
  en_rango col (interp_at x_grid y_grid j x) \/
  en_pendiente x_grid y_grid x (interp_at x_grid y_grid j x).
Proof.
  intros Hne Hlen Hn Hc Hsub Hx.
  destruct (@interp_at_value_or_segment float Binary64 Binary64_laws
              x_grid y_grid j x Hne Hlen Hn Hx)
    as [Hin|(i & Hi & Hi1 & Hlo & Hhi & E)].
  - left. apply en_rango_In; auto.
  - destruct (get y_grid i =? get y_grid (i + 1)) eqn:Ey.
    + left. rewrite E.
      apply (en_rango_eqb col (get y_grid i)).
      * now apply on_segment_flat.
      * apply en_rango_In; [assumption|].
        apply Hsub, get_In. rewrite Hlen. lia.
    + right. exists i. repeat (split; [assumption|]). exact E.
Qed.

End Binary64Range.

(* ================================================================= *)
(** * The claims *)

(* ================================================================= *)
(** ** Clamp and exactness at the sample points (binary64) *)

(** C2. For a non-empty ascending domain with as many values, every
    query strictly below the first domain point is answered with exactly
    the first value, and every query strictly above the last domain
    point with exactly the last value: [interp_clamp] clamps and never
    extrapolates. *)
Theorem interp_clamp_clamps (domain values xq : list float) :
  domain <> [] -> length values = length domain ->
  ascending domain = true ->
  exists ys,
    interp_clamp domain values xq = Ok ys /\
    length ys = length xq /\
    forall k q, nth_error xq k = Some q ->
      ((q <? hd 0 domain)%float = true ->
       nth_error ys k = Some (hd 0%float values)) /\
      ((last domain 0 <? q)%float = true ->
       nth_error ys k = Some (last values 0%float)).
Proof.
  intros Hne Hlen Hasc.
  destruct (interp_clamp_nth domain values xq Hne Hlen) as (ys & Hys & Hl & Hn).
  exists ys. split; [exact Hys|]. split; [exact Hl|].
  intros k q Hk. destruct (Hn k q Hk) as (j & ->). split; intros Hq.
  - f_equal. now apply (@interp_at_below float Binary64 Binary64_laws).
  - f_equal. now apply (@interp_at_above float Binary64 Binary64_laws).
Qed.

Lemma interp_clamp_clamps_witness :
  exists ys,
    interp_clamp [0.0; 0.5; 0.8]%float [0.46; 0.02; 0.00]%float
      [-0.1; 0.9]%float = Ok ys /\
    length ys = 2%nat /\
    forall k q, nth_error [-0.1; 0.9]%float k = Some q ->
      ((q <? 0.0)%float = true -> nth_error ys k = Some 0.46%float) /\
      ((0.8 <? q)%float = true -> nth_error ys k = Some 0.00%float).
Proof.
  apply (interp_clamp_clamps [0.0; 0.5; 0.8]%float [0.46; 0.02; 0.00]%float
           [-0.1; 0.9]%float).
  - discriminate.
  - reflexivity.
  - reflexivity.
Defined.

(** C3. For a non-empty strictly ascending domain with as many values
    and every index [i], interpolating at the single query [d[i]]
    returns exactly [values[i]]. *)
Theorem interp_clamp_exact_at_knots (domain values : list float) (i : nat) :
  length values = length domain ->
  strictly_ascending domain = true ->
  (i < length domain)%nat ->
  interp_clamp domain values [nth i domain 0%float] =
  Ok [nth i values 0%float].
Proof.
  intros Hlen Hasc Hi.
  assert (Hne : domain <> []) by (destruct domain; [cbn in Hi; lia|discriminate]).
  destruct (interp_clamp_nth domain values [nth i domain 0%float] Hne Hlen)
    as (ys & Hys & Hl & Hn).
  destruct (Hn 0%nat _ eq_refl) as (j & Hj).
  rewrite Hys. f_equal.
  destruct ys as [|y [|y' ys]]; try discriminate.
  cbn [nth_error] in Hj. injection Hj as ->. f_equal.
  assert (Hk : interp_at domain values j (get domain (Z.of_nat i)) =
               get values (Z.of_nat i))
    by (apply (@interp_at_knot float Binary64 Binary64_laws); auto; lia).
  unfold get in Hk. rewrite Nat2Z.id in Hk. exact Hk.
Qed.

Lemma interp_clamp_exact_at_knots_witness :
  interp_clamp [0.0; 0.5; 0.8]%float [0.46; 0.02; 0.00]%float [0.5%float] =
  Ok [0.02%float].
Proof.
  apply (interp_clamp_exact_at_knots
           [0.0; 0.5; 0.8]%float [0.46; 0.02; 0.00]%float 1).
  - reflexivity.
  - reflexivity.
  - cbn [length]. lia.
Defined.

(* ================================================================= *)
(** ** One row per grid point *)

(** C4. On the (non-empty) probability table, for every tariff grid of
    [n] points, [n >= 0], the engine returns exactly [n] rows, row [i]
    carrying grid value [i] as its light tariff; so the rows are in
    ascending tariff order whenever the grid is, and an empty grid
    yields an empty result, not an error. *)
Theorem calcular_resultados_grid (SV : SortValues float)
    (df_prob : list (ProbRow float)) (tarifa_grid_liv : list float)
    (tpda_liv tpda_cam mult_cam dist_km : float) :
  df_prob <> [] ->
  exists rows,
    calcular_resultados df_prob tarifa_grid_liv
      tpda_liv tpda_cam mult_cam dist_km = Ok rows /\
    length rows = length tarifa_grid_liv /\
    map tarifa_usd_km_livianos rows = tarifa_grid_liv /\
    (ascending tarifa_grid_liv = true ->
     ascending (map tarifa_usd_km_livianos rows) = true) /\
    (tarifa_grid_liv = [] -> rows = []).
Proof.
  intros Hne.
  destruct (calcular_resultados_rows df_prob tarifa_grid_liv
              tpda_liv tpda_cam mult_cam dist_km Hne) as (rows & Hok & Hmap & _).
  exists rows. split; [exact Hok|].
  assert (Hlen : length rows = length tarifa_grid_liv)
    by (rewrite <- Hmap; now rewrite length_map).
  repeat split; auto.
  - now rewrite Hmap.
  - intros ->. now destruct rows.
Qed.

Lemma calcular_resultados_grid_witness :
  exists rows,
    calcular_resultados (SV := StableSort) tabla_probabilidades_base
      grid_ejemplo tpda_liv_base tpda_cam_base mult_cam_base dist_km_base =
    Ok rows /\
    length rows = 3%nat /\
    map tarifa_usd_km_livianos rows = grid_ejemplo /\
    (ascending grid_ejemplo = true ->
     ascending (map tarifa_usd_km_livianos rows) = true) /\
    (grid_ejemplo = [] -> rows = []).
Proof.
  apply (calcular_resultados_grid StableSort tabla_probabilidades_base
           grid_ejemplo tpda_liv_base tpda_cam_base mult_cam_base dist_km_base).
  discriminate.
Defined.

(* ================================================================= *)
(** ** The revenue-maximising tariff *)

Section Finder.
Context {A : Type} {N : Num A} {L : NumLaws A}.
Context {NI : NegInf A} {NL : NegInfLaws A}.


Lemma kpis_at (rows : list (ResultRow A)) (k : nat) (r : ResultRow A) :
  idx_max rows = Ok k -> nth_error rows k = Some r ->
  kpis rows = Ok (tarifa_usd_km_livianos r, recaud_total_usd_dia r,
                  recaud_total_usd_anio r).
Proof.
  intros Hk Hr. unfold kpis, loc. rewrite Hk. cbn [bind].
  now rewrite Hr.
Qed.

(** The finder on a result table that has a number in its
    total-revenue column: it returns a row of the table. *)
Lemma idx_max_ok (rows : list (ResultRow A)) :
  (exists r, In r rows /\ nisnan (recaud_total_usd_dia r) = false) ->
  exists k r, idx_max rows = Ok k /\ nth_error rows k = Some r.
Proof.
  intros (r0 & Hin & Hr0).
  destruct (idxmax_ok (map recaud_total_usd_dia rows))
    as (k & fv & Hk & Hfk & _).
  { exists (recaud_total_usd_dia r0). split; [now apply in_map|exact Hr0]. }
  rewrite !nth_error_map in Hfk.
  destruct (nth_error rows k) as [r|] eqn:Er; [|discriminate].
  exists k, r. unfold idx_max. rewrite Hk. cbn [bind int_of_label]. auto.
Qed.


End Finder.




(** The example table without traffic: every tariff collects nothing. *)
Definition resultados_sin_trafico : list (ResultRow float) :=
  match calcular_resultados (SV := StableSort) tabla_ejemplo grid_ejemplo
          0%float 0%float mult_cam_base dist_km_base with
  | Ok rows => rows
  | Raise _ => []
  end.


(** C6, as the code has it. On the empty result table the finder fails:
    pandas raises [ValueError] (the empty-input error of the
    specification).  On a table whose total-revenue column holds at
    least one number it succeeds and points at a row of the table.  On
    a non-empty table whose total revenue is NaN in every row it fails
    as well, in [int(nan)]. *)
Theorem idx_max_failure (rows : list (ResultRow float)) :
  idx_max ([] : list (ResultRow float)) = Raise ValueError /\
  ((exists r, In r rows /\ PrimFloat.is_nan (recaud_total_usd_dia r) = false) ->
   exists k r, idx_max rows = Ok k /\ nth_error rows k = Some r) /\
  (rows <> [] ->
   (forall r, In r rows -> PrimFloat.is_nan (recaud_total_usd_dia r) = true) ->
   idx_max rows = Raise ValueError).
Proof.
  split; [reflexivity|]. split.
  - intros Hex.
    destruct (@idx_max_ok float Binary64 Binary64_laws Binary64_neginf
                Binary64_neginf_laws rows Hex)
      as (k & r & Hk & Hr).
    eauto.
  - intros Hne Hall. unfold idx_max.
    rewrite (@idxmax_all_nan float Binary64 Binary64_laws Binary64_neginf
               Binary64_neginf_laws); [reflexivity| |].
    + destruct rows; [congruence|discriminate].
    + intros w Hw. apply in_map_iff in Hw as (r & <- & Hr). now apply Hall.
Qed.

(** A tariff so high that tariff times distance overflows: with the base
    table and the base scenario the single row has NaN revenue. *)
Definition resultados_tarifa_enorme : list (ResultRow float) :=
  match calcular_resultados (SV := StableSort) tabla_probabilidades_base
          [1e308%float] tpda_liv_base tpda_cam_base mult_cam_base
          dist_km_base with
  | Ok rows => rows
  | Raise _ => []
  end.

Lemma idx_max_failure_witness :
  idx_max ([] : list (ResultRow float)) = Raise ValueError /\
  (exists k r, idx_max resultados_sin_trafico = Ok k /\
               nth_error resultados_sin_trafico k = Some r) /\
  idx_max resultados_tarifa_enorme = Raise ValueError.
Proof.
  split; [exact (proj1 (idx_max_failure []))|]. split.
  - apply (proj1 (proj2 (idx_max_failure resultados_sin_trafico))).
    exists (nth 0 resultados_sin_trafico
              (mkResultRow 0 0 0 0 0 0 0 0 0 0 0 0 0 0 0 0 0 0 0 0 0)%float).
    split; [left; reflexivity|reflexivity].
  - apply (proj2 (proj2 (idx_max_failure resultados_tarifa_enorme))).
    + discriminate.
    + intros r [<-|[]]. reflexivity.
Defined.

(** C6, counterexample: a non-empty result table, computed by the engine
    from the base table, on which the finder fails. *)
Lemma idx_max_fails_on_nan :
  length resultados_tarifa_enorme = 1%nat /\
  map recaud_total_usd_dia resultados_tarifa_enorme = [nan] /\
  idx_max resultados_tarifa_enorme = Raise ValueError.
Proof. vm_compute. repeat split; reflexivity. Qed.

(* ================================================================= *)
(** ** Duplicate breakpoints *)

(** C7, counterexample: a table of four rows that defines the breakpoint
    0.5 twice, ahead of the breakpoints 0.0 and 0.2.  NumPy's vectorised
    [argsort] returns the indexer [2, 3, 1, 0], which reads the row
    defined second before the row defined first: the table the engine
    uses keeps the row defined second and drops the one defined first,
    and at the tariff 0.5 the engine returns the probability of that
    second row.  (On the two-row table [tabla_duplicada] the same
    routine leaves the rows as they are.) *)
Lemma drop_duplicates_not_first_seen :
  first_with 0.5%float tabla_desordenada =
    Some (mkProbRow 0.5 0.02 0.67 0.31)%float /\
  argsort_simd (map pkm tabla_desordenada) = Some [2; 3; 1; 0]%nat /\
  argsort_simd (map pkm tabla_duplicada) = Some [0; 1]%nat /\
  drop_duplicates (sort_values (SortValues := SimdSort) tabla_desordenada) =
    [ mkProbRow 0.0 0.46 0.25 0.28; mkProbRow 0.2 0.19 0.51 0.30;
      mkProbRow 0.5 0.10 0.60 0.30 ]%float /\
  exists r,
    calcular_resultados (SV := SimdSort) tabla_desordenada [0.5%float]
      tpda_liv_base tpda_cam_base mult_cam_base dist_km_base = Ok [r] /\
    pr_rv_liv r = 0.10%float.
Proof.
  split; [reflexivity|]. split; [reflexivity|]. split; [reflexivity|].
  split; [vm_compute; reflexivity|].
  eexists. split; [vm_compute; reflexivity|reflexivity].
Qed.

(** C7, as the code has it. Under every breakpoint [k] the table the
    engine uses keeps the first row that carries [k] after
    [sort_values], and no other row with that breakpoint: exactly one
    row when the breakpoint occurs in the input, and always a row of the
    input.  Which of several rows with one breakpoint comes first after
    the sort is not fixed by [sort_values]; under a stable sort it is
    the first in the order of definition. *)
Theorem drop_duplicates_keeps_first_sorted (SV : SortValues float)
    (df_prob : list (ProbRow float)) (k : float) :
  let used := drop_duplicates (sort_values df_prob) in
  first_with k used = first_with k (sort_values df_prob) /\
  (length (rows_with k used) <= 1)%nat /\
  (first_with k df_prob <> None -> length (rows_with k used) = 1%nat) /\
  (forall r, In r used -> In r df_prob) /\
  first_with k
    (drop_duplicates (sort_values (SortValues := StableSort) df_prob)) =
  first_with k df_prob.
Proof.
  intros used.
  assert (Hfirst : first_with k used = first_with k (sort_values df_prob))
    by apply (@drop_duplicates_first float Binary64 Binary64_laws).
  assert (Hcount : (length (rows_with k used) <= 1)%nat)
    by apply (@drop_duplicates_count float Binary64 Binary64_laws).
  split; [exact Hfirst|]. split; [exact Hcount|]. split; [|split].
  - intros Hk.
    destruct (first_with k df_prob) as [r|] eqn:Er; [|congruence].
    apply find_some in Er as [Hin Hkey].
    apply (Permutation_in _ (sort_values_perm df_prob)) in Hin.
    destruct (first_with k (sort_values df_prob)) as [r'|] eqn:Er'.
    + unfold first_with in Hfirst. apply find_some in Hfirst as [Hin' Hkey'].
      assert (Hr' : In r' (rows_with k used))
        by (apply filter_In; split; assumption).
      destruct (rows_with k used); [contradiction|cbn [length] in *; lia].
    + apply (find_none _ _ Er') in Hin. cbn beta in Hin. congruence.
  - intros r Hr. apply drop_duplicates_incl in Hr.
    now apply (Permutation_in _ (Permutation_sym (sort_values_perm df_prob))).
  - rewrite (@drop_duplicates_first float Binary64 Binary64_laws).
    apply (@sort_stable_first float Binary64 Binary64_laws).
Qed.

Lemma drop_duplicates_keeps_first_sorted_witness :
  first_with 0.5%float
    (drop_duplicates
       (sort_values (SortValues := SimdSort) tabla_desordenada)) =
  first_with 0.5%float
    (sort_values (SortValues := SimdSort) tabla_desordenada) /\
  length (rows_with 0.5%float
            (drop_duplicates
               (sort_values (SortValues := SimdSort) tabla_desordenada))) =
  1%nat /\
  first_with 0.5%float
    (drop_duplicates
       (sort_values (SortValues := StableSort) tabla_desordenada)) =
  hd_error tabla_desordenada.
Proof.
  destruct (drop_duplicates_keeps_first_sorted SimdSort tabla_desordenada
              0.5%float) as (Hfirst & _ & Hone & _ & Hstable).
  split; [exact Hfirst|]. split.
  - apply Hone. discriminate.
  - rewrite Hstable. reflexivity.
Defined.

(* ================================================================= *)
(** ** Reading a returned result table *)

Section Returned.
Context {A : Type} {N : Num A} {SV : SortValues A}.

Lemma calcular_resultados_empty_table (grid : list A) (tl tc m d : A) :
  calcular_resultados [] grid tl tc m d = Raise IndexError.
Proof.
  unfold calcular_resultados.
  assert (Hs : sort_values ([] : list (ProbRow A)) = [])
    by (apply Permutation_nil, sort_values_perm).
  rewrite Hs. reflexivity.
Qed.

(** Every row of a table the engine returned is filled as [row_ok]
    says. *)
Lemma calcular_resultados_inv (df_prob : list (ProbRow A))
    (grid : list A) (tl tc m d : A) (rows : list (ResultRow A)) :
  calcular_resultados df_prob grid tl tc m d = Ok rows ->
  let t := drop_duplicates (sort_values df_prob) in
  df_prob <> [] /\
  map tarifa_usd_km_livianos rows = grid /\
  Forall (row_ok (map pkm t) (map pr_rv t) (map pr_mix t) (map pr_int t)
            tl tc m d) rows.
Proof.
  intros Hok t.
  assert (Hne : df_prob <> []).
  { intros ->. rewrite calcular_resultados_empty_table in Hok. discriminate. }
  destruct (calcular_resultados_rows df_prob grid tl tc m d Hne)
    as (rows' & Hok' & Hmap & Hall).
  rewrite Hok in Hok'. injection Hok' as <-. auto.
Qed.

End Returned.

(* ================================================================= *)
(** ** No traffic, no revenue *)

Lemma row_ok_columnas_cero x rv mix int tl tc m d (r : ResultRow float) :
  PrimFloat.is_zero tl = true -> PrimFloat.is_zero tc = true ->
  row_ok x rv mix int tl tc m d r -> columnas_cero d r.
Proof.
  intros Hl Hc Hr.
  assert (H365 : PrimFloat.is_finite (nofZ 365) = true) by reflexivity.
  assert (Hliv : PrimFloat.is_finite (pr_rv_liv r) = true ->
                 PrimFloat.is_finite (tarifa_usd_km_livianos r * d) = true ->
                 PrimFloat.is_zero (recaud_liv_usd_dia r) = true).
  { intros Hp Ht. rewrite (ok_recaud_liv_dia _ _ _ _ _ _ _ _ _ Hr).
    apply mul_zero_finite; [|exact Ht].
    rewrite (ok_Q_rv_liv _ _ _ _ _ _ _ _ _ Hr). now apply mul_zero_finite. }
  assert (Hcam : PrimFloat.is_finite (pr_rv_cam r) = true ->
                 PrimFloat.is_finite (tarifa_usd_km_camiones r * d) = true ->
                 PrimFloat.is_zero (recaud_cam_usd_dia r) = true).
  { intros Hp Ht. rewrite (ok_recaud_cam_dia _ _ _ _ _ _ _ _ _ Hr).
    apply mul_zero_finite; [|exact Ht].
    rewrite (ok_Q_rv_cam _ _ _ _ _ _ _ _ _ Hr). now apply mul_zero_finite. }
  unfold columnas_cero. repeat split.
  - intros Hp. rewrite (ok_Q_rv_liv _ _ _ _ _ _ _ _ _ Hr).
    now apply mul_zero_finite.
  - intros Hp. rewrite (ok_Q_mix_liv _ _ _ _ _ _ _ _ _ Hr).
    now apply mul_zero_finite.
  - intros Hp. rewrite (ok_Q_int_liv _ _ _ _ _ _ _ _ _ Hr).
    now apply mul_zero_finite.
  - intros Hp. rewrite (ok_Q_rv_cam _ _ _ _ _ _ _ _ _ Hr).
    now apply mul_zero_finite.
  - intros Hp. rewrite (ok_Q_mix_cam _ _ _ _ _ _ _ _ _ Hr).
    now apply mul_zero_finite.
  - intros Hp. rewrite (ok_Q_int_cam _ _ _ _ _ _ _ _ _ Hr).
    now apply mul_zero_finite.
  - auto.
  - rewrite (ok_recaud_liv_anio _ _ _ _ _ _ _ _ _ Hr).
    apply mul_zero_finite; auto.
  - auto.
  - rewrite (ok_recaud_cam_anio _ _ _ _ _ _ _ _ _ Hr).
    apply mul_zero_finite; auto.
  - rewrite (ok_recaud_total_dia _ _ _ _ _ _ _ _ _ Hr).
    apply add_zero_zero; auto.
  - rewrite (ok_recaud_total_anio _ _ _ _ _ _ _ _ _ Hr).
    apply mul_zero_finite; auto.
    rewrite (ok_recaud_total_dia _ _ _ _ _ _ _ _ _ Hr).
    apply add_zero_zero; auto.
Qed.

(** C8, as the code has it. With [tpda_light = 0] and [tpda_truck = 0],
    for every table, grid, multiplier and distance: in every row each
    expected quantity is zero when its interpolated probability is a
    finite number, and each revenue (daily and annual; light, truck and
    total) is zero when moreover tariff times distance is a finite
    number for the classes it sums. *)
Theorem sin_trafico_columnas_cero (SV : SortValues float)
    (df_prob : list (ProbRow float)) (tarifa_grid_liv : list float)
    (tpda_liv tpda_cam mult_cam dist_km : float)
    (rows : list (ResultRow float)) :
  PrimFloat.is_zero tpda_liv = true -> PrimFloat.is_zero tpda_cam = true ->
  calcular_resultados df_prob tarifa_grid_liv
    tpda_liv tpda_cam mult_cam dist_km = Ok rows ->
  Forall (columnas_cero dist_km) rows.
Proof.
  intros Hl Hc Hok.
  destruct (calcular_resultados_inv _ _ _ _ _ _ _ Hok) as (_ & _ & Hall).
  eapply Forall_impl; [|exact Hall].
  intros r Hr. exact (row_ok_columnas_cero _ _ _ _ _ _ _ _ r Hl Hc Hr).
Qed.

Lemma sin_trafico_columnas_cero_witness :
  exists r0 r1 r2,
    resultados_sin_trafico = [r0; r1; r2] /\
    todo_cero r0 /\ todo_cero r1 /\ todo_cero r2.
Proof.
  do 3 eexists. split; [reflexivity|].
  pose proof (sin_trafico_columnas_cero StableSort tabla_ejemplo grid_ejemplo
                0%float 0%float mult_cam_base dist_km_base
                resultados_sin_trafico eq_refl eq_refl eq_refl) as Hall.
  apply Forall_cons_iff in Hall as [H0 Hall].
  apply Forall_cons_iff in Hall as [H1 Hall].
  apply Forall_cons_iff in Hall as [H2 _].
  repeat split;
    first [ apply H0 | apply H1 | apply H2 ]; reflexivity.
Defined.

(** Without traffic and with the tariff so high that tariff times
    distance overflows. *)
Definition resultados_sin_trafico_tarifa_enorme : list (ResultRow float) :=
  match calcular_resultados (SV := StableSort) tabla_probabilidades_base
          [1e308%float] 0%float 0%float mult_cam_base dist_km_base with
  | Ok rows => rows
  | Raise _ => []
  end.

(** C8, counterexample: base table, no traffic, distance 10 km and a
    tariff of 1e308 USD/km.  The quantities are zero, tariff times
    distance is infinite and the revenues are NaN, not zero. *)
Lemma sin_trafico_revenue_nan :
  exists r,
    calcular_resultados (SV := StableSort) tabla_probabilidades_base
      [1e308%float] 0%float 0%float mult_cam_base dist_km_base = Ok [r] /\
    PrimFloat.is_zero (Q_rv_liv_veh_dia r) = true /\
    PrimFloat.is_infinity (tarifa_usd_km_livianos r * dist_km_base) = true /\
    PrimFloat.is_nan (recaud_liv_usd_dia r) = true /\
    PrimFloat.is_zero (recaud_liv_usd_dia r) = false /\
    PrimFloat.is_zero (recaud_total_usd_anio r) = false.
Proof.
  eexists. split; [vm_compute; reflexivity|]. repeat split.
Qed.

(* ================================================================= *)
(** ** Annual totals *)

(** The base scenario at the grid point 0.05 USD/km. *)
Definition resultados_base_005 : list (ResultRow float) :=
  match calcular_resultados (SV := StableSort) tabla_probabilidades_base
          [0.05%float] tpda_liv_base tpda_cam_base mult_cam_base
          dist_km_base with
  | Ok rows => rows
  | Raise _ => []
  end.

(** C9, counterexample: in the base scenario, at 0.05 USD/km, the annual
    total is 6482754.78 while the annual light and truck revenues,
    6011554.380000001 and 471200.3999999999, add up to a different
    binary64 number. *)
Lemma recaud_total_anio_not_sum :
  exists r,
    calcular_resultados (SV := StableSort) tabla_probabilidades_base
      [0.05%float] tpda_liv_base tpda_cam_base mult_cam_base dist_km_base =
    Ok [r] /\
    recaud_total_usd_anio r = 6482754.78%float /\
    recaud_liv_usd_anio r = 6011554.380000001%float /\
    recaud_cam_usd_anio r = 471200.3999999999%float /\
    (recaud_total_usd_anio r =?
     recaud_liv_usd_anio r + recaud_cam_usd_anio r)%float = false.
Proof.
  eexists. split; [vm_compute; reflexivity|]. repeat split.
Qed.

(** C9, as the code has it. In every row the annual total is 365 times
    the daily total, the daily total being the sum of the daily light
    and truck revenues, and each annual part is 365 times its daily
    part.  In exact arithmetic the annual total is therefore the sum of
    the two annual parts; in binary64 the two sides are rounded
    separately and can differ. *)
Theorem recaud_total_anio_annualizes :
  (forall (SV : SortValues float) df_prob grid tpda_liv tpda_cam mult_cam
          dist_km rows,
      calcular_resultados df_prob grid tpda_liv tpda_cam mult_cam dist_km =
      Ok rows ->
      forall r, In r rows ->
        recaud_total_usd_anio r =
          ((recaud_liv_usd_dia r + recaud_cam_usd_dia r) * 365)%float /\
        recaud_liv_usd_anio r = (recaud_liv_usd_dia r * 365)%float /\
        recaud_cam_usd_anio r = (recaud_cam_usd_dia r * 365)%float) /\
  (forall (SV : SortValues Q) df_prob grid tpda_liv tpda_cam mult_cam
          dist_km rows,
      calcular_resultados df_prob grid tpda_liv tpda_cam mult_cam dist_km =
      Ok rows ->
      forall r, In r rows ->
        (recaud_total_usd_anio r ==
         recaud_liv_usd_anio r + recaud_cam_usd_anio r)%Q).
Proof.
  split; intros SV df_prob grid tl tc m d rows Hok r Hr;
    destruct (calcular_resultados_inv _ _ _ _ _ _ _ Hok) as (_ & _ & Hall);
    rewrite Forall_forall in Hall; specialize (Hall r Hr).
  - rewrite (ok_recaud_total_anio _ _ _ _ _ _ _ _ _ Hall),
      (ok_recaud_total_dia _ _ _ _ _ _ _ _ _ Hall),
      (ok_recaud_liv_anio _ _ _ _ _ _ _ _ _ Hall),
      (ok_recaud_cam_anio _ _ _ _ _ _ _ _ _ Hall).
    repeat split.
  - rewrite (ok_recaud_total_anio _ _ _ _ _ _ _ _ _ Hall),
      (ok_recaud_total_dia _ _ _ _ _ _ _ _ _ Hall),
      (ok_recaud_liv_anio _ _ _ _ _ _ _ _ _ Hall),
      (ok_recaud_cam_anio _ _ _ _ _ _ _ _ _ Hall).
    cbn [nadd nmul nofZ Exact]. ring.
Qed.

(** The end-to-end example in exact arithmetic. *)
Definition resultados_ejemplo_exacta : list (ResultRow Q) :=
  match calcular_resultados (SV := StableSort) tabla_ejemplo_exacta
          grid_ejemplo_exacta 1000%Q 0%Q 6%Q 10%Q with
  | Ok rows => rows
  | Raise _ => []
  end.

Lemma recaud_total_anio_annualizes_witness :
  (exists r, resultados_base_005 = [r] /\
     recaud_total_usd_anio r =
       ((recaud_liv_usd_dia r + recaud_cam_usd_dia r) * 365)%float /\
     recaud_liv_usd_anio r = (recaud_liv_usd_dia r * 365)%float /\
     recaud_cam_usd_anio r = (recaud_cam_usd_dia r * 365)%float) /\
  (exists r0 r1 r2, resultados_ejemplo_exacta = [r0; r1; r2] /\
     (recaud_total_usd_anio r1 ==
      recaud_liv_usd_anio r1 + recaud_cam_usd_anio r1)%Q).
Proof.
  split.
  - eexists. split; [reflexivity|].
    apply (proj1 recaud_total_anio_annualizes StableSort
             tabla_probabilidades_base [0.05%float] tpda_liv_base
             tpda_cam_base mult_cam_base dist_km_base resultados_base_005).
    + reflexivity.
    + left. reflexivity.
  - do 3 eexists. split; [reflexivity|].
    apply (proj2 recaud_total_anio_annualizes StableSort
             tabla_ejemplo_exacta grid_ejemplo_exacta 1000%Q 0%Q 6%Q 10%Q
             resultados_ejemplo_exacta).
    + reflexivity.
    + right. left. reflexivity.
Defined.

(* ================================================================= *)
(** ** Interpolated probabilities and the range of the table *)

Lemma dentro_de_In (col : list Q) (y : Q) : In y col -> dentro_de col y.
Proof.
  intros Hy. split; apply Qle_bool_iff.
  - apply (@seq_min_le Q Exact Exact_laws); [apply nonan_exact|exact Hy].
  - apply (@seq_max_ge Q Exact Exact_laws); [apply nonan_exact|exact Hy].
Qed.

Lemma interp_at_dentro_de (x_grid y_grid col : list Q) (j : Z) (x : Q) :
  x_grid <> [] -> length y_grid = length x_grid ->
  (forall y, In y y_grid -> In y col) ->
  dentro_de col (interp_at x_grid y_grid j x).
Proof.
  intros Hne Hlen Hsub. apply interp_at_between; auto.
  intros y Hy. now apply dentro_de_In, Hsub.
Qed.

(** C10, counterexample: in binary64 the interpolated value leaves the
    range of the values.  On the table [0.0, 0.05] / [0.3, 0.92] the
    query just below 0.05 is answered with 0.9200000000000002, above
    0.92, the largest value.  On the table [0.0, 1e-320] / [0.3, 0.92]
    the slope overflows and the query 5e-321 is answered with [+inf].
    The engine shows the same: a mixed-route probability above the
    largest of its column, and, on a table whose tolled-route column
    falls from 0.92 to 0.3 within 1e-320 USD/km, the tolled-route
    probability [-inf]. *)
Lemma interp_clamp_leaves_range :
  interp_clamp [0.0; 0.05]%float [0.3; 0.92]%float
    [0.049999999999999996%float] = Ok [0.9200000000000002%float] /\
  seq_max [0.3; 0.92]%float = 0.92%float /\
  (seq_max [0.3; 0.92] <? 0.9200000000000002)%float = true /\
  interp_clamp [0.0; 1e-320]%float [0.3; 0.92]%float [5e-321%float] =
    Ok [infinity] /\
  (exists r,
    calcular_resultados (SV := StableSort)
      [mkProbRow 0.0 0.46 0.3 0.28; mkProbRow 0.05 0.39 0.92 0.29]%float
      [0.049999999999999996%float]
      tpda_liv_base tpda_cam_base mult_cam_base dist_km_base = Ok [r] /\
    (seq_max [0.3; 0.92] <? pr_mix_liv r)%float = true) /\
  (exists r,
    calcular_resultados (SV := StableSort)
      [mkProbRow 0.0 0.92 0.05 0.03; mkProbRow 1e-320 0.3 0.4 0.3]%float
      [5e-321%float]
      tpda_liv_base tpda_cam_base mult_cam_base dist_km_base = Ok [r] /\
    pr_rv_liv r = neg_infinity /\
    seq_min [0.92; 0.3]%float = 0.3%float).
Proof.
  split; [reflexivity|]. split; [reflexivity|]. split; [reflexivity|].
  split; [reflexivity|]. split.
  - eexists. split; [vm_compute; reflexivity|reflexivity].
  - eexists. split; [vm_compute; reflexivity|]. split; reflexivity.
Qed.

(** C10, as the code has it. In binary64, on a domain and values
    without NaN, non-empty and of one length, the value interpolated for
    a query that is a number lies between the smallest and the largest
    of the values, unless the query lies strictly between two
    neighbouring sample points whose values differ: there it is what the
    slope formula rounds to.  Hence, on a base table without NaN, every
    interpolated probability of the result table whose tariff is a
    number lies within the range of its column of the base table, unless
    the tariff lies strictly inside a sloped segment of the table.
    Evaluated in exact arithmetic (the last two parts), the bound holds
    for every domain with as many values and every query, and for every
    interpolated probability of the result table. *)
Theorem interp_within_values :
  (forall domain values xq : list float,
      domain <> [] -> length values = length domain ->
      nonan domain -> nonan values ->
      exists ys,
        interp_clamp domain values xq = Ok ys /\
        length ys = length xq /\
        forall k q, nth_error xq k = Some q ->
          PrimFloat.is_nan q = false ->
          exists y, nth_error ys k = Some y /\
            (en_rango values y \/ en_pendiente domain values q y)) /\
  (forall (SV : SortValues float) df_prob grid tpda_liv tpda_cam mult_cam
          dist_km rows,
      calcular_resultados df_prob grid tpda_liv tpda_cam mult_cam dist_km =
      Ok rows ->
      nonan (map pkm df_prob) -> nonan (map pr_rv df_prob) ->
      nonan (map pr_mix df_prob) -> nonan (map pr_int df_prob) ->
      let t := drop_duplicates (sort_values df_prob) in
      forall r, In r rows ->
        (PrimFloat.is_nan (tarifa_usd_km_livianos r) = false ->
         acotada df_prob t pr_rv (tarifa_usd_km_livianos r) (pr_rv_liv r) /\
         acotada df_prob t pr_mix (tarifa_usd_km_livianos r) (pr_mix_liv r) /\
         acotada df_prob t pr_int (tarifa_usd_km_livianos r) (pr_int_liv r)) /\
        (PrimFloat.is_nan (tarifa_usd_km_camiones r) = false ->
         acotada df_prob t pr_rv (tarifa_usd_km_camiones r) (pr_rv_cam r) /\
         acotada df_prob t pr_mix (tarifa_usd_km_camiones r) (pr_mix_cam r) /\
         acotada df_prob t pr_int (tarifa_usd_km_camiones r) (pr_int_cam r))) /\
  (forall x_grid y_grid xq : list Q,
      x_grid <> [] -> length y_grid = length x_grid ->
      exists ys,
        interp_clamp x_grid y_grid xq = Ok ys /\
        length ys = length xq /\
        Forall (dentro_de y_grid) ys) /\
  (forall (SV : SortValues Q) df_prob grid tpda_liv tpda_cam mult_cam
          dist_km rows,
      calcular_resultados df_prob grid tpda_liv tpda_cam mult_cam dist_km =
      Ok rows ->
      forall r, In r rows ->
        dentro_de (map pr_rv df_prob) (pr_rv_liv r) /\
        dentro_de (map pr_mix df_prob) (pr_mix_liv r) /\
        dentro_de (map pr_int df_prob) (pr_int_liv r) /\
        dentro_de (map pr_rv df_prob) (pr_rv_cam r) /\
        dentro_de (map pr_mix df_prob) (pr_mix_cam r) /\
        dentro_de (map pr_int df_prob) (pr_int_cam r)).
Proof.
  split; [|split; [|split]].
  - intros domain values xq Hne Hlen Hd Hv.
    destruct (interp_clamp_nth domain values xq Hne Hlen)
      as (ys & Hys & Hl & Hn).
    exists ys. split; [exact Hys|]. split; [exact Hl|].
    intros k q Hk Hq. destruct (Hn k q Hk) as (j & Hj).
    eexists. split; [exact Hj|].
    apply interp_at_en_rango; auto.
  - intros SV df_prob grid tl tc m d rows Hok Hkm Hrv Hmix Hint t r Hr.
    destruct (calcular_resultados_inv _ _ _ _ _ _ _ Hok) as (Hne & _ & Hall).
    rewrite Forall_forall in Hall. specialize (Hall r Hr). fold t in Hall.
    assert (Hx : map pkm t <> []).
    { pose proof (sorted_table_nonempty df_prob Hne) as Ht. fold t in Ht.
      destruct t; [congruence|discriminate]. }
    assert (Hsub : forall (col : ProbRow float -> float) y,
               In y (map col t) -> In y (map col df_prob)).
    { intros col y Hy. apply in_map_iff in Hy as (row & <- & Hrow).
      apply in_map. apply drop_duplicates_incl in Hrow.
      now apply (Permutation_in _
                   (Permutation_sym (sort_values_perm df_prob))). }
    assert (Hkt : nonan (map pkm t)).
    { apply Forall_forall. intros y Hy.
      exact (proj1 (Forall_forall _ _) Hkm y (Hsub pkm y Hy)). }
    assert (Hone : forall (col : ProbRow float -> float) j q,
               nonan (map col df_prob) -> PrimFloat.is_nan q = false ->
               acotada df_prob t col q
                 (interp_at (map pkm t) (map col t) j q)).
    { intros col j q Hc Hq. apply interp_at_en_rango; auto.
      now rewrite !length_map. }
    destruct (ok_pr_rv_liv _ _ _ _ _ _ _ _ _ Hall) as (j1 & ->).
    destruct (ok_pr_mix_liv _ _ _ _ _ _ _ _ _ Hall) as (j2 & ->).
    destruct (ok_pr_int_liv _ _ _ _ _ _ _ _ _ Hall) as (j3 & ->).
    destruct (ok_pr_rv_cam _ _ _ _ _ _ _ _ _ Hall) as (j4 & ->).
    destruct (ok_pr_mix_cam _ _ _ _ _ _ _ _ _ Hall) as (j5 & ->).
    destruct (ok_pr_int_cam _ _ _ _ _ _ _ _ _ Hall) as (j6 & ->).
    split; intros Hq; repeat split; apply Hone; assumption.
  - intros x_grid y_grid xq Hne Hlen.
    destruct (interp_clamp_nth x_grid y_grid xq Hne Hlen)
      as (ys & Hys & Hl & Hn).
    exists ys. split; [exact Hys|]. split; [exact Hl|].
    apply Forall_forall. intros y Hy.
    apply In_nth_error in Hy as (k & Hk).
    assert (Hlt : (k < length xq)%nat)
      by (rewrite <- Hl; apply nth_error_Some; congruence).
    destruct (nth_error xq k) as [x|] eqn:Ex;
      [|apply nth_error_None in Ex; lia].
    destruct (Hn k x Ex) as (j & Hj). rewrite Hj in Hk. injection Hk as <-.
    apply interp_at_dentro_de; auto.
  - intros SV df_prob grid tl tc m d rows Hok r Hr.
    destruct (calcular_resultados_inv _ _ _ _ _ _ _ Hok) as (Hne & _ & Hall).
    rewrite Forall_forall in Hall. specialize (Hall r Hr).
    set (t := drop_duplicates (sort_values df_prob)) in *.
    assert (Hx : map pkm t <> []).
    { pose proof (sorted_table_nonempty df_prob Hne) as Ht. fold t in Ht.
      destruct t; [congruence|discriminate]. }
    assert (Hsub : forall (col : ProbRow Q -> Q) y,
               In y (map col t) -> In y (map col df_prob)).
    { intros col y Hy. apply in_map_iff in Hy as (row & <- & Hrow).
      apply in_map. apply drop_duplicates_incl in Hrow.
      now apply (Permutation_in _ (Permutation_sym (sort_values_perm df_prob))). }
    destruct (ok_pr_rv_liv _ _ _ _ _ _ _ _ _ Hall) as (j1 & ->).
    destruct (ok_pr_mix_liv _ _ _ _ _ _ _ _ _ Hall) as (j2 & ->).
    destruct (ok_pr_int_liv _ _ _ _ _ _ _ _ _ Hall) as (j3 & ->).
    destruct (ok_pr_rv_cam _ _ _ _ _ _ _ _ _ Hall) as (j4 & ->).
    destruct (ok_pr_mix_cam _ _ _ _ _ _ _ _ _ Hall) as (j5 & ->).
    destruct (ok_pr_int_cam _ _ _ _ _ _ _ _ _ Hall) as (j6 & ->).
    repeat split; apply interp_at_dentro_de; auto;
      now rewrite !length_map.
Qed.

Lemma nonan_base_columns :
  nonan (map pkm tabla_probabilidades_base) /\
  nonan (map pr_rv tabla_probabilidades_base) /\
  nonan (map pr_mix tabla_probabilidades_base) /\
  nonan (map pr_int tabla_probabilidades_base).
Proof.
  unfold nonan.
  repeat split; repeat (apply Forall_cons; [reflexivity|]); apply Forall_nil.
Qed.

(** The base table: the tolled-route column at 0.72 USD/km, on the
    plateau between 0.70 and 0.75, and above the table at 0.9; the row
    of the base scenario at 0.05 USD/km; and the example table in exact
    arithmetic. *)
Lemma interp_within_values_witness :
  (exists ys,
     interp_clamp (map pkm tabla_probabilidades_base)
       (map pr_rv tabla_probabilidades_base) [0.72; 0.9]%float = Ok ys /\
     length ys = 2%nat /\
     forall k q, nth_error [0.72; 0.9]%float k = Some q ->
       PrimFloat.is_nan q = false ->
       exists y, nth_error ys k = Some y /\
         (en_rango (map pr_rv tabla_probabilidades_base) y \/
          en_pendiente (map pkm tabla_probabilidades_base)
            (map pr_rv tabla_probabilidades_base) q y)) /\
  (let t := drop_duplicates
              (sort_values (SortValues := StableSort)
                 tabla_probabilidades_base) in
   forall r, In r resultados_base_005 ->
     (PrimFloat.is_nan (tarifa_usd_km_livianos r) = false ->
      acotada tabla_probabilidades_base t pr_rv
        (tarifa_usd_km_livianos r) (pr_rv_liv r) /\
      acotada tabla_probabilidades_base t pr_mix
        (tarifa_usd_km_livianos r) (pr_mix_liv r) /\
      acotada tabla_probabilidades_base t pr_int
        (tarifa_usd_km_livianos r) (pr_int_liv r)) /\
     (PrimFloat.is_nan (tarifa_usd_km_camiones r) = false ->
      acotada tabla_probabilidades_base t pr_rv
        (tarifa_usd_km_camiones r) (pr_rv_cam r) /\
      acotada tabla_probabilidades_base t pr_mix
        (tarifa_usd_km_camiones r) (pr_mix_cam r) /\
      acotada tabla_probabilidades_base t pr_int
        (tarifa_usd_km_camiones r) (pr_int_cam r))) /\
  (exists ys,
     interp_clamp [0; 5 # 100]%Q [3 # 10; 92 # 100]%Q [4 # 100]%Q = Ok ys /\
     length ys = 1%nat /\
     Forall (dentro_de [3 # 10; 92 # 100]%Q) ys) /\
  (exists r0 r1 r2, resultados_ejemplo_exacta = [r0; r1; r2] /\
     dentro_de (map pr_rv tabla_ejemplo_exacta) (pr_rv_liv r1) /\
     dentro_de (map pr_mix tabla_ejemplo_exacta) (pr_mix_liv r1) /\
     dentro_de (map pr_int tabla_ejemplo_exacta) (pr_int_liv r1) /\
     dentro_de (map pr_rv tabla_ejemplo_exacta) (pr_rv_cam r1) /\
     dentro_de (map pr_mix tabla_ejemplo_exacta) (pr_mix_cam r1) /\
     dentro_de (map pr_int tabla_ejemplo_exacta) (pr_int_cam r1)).
Proof.
  destruct nonan_base_columns as (Hkm & Hrv & Hmix & Hint).
  split; [|split; [|split]].
  - apply (proj1 interp_within_values
             (map pkm tabla_probabilidades_base)
             (map pr_rv tabla_probabilidades_base) [0.72; 0.9]%float);
      solve [discriminate | reflexivity | assumption].
  - apply (proj1 (proj2 interp_within_values) StableSort
             tabla_probabilidades_base [0.05%float] tpda_liv_base
             tpda_cam_base mult_cam_base dist_km_base
             resultados_base_005);
      solve [reflexivity | assumption].
  - apply (proj1 (proj2 (proj2 interp_within_values))
             [0; 5 # 100]%Q [3 # 10; 92 # 100]%Q [4 # 100]%Q).
    + discriminate.
    + reflexivity.
  - do 3 eexists. split; [reflexivity|].
    apply (proj2 (proj2 (proj2 interp_within_values)) StableSort
             tabla_ejemplo_exacta grid_ejemplo_exacta 1000%Q 0%Q 6%Q 10%Q
             resultados_ejemplo_exacta).
    + reflexivity.
    + right. left. reflexivity.
Defined.

(* ================================================================= *)
(** ** The end-to-end example *)

(** C1, counterexample: on the example table, the grid
    [0.0, 0.25, 0.5], 1000 light vehicles, no trucks and 10 km, the row
    at tariff 0.25 of the binary64 engine holds neither 0.24 nor 240 nor
    600.0. *)
Lemma ejemplo_025_not_exact :
  exists r0 r1 r2,
    calcular_resultados (SV := StableSort) tabla_ejemplo grid_ejemplo
      1000%float 0%float mult_cam_base 10%float = Ok [r0; r1; r2] /\
    tarifa_usd_km_livianos r1 = 0.25%float /\
    (pr_rv_liv r1 =? 0.24)%float = false /\
    (Q_rv_liv_veh_dia r1 =? 240)%float = false /\
    (recaud_liv_usd_dia r1 =? 600.0)%float = false.
Proof.
  do 3 eexists. split; [vm_compute; reflexivity|]. repeat split.
Qed.

(** C1, as the code has it. On the example table, the grid
    [0.0, 0.25, 0.5], [tpda_light = 1000], [tpda_truck = 0] and distance
    10, whatever the truck multiplier and the sort: the row at tariff
    0.25 of the binary64 engine has light probability
    0.24000000000000002, light quantity 240.00000000000003 and light
    revenue per day 600.0000000000001, each the binary64 number next
    above 0.24, 240 and 600; evaluated in exact arithmetic the three
    are exactly 0.24, 240 and 600. *)
Theorem ejemplo_tarifa_025 :
  (forall (SV : SortValues float) (mult_cam : float),
    exists r0 r1 r2,
      calcular_resultados tabla_ejemplo grid_ejemplo
        1000%float 0%float mult_cam 10%float = Ok [r0; r1; r2] /\
      tarifa_usd_km_livianos r1 = 0.25%float /\
      pr_rv_liv r1 = 0.24000000000000002%float /\
      Q_rv_liv_veh_dia r1 = 240.00000000000003%float /\
      recaud_liv_usd_dia r1 = 600.0000000000001%float /\
      pr_rv_liv r1 = next_up 0.24%float /\
      Q_rv_liv_veh_dia r1 = next_up 240%float /\
      recaud_liv_usd_dia r1 = next_up 600%float) /\
  (forall (SV : SortValues Q) (mult_cam : Q),
    exists r0 r1 r2,
      calcular_resultados tabla_ejemplo_exacta grid_ejemplo_exacta
        1000%Q 0%Q mult_cam 10%Q = Ok [r0; r1; r2] /\
      (tarifa_usd_km_livianos r1 == 25 # 100)%Q /\
      (pr_rv_liv r1 == 24 # 100)%Q /\
      (Q_rv_liv_veh_dia r1 == 240)%Q /\
      (recaud_liv_usd_dia r1 == 600)%Q).
Proof.
  split.
  - intros SV mult_cam.
    destruct (calcular_resultados_rows tabla_ejemplo grid_ejemplo
                1000%float 0%float mult_cam 10%float)
      as (rows & Hok & Hmap & Hall); [discriminate|].
    cbv zeta in Hall.
    rewrite (@sort_values_sorted_table float Binary64 Binary64_laws SV)
      in Hall by reflexivity.
    destruct rows as [|r0 [|r1 [|r2 [|r3 rows]]]]; try discriminate Hmap.
    injection Hmap as H0 H1 H2.
    exists r0, r1, r2. split; [exact Hok|]. split; [exact H1|].
    apply Forall_cons_iff in Hall as [_ Hall].
    apply Forall_cons_iff in Hall as [Hr1 _].
    destruct (ok_pr_rv_liv _ _ _ _ _ _ _ _ _ Hr1) as (j & Hj).
    assert (Hp : pr_rv_liv r1 = 0.24000000000000002%float)
      by (rewrite Hj, H1; vm_compute; reflexivity).
    assert (Hq : Q_rv_liv_veh_dia r1 = 240.00000000000003%float)
      by (rewrite (ok_Q_rv_liv _ _ _ _ _ _ _ _ _ Hr1), Hp; reflexivity).
    assert (Hrev : recaud_liv_usd_dia r1 = 600.0000000000001%float)
      by (rewrite (ok_recaud_liv_dia _ _ _ _ _ _ _ _ _ Hr1), Hq, H1;
          reflexivity).
    rewrite Hp, Hq, Hrev. repeat split.
  - intros SV mult_cam.
    destruct (calcular_resultados_rows tabla_ejemplo_exacta
                grid_ejemplo_exacta 1000%Q 0%Q mult_cam 10%Q)
      as (rows & Hok & Hmap & Hall); [discriminate|].
    cbv zeta in Hall.
    rewrite (@sort_values_sorted_table Q Exact Exact_laws SV)
      in Hall by reflexivity.
    destruct rows as [|r0 [|r1 [|r2 [|r3 rows]]]]; try discriminate Hmap.
    injection Hmap as H0 H1 H2.
    exists r0, r1, r2. split; [exact Hok|].
    apply Forall_cons_iff in Hall as [_ Hall].
    apply Forall_cons_iff in Hall as [Hr1 _].
    destruct (ok_pr_rv_liv _ _ _ _ _ _ _ _ _ Hr1) as (j & Hj).
    rewrite (ok_recaud_liv_dia _ _ _ _ _ _ _ _ _ Hr1),
      (ok_Q_rv_liv _ _ _ _ _ _ _ _ _ Hr1), Hj, H1.
    repeat split; apply Qeq_bool_eq; vm_compute; reflexivity.
Qed.

Lemma ejemplo_tarifa_025_witness :
  exists r0 r1 r2,
    calcular_resultados (SV := StableSort) tabla_ejemplo grid_ejemplo
      1000%float 0%float mult_cam_base 10%float = Ok [r0; r1; r2] /\
    tarifa_usd_km_livianos r1 = 0.25%float /\
    pr_rv_liv r1 = 0.24000000000000002%float /\
    Q_rv_liv_veh_dia r1 = 240.00000000000003%float /\
    recaud_liv_usd_dia r1 = 600.0000000000001%float /\
    pr_rv_liv r1 = next_up 0.24%float /\
    Q_rv_liv_veh_dia r1 = next_up 240%float /\
    recaud_liv_usd_dia r1 = next_up 600%float.
Proof.
  exact (proj1 ejemplo_tarifa_025 StableSort mult_cam_base).
Defined.

(* ================================================================= *)
(** * Beyond the claims: further properties of the code *)

(* ================================================================= *)
(** ** [interp_clamp]: failures, one-point tables, NaN queries *)

Section InterpEdges.
Context {A : Type} {N : Num A}.

(** What a successful call says about its arguments. *)
Lemma interp_clamp_ok_inv (x_grid y_grid xq ys : list A) :
  interp_clamp x_grid y_grid xq = Ok ys ->
  x_grid <> [] /\ length y_grid = length x_grid.
Proof.
  unfold interp_clamp, np_interp, first_item, last_item.
  destruct y_grid as [|y0 yl]; [discriminate|]. cbn [bind].
  destruct x_grid as [|x0 xl]; [discriminate|].
  destruct (Nat.eqb (length (y0 :: yl)) (length (x0 :: xl))) eqn:E;
    [|discriminate].
  intros _. split; [discriminate|]. now apply Nat.eqb_eq.
Qed.

(** A query that is NaN comes back as it is when the table has two
    points or more. *)
Lemma interp_at_nan (x_grid y_grid : list A) (j : Z) (x : A) :
  (2 <= length x_grid)%nat -> nisnan x = true ->
  interp_at x_grid y_grid j x = x.
Proof.
  intros Hlen Hx. unfold interp_at.
  destruct x_grid as [|a [|b l]]; [simpl in Hlen; lia|simpl in Hlen; lia|].
  unfold interp_one. now rewrite Hx.
Qed.

End InterpEdges.

(** X1.  [interp_clamp] fails in three ways and in this order: on an
    empty values array with [IndexError] (from [y_grid[0]], whatever the
    domain), on an empty domain with [ValueError], and on arrays of
    different lengths with [ValueError]; in every other case it returns
    one value per query. *)
Theorem interp_clamp_errors (x_grid y_grid xq : list float) :
  (y_grid = [] -> interp_clamp x_grid y_grid xq = Raise IndexError) /\
  (y_grid <> [] -> x_grid = [] ->
   interp_clamp x_grid y_grid xq = Raise ValueError) /\
  (y_grid <> [] -> length y_grid <> length x_grid ->
   interp_clamp x_grid y_grid xq = Raise ValueError) /\
  (x_grid <> [] -> length y_grid = length x_grid ->
   exists ys, interp_clamp x_grid y_grid xq = Ok ys /\
              length ys = length xq).
Proof.
  repeat split.
  - intros ->. reflexivity.
  - intros Hy ->. destruct y_grid; [congruence|reflexivity].
  - intros Hy Hlen. destruct y_grid as [|y0 yl]; [congruence|].
    unfold interp_clamp, first_item, last_item, np_interp. cbn [bind].
    destruct x_grid as [|x0 xl]; [reflexivity|].
    destruct (Nat.eqb (length (y0 :: yl)) (length (x0 :: xl))) eqn:E;
      [|reflexivity].
    apply Nat.eqb_eq in E. congruence.
  - intros Hx Hlen.
    destruct (interp_clamp_nth x_grid y_grid xq Hx Hlen) as (ys & H & Hl & _).
    now exists ys.
Qed.

Lemma interp_clamp_errors_witness :
  interp_clamp [0.0; 0.5]%float [] [0.1%float] = Raise IndexError /\
  interp_clamp [] [0.46%float] [0.1%float] = Raise ValueError /\
  interp_clamp [0.0; 0.5]%float [0.46%float] [0.1%float] = Raise ValueError /\
  exists ys, interp_clamp [0.0; 0.5]%float [0.46; 0.02]%float
               [0.1; 0.2; 0.3]%float = Ok ys /\
             length ys = 3%nat.
Proof.
  split; [|split; [|split]].
  - apply (proj1 (interp_clamp_errors [0.0; 0.5]%float [] [0.1%float])).
    reflexivity.
  - apply (proj1 (proj2 (interp_clamp_errors [] [0.46%float] [0.1%float])));
      [discriminate|reflexivity].
  - apply (proj1 (proj2 (proj2
             (interp_clamp_errors [0.0; 0.5]%float [0.46%float]
                [0.1%float])))); [discriminate|simpl; lia].
  - apply (proj2 (proj2 (proj2
             (interp_clamp_errors [0.0; 0.5]%float [0.46; 0.02]%float
                [0.1; 0.2; 0.3]%float)))); [discriminate|reflexivity].
Defined.

(** X2.  On a table of a single point every query gets that point's
    value: below it, above it, at it, and also when the query or the
    sample point is NaN. *)
Theorem interp_clamp_single_point (x0 y0 : float) (xq : list float) :
  interp_clamp [x0] [y0] xq = Ok (map (fun _ => y0) xq).
Proof.
  unfold interp_clamp, first_item, last_item, np_interp. cbn.
  f_equal. apply map_ext. intros q. unfold interp_single, get. cbn.
  destruct (q <? x0)%float; [reflexivity|].
  destruct (x0 <? q)%float; reflexivity.
Qed.

(** X3.  On a table of two points or more a query that is NaN is
    answered by NaN: the query itself is stored in the result, whatever
    the other queries are. *)
Theorem interp_clamp_nan_query (domain values xq : list float)
    (k : nat) (q : float) :
  (2 <= length domain)%nat -> length values = length domain ->
  nth_error xq k = Some q -> PrimFloat.is_nan q = true ->
  exists ys,
    interp_clamp domain values xq = Ok ys /\ nth_error ys k = Some q.
Proof.
  intros Hlen Hv Hk Hq.
  assert (Hne : domain <> []) by (destruct domain; [simpl in Hlen; lia|discriminate]).
  destruct (interp_clamp_nth domain values xq Hne Hv) as (ys & H & _ & Hnth).
  exists ys. split; [assumption|].
  destruct (Hnth k q Hk) as (j & ->).
  now rewrite (@interp_at_nan float Binary64 domain values j q Hlen Hq).
Qed.

Lemma interp_clamp_nan_query_witness :
  exists ys,
    interp_clamp [0.0; 0.5; 0.8]%float [0.46; 0.02; 0.00]%float
      [0.25; nan]%float = Ok ys /\
    nth_error ys 1 = Some nan.
Proof.
  apply (interp_clamp_nan_query [0.0; 0.5; 0.8]%float
           [0.46; 0.02; 0.00]%float [0.25; nan]%float 1 nan);
    [simpl; lia|reflexivity|reflexivity|reflexivity].
Defined.

(* ================================================================= *)
(** ** [interp_clamp]: each query is answered on its own *)

Section Pointwise.
Context {A : Type} {N : Num A} {L : NumLaws A}.

(** On an ascending array a key has one bracket at most. *)
Lemma bracket_unique (key : A) (arr : list A) (j j' : Z) :
  ascending arr = true ->
  bracket key arr (Z.of_nat (length arr)) j ->
  bracket key arr (Z.of_nat (length arr)) j' ->
  j <= j'.
Proof.
  intros Hasc (Hj & Hle & Hup) (Hj' & Hle' & Hup').
  destruct (Z_le_gt_dec j j') as [|Hgt]; [assumption|exfalso].
  destruct Hup' as [->|Hlt]; [lia|].
  assert (H1 : nleb (get arr (j' + 1)) key = true).
  { destruct (Z.eq_dec (j' + 1) j) as [->|Hne]; [assumption|].
    apply nleb_trans with (get arr j); [|assumption].
    apply ascending_get; [assumption|lia|lia]. }
  apply nleb_not_nltb in H1. congruence.
Qed.

(** A key inside the array is given a bracket. *)
Lemma search_inside (key : A) (arr : list A) (guess : Z) :
  nonan arr -> nisnan key = false -> (1 <= length arr)%nat ->
  nltb (get arr (Z.of_nat (length arr) - 1)) key = false ->
  nltb key (get arr 0) = false ->
  bracket key arr (Z.of_nat (length arr))
    (binary_search_with_guess key arr (Z.of_nat (length arr)) guess).
Proof.
  intros Hn Hk Hlen Hhi Hlo.
  destruct (binary_search_with_guess_spec key arr (Z.of_nat (length arr))
              eq_refl Hn Hk guess ltac:(lia)) as [[_ H]|[[_ H]|H]];
    [congruence|congruence|exact H].
Qed.

(** The guess speeds the search up and does not change what it finds. *)
Lemma search_guess_irrelevant (key : A) (arr : list A) (g g' : Z) :
  ascending arr = true -> nonan arr -> (1 <= length arr)%nat ->
  nisnan key = false ->
  binary_search_with_guess key arr (Z.of_nat (length arr)) g =
  binary_search_with_guess key arr (Z.of_nat (length arr)) g'.
Proof.
  intros Hasc Hn Hlen Hk.
  destruct (nltb (get arr (Z.of_nat (length arr) - 1)) key) eqn:Hhi.
  { unfold binary_search_with_guess, ngtb. now rewrite Hhi. }
  destruct (nltb key (get arr 0)) eqn:Hlo.
  { unfold binary_search_with_guess, ngtb. now rewrite Hhi, Hlo. }
  pose proof (search_inside key arr g Hn Hk Hlen Hhi Hlo) as B.
  pose proof (search_inside key arr g' Hn Hk Hlen Hhi Hlo) as B'.
  pose proof (bracket_unique _ _ _ _ Hasc B B').
  pose proof (bracket_unique _ _ _ _ Hasc B' B).
  lia.
Qed.

Lemma interp_at_guess_irrelevant (x_grid y_grid : list A) (j j' : Z) (x : A) :
  ascending x_grid = true ->
  interp_at x_grid y_grid j x = interp_at x_grid y_grid j' x.
Proof.
  intros Hasc. unfold interp_at.
  destruct x_grid as [|a [|b l]]; try reflexivity.
  - unfold interp_one. destruct (nisnan x); reflexivity.
  - unfold interp_one. destruct (nisnan x) eqn:Hx; [reflexivity|].
    rewrite (search_guess_irrelevant x (a :: b :: l) j j'); try assumption.
    + reflexivity.
    + apply ascending_nonan; [assumption|simpl; lia].
    + simpl; lia.
Qed.

(** The answer at one position of a batch is the answer to that query
    asked alone. *)
Lemma interp_clamp_alone (x_grid y_grid xq ys : list A) (k : nat) (q : A) :
  ascending x_grid = true ->
  interp_clamp x_grid y_grid xq = Ok ys ->
  nth_error xq k = Some q ->
  exists y, nth_error ys k = Some y /\
            interp_clamp x_grid y_grid [q] = Ok [y].
Proof.
  intros Hasc Hok Hk.
  destruct (interp_clamp_ok_inv _ _ _ _ Hok) as (Hne & Hlen).
  destruct (interp_clamp_nth x_grid y_grid xq Hne Hlen) as (ys' & H & _ & Hnth).
  rewrite Hok in H. injection H as <-.
  destruct (Hnth k q Hk) as (j & Hy).
  destruct (interp_clamp_nth x_grid y_grid [q] Hne Hlen)
    as (y1 & H1 & Hl1 & Hnth1).
  destruct (Hnth1 0%nat q eq_refl) as (j' & Hy1).
  exists (interp_at x_grid y_grid j q). split; [assumption|].
  rewrite H1. f_equal.
  destruct y1 as [|y [|? ?]]; try discriminate.
  simpl in Hy1. injection Hy1 as ->.
  f_equal. now apply interp_at_guess_irrelevant.
Qed.

End Pointwise.

(** X4.  On an ascending domain every query of a batch is answered on
    its own: the value at a position is the value [interp_clamp] returns
    for that query asked alone.  The index NumPy carries from one query
    to the next only saves search steps. *)
Theorem interp_clamp_pointwise (domain values xq ys : list float)
    (k : nat) (q : float) :
  ascending domain = true ->
  interp_clamp domain values xq = Ok ys ->
  nth_error xq k = Some q ->
  exists y, nth_error ys k = Some y /\
            interp_clamp domain values [q] = Ok [y].
Proof.
  apply (@interp_clamp_alone float Binary64 Binary64_laws).
Qed.

Lemma interp_clamp_pointwise_witness :
  exists y,
    nth_error [0.46; 0.24000000000000002; 0.00]%float 1 = Some y /\
    interp_clamp [0.0; 0.5; 0.8]%float [0.46; 0.02; 0.00]%float
      [0.25%float] = Ok [y].
Proof.
  apply (interp_clamp_pointwise [0.0; 0.5; 0.8]%float
           [0.46; 0.02; 0.00]%float [-1; 0.25; 7]%float
           [0.46; 0.24000000000000002; 0.00]%float 1 0.25%float);
    reflexivity.
Defined.

(* ================================================================= *)
(** ** Line 87: the table the engine interpolates on *)

Section PreparedTable.
Context {A : Type} {N : Num A} {L : NumLaws A}.

(** A row kept by [drop_duplicates] carries a key not seen before. *)
Lemma drop_duplicates_seen_fresh df : forall seen r,
  In r (drop_duplicates_seen seen df) ->
  existsb (same_key (pkm r)) seen = false.
Proof.
  induction df as [|a df IH]; intros seen r; simpl; [tauto|].
  destruct (existsb (same_key (pkm a)) seen) eqn:E.
  - apply IH.
  - intros [<-|Hin]; [assumption|].
    apply IH in Hin. simpl in Hin.
    now apply orb_false_iff in Hin.
Qed.

Lemma drop_duplicates_seen_distinct df : forall seen,
  distinct_keys (drop_duplicates_seen seen df) = true.
Proof.
  induction df as [|a df IH]; intros seen; simpl; [reflexivity|].
  destruct (existsb (same_key (pkm a)) seen) eqn:E; [apply IH|].
  simpl. rewrite IH, andb_true_r. apply negb_true_iff.
  destruct (existsb _ (drop_duplicates_seen (pkm a :: seen) df)) eqn:Ex;
    [|reflexivity].
  apply existsb_exists in Ex. destruct Ex as (r & Hin & Hk).
  apply drop_duplicates_seen_fresh in Hin. simpl in Hin.
  apply orb_false_iff in Hin. destruct Hin as [Hin _].
  rewrite same_key_sym in Hin. congruence.
Qed.

Lemma drop_duplicates_seen_sorted df : forall seen,
  sorted_by_pkm df = true ->
  sorted_by_pkm (drop_duplicates_seen seen df) = true.
Proof.
  induction df as [|a df IH]; intros seen Hs; [reflexivity|].
  pose proof (sorted_by_pkm_tail _ _ Hs) as Ht.
  simpl. destruct (existsb (same_key (pkm a)) seen); [now apply IH|].
  apply sorted_by_pkm_cons; [now apply IH|].
  intros b Hb. apply drop_duplicates_seen_incl in Hb.
  now apply (sorted_by_pkm_head _ _ Hs).
Qed.

(** Without repeated keys [drop_duplicates] keeps every row. *)
Lemma drop_duplicates_seen_id df : forall seen,
  distinct_keys df = true ->
  (forall r, In r df -> existsb (same_key (pkm r)) seen = false) ->
  drop_duplicates_seen seen df = df.
Proof.
  induction df as [|a df IH]; intros seen Hd Hs; [reflexivity|].
  simpl in Hd. apply andb_true_iff in Hd. destruct Hd as [Ha Hd].
  apply negb_true_iff in Ha.
  simpl. rewrite (Hs a (or_introl eq_refl)). f_equal.
  apply IH; [assumption|].
  intros r Hr. simpl. rewrite (Hs r (or_intror Hr)), orb_false_r.
  destruct (same_key (pkm r) (pkm a)) eqn:E; [|reflexivity].
  rewrite same_key_sym in E.
  assert (Hex : existsb (fun r' => same_key (pkm a) (pkm r')) df = true)
    by (apply existsb_exists; now exists r).
  congruence.
Qed.

Lemma drop_duplicates_id df :
  distinct_keys df = true -> drop_duplicates df = df.
Proof.
  intros Hd. apply drop_duplicates_seen_id; [assumption|reflexivity].
Qed.

(** Sorted rows with pairwise different numeric keys ascend strictly. *)
Lemma sorted_distinct_strict df :
  nonan (map pkm df) -> sorted_by_pkm df = true ->
  distinct_keys df = true ->
  strictly_ascending (map pkm df) = true.
Proof.
  induction df as [|a df IH]; intros Hn Hs Hd; [reflexivity|].
  destruct df as [|b df]; [reflexivity|].
  change (nltb (pkm a) (pkm b) &&
          strictly_ascending (map pkm (b :: df)) = true).
  apply andb_true_iff. split.
  - inversion Hn as [|? ? Ha Hn']. inversion Hn' as [|? ? Hb _]. subst.
    assert (Hab : in_order a b = true)
      by (apply (sorted_by_pkm_head _ _ Hs); now left).
    unfold in_order in Hab. rewrite Ha, Hb in Hab. simpl in Hab.
    simpl in Hd. apply andb_true_iff in Hd. destruct Hd as [Hd _].
    apply negb_true_iff, orb_false_iff in Hd. destruct Hd as [Hd _].
    unfold same_key in Hd. apply orb_false_iff in Hd. destruct Hd as [Hd _].
    rewrite neqb_nleb, Hab in Hd. simpl in Hd.
    now apply not_nleb_nltb.
  - apply IH.
    + now inversion Hn.
    + now apply sorted_by_pkm_tail in Hs.
    + simpl in Hd. now apply andb_true_iff in Hd.
Qed.

Lemma key_in_perm (k : A) (df df' : list (ProbRow A)) :
  Permutation df df' ->
  existsb (fun r' => same_key k (pkm r')) df =
  existsb (fun r' => same_key k (pkm r')) df'.
Proof.
  intros Hp. induction Hp; simpl.
  - reflexivity.
  - now rewrite IHHp.
  - rewrite !orb_assoc. f_equal. apply orb_comm.
  - congruence.
Qed.

Lemma distinct_keys_perm (df df' : list (ProbRow A)) :
  Permutation df df' -> distinct_keys df = distinct_keys df'.
Proof.
  intros Hp. induction Hp; simpl.
  - reflexivity.
  - now rewrite IHHp, (key_in_perm _ _ _ Hp).
  - rewrite (same_key_sym (pkm x) (pkm y)).
    destruct (same_key (pkm y) (pkm x)); simpl; [reflexivity|].
    destruct (existsb (fun r' => same_key (pkm y) (pkm r')) l),
             (existsb (fun r' => same_key (pkm x) (pkm r')) l); reflexivity.
  - congruence.
Qed.

Lemma nonan_keys_perm (df df' : list (ProbRow A)) :
  Permutation df df' -> nonan (map pkm df) -> nonan (map pkm df').
Proof.
  intros Hp. unfold nonan.
  apply Permutation_Forall. now apply Permutation_map.
Qed.

Lemma nonan_keys_incl (df df' : list (ProbRow A)) :
  (forall r, In r df' -> In r df) ->
  nonan (map pkm df) -> nonan (map pkm df').
Proof.
  unfold nonan. rewrite !Forall_forall. intros Hi Hn k Hk.
  apply in_map_iff in Hk. destruct Hk as (r & <- & Hr).
  apply Hn, in_map, Hi, Hr.
Qed.

Context {SV : SortValues A}.

Lemma prepared_nonan df :
  nonan (map pkm df) ->
  nonan (map pkm (drop_duplicates (sort_values df))).
Proof.
  intros Hn. apply nonan_keys_incl with (sort_values df).
  - apply drop_duplicates_incl.
  - apply nonan_keys_perm with df; [apply sort_values_perm|assumption].
Qed.

(** Line 87 hands [np.interp] sample points in strictly ascending
    order. *)
Lemma prepared_strict df :
  nonan (map pkm df) ->
  strictly_ascending (map pkm (drop_duplicates (sort_values df))) = true.
Proof.
  intros Hn. apply sorted_distinct_strict.
  - now apply prepared_nonan.
  - apply drop_duplicates_seen_sorted, sort_values_sorted.
  - apply drop_duplicates_seen_distinct.
Qed.

(** The columns of the prepared table are as long as its key column. *)
Lemma get_map_nth (f : ProbRow A -> A) (df : list (ProbRow A)) (i : nat)
    (t : ProbRow A) :
  nth_error df i = Some t -> get (map f df) (Z.of_nat i) = f t.
Proof.
  intros H. unfold get. rewrite Nat2Z.id.
  apply nth_error_nth. now apply map_nth_error.
Qed.

End PreparedTable.

Section PreparedAny.
Context {A : Type} {N : Num A} {L : NumLaws A}.

(** With numeric, pairwise different breakpoints the prepared table is
    the same for every row order and every sort. *)
Lemma prepared_perm (SV1 SV2 : SortValues A) (df df' : list (ProbRow A)) :
  Permutation df df' -> nonan (map pkm df) -> distinct_keys df = true ->
  drop_duplicates (sort_values (SortValues := SV1) df) =
  drop_duplicates (sort_values (SortValues := SV2) df').
Proof.
  intros Hp Hn Hd.
  pose proof (sort_values_perm (SortValues := SV1) df) as P1.
  pose proof (sort_values_perm (SortValues := SV2) df') as P2.
  assert (Hs : strictly_ascending
                 (map pkm (sort_values (SortValues := SV1) df)) = true).
  { apply sorted_distinct_strict.
    - now apply nonan_keys_perm with df.
    - apply sort_values_sorted.
    - now rewrite <- (distinct_keys_perm _ _ P1). }
  assert (E : sort_values (SortValues := SV2) df' =
              sort_values (SortValues := SV1) df).
  { apply sorted_perm_unique; [assumption| |apply sort_values_sorted].
    rewrite <- P1, Hp. exact P2. }
  now rewrite E.
Qed.

(** Preparing a prepared table changes nothing. *)
Lemma prepared_fixed (SV1 SV2 : SortValues A) (df : list (ProbRow A)) :
  nonan (map pkm df) ->
  let used := drop_duplicates (sort_values (SortValues := SV1) df) in
  drop_duplicates (sort_values (SortValues := SV2) used) = used.
Proof.
  intros Hn used.
  pose proof (prepared_strict (SV := SV1) df Hn) as Hs. fold used in Hs.
  rewrite (sort_values_sorted_table (SV := SV2) used Hs).
  apply drop_duplicates_id. apply drop_duplicates_seen_distinct.
Qed.

End PreparedAny.

Section EngineTable.
Context {A : Type} {N : Num A} {L : NumLaws A} {SV : SortValues A}.

Lemma last_of_map (f : ProbRow A -> A) (df : list (ProbRow A))
    (d : A) (t : ProbRow A) :
  df <> [] -> last (map f df) d = f (last df t).
Proof.
  induction df as [|a df IH]; intros Hne; [congruence|].
  destruct df as [|b df]; [reflexivity|].
  change (last (map f (b :: df)) d = f (last (b :: df) t)).
  apply IH. discriminate.
Qed.

Lemma last_In (df : list (ProbRow A)) (t : ProbRow A) :
  df <> [] -> In (last df t) df.
Proof.
  induction df as [|a df IH]; intros Hne; [congruence|].
  destruct df as [|b df]; [now left|].
  right. apply IH. discriminate.
Qed.

Lemma last_nth (df : list (ProbRow A)) (t : ProbRow A) :
  df <> [] -> nth_error df (pred (length df)) = Some (last df t).
Proof.
  induction df as [|a df IH]; intros Hne; [congruence|].
  destruct df as [|b df]; [reflexivity|].
  change (nth_error (b :: df) (pred (length (b :: df))) =
          Some (last (b :: df) t)).
  apply IH. discriminate.
Qed.

(** At a breakpoint of the prepared table the interpolation returns the
    row's own entry. *)
Lemma interp_at_row (f : ProbRow A -> A) (used : list (ProbRow A))
    (t : ProbRow A) (j : Z) :
  strictly_ascending (map pkm used) = true -> In t used ->
  interp_at (map pkm used) (map f used) j (pkm t) = f t.
Proof.
  intros Hs Hin.
  destruct (In_nth_error _ _ Hin) as (i & Hi).
  assert (Hlt : (i < length used)%nat)
    by (apply nth_error_Some; congruence).
  rewrite <- (get_map_nth pkm used i t Hi).
  rewrite <- (get_map_nth f used i t Hi).
  apply interp_at_knot.
  - destruct used; [simpl in Hlt; lia|discriminate].
  - now rewrite !length_map.
  - assumption.
  - rewrite length_map. lia.
Qed.

(** Above the last breakpoint of the prepared table the interpolation
    returns the last row's entry. *)
Lemma interp_at_last_row (f : ProbRow A -> A) (used : list (ProbRow A))
    (t : ProbRow A) (j : Z) (x : A) :
  used <> [] -> nltb (pkm (last used t)) x = true ->
  interp_at (map pkm used) (map f used) j x = f (last used t).
Proof.
  intros Hne Hx.
  rewrite <- (last_of_map f used (nofZ 0) t Hne).
  apply interp_at_above.
  - destruct used; [congruence|discriminate].
  - now rewrite !length_map.
  - now rewrite (last_of_map pkm used (nofZ 0) t Hne).
Qed.

(** The last row of the prepared table carries the largest breakpoint
    of the table. *)
Lemma prepared_last_max (df : list (ProbRow A)) (t0 : ProbRow A) :
  df <> [] -> nonan (map pkm df) ->
  let t := last (drop_duplicates (sort_values df)) t0 in
  In t df /\ forall t', In t' df -> nleb (pkm t') (pkm t) = true.
Proof.
  intros Hne Hn t.
  set (used := drop_duplicates (sort_values df)) in *.
  assert (Hu : used <> []) by now apply sorted_table_nonempty.
  assert (Hin : In t used) by now apply last_In.
  assert (Hnu : nonan (map pkm used)) by now apply prepared_nonan.
  assert (Hkey : forall r, In r used -> nisnan (pkm r) = false).
  { intros r Hr. unfold nonan in Hnu. rewrite Forall_forall in Hnu.
    apply Hnu. now apply in_map. }
  split.
  - apply (Permutation_in _ (Permutation_sym (sort_values_perm df))).
    now apply drop_duplicates_incl.
  - intros t' Ht'.
    assert (Hk' : nisnan (pkm t') = false).
    { unfold nonan in Hn. rewrite Forall_forall in Hn.
      apply Hn. now apply in_map. }
    (* a row of the prepared table carries the key of [t'] *)
    assert (Hex : exists u, In u used /\ same_key (pkm t') (pkm u) = true).
    { destruct (first_with (pkm t') used) as [u|] eqn:E.
      - apply find_some in E. now exists u.
      - exfalso. unfold used in E. rewrite drop_duplicates_first in E.
        assert (Hf : same_key (pkm t') (pkm t') = false).
        { apply (find_none _ _ E t').
          now apply (Permutation_in _ (sort_values_perm df)). }
        unfold same_key in Hf. now rewrite neqb_refl in Hf. }
    destruct Hex as (u & Hu' & Hsame).
    assert (H1 : nleb (pkm t') (pkm u) = true).
    { unfold same_key in Hsame. rewrite Hk' in Hsame. simpl in Hsame.
      rewrite orb_false_r in Hsame. now apply neqb_true_nleb in Hsame. }
    apply nleb_trans with (pkm u); [assumption|].
    destruct (In_nth_error _ _ Hu') as (i & Hi).
    assert (Hlt : (i < length used)%nat)
      by (apply nth_error_Some; congruence).
    pose proof (last_nth used t0 Hu) as Hl. fold t in Hl.
    destruct (Nat.eq_dec i (pred (length used))) as [->|Hne'].
    + rewrite Hi in Hl. injection Hl as ->. now apply nleb_refl, Hkey.
    + pose proof (ascending_nth (map pkm used) (nofZ 0)
                    (strictly_ascending_ascending _ (prepared_strict df Hn))
                    i (pred (length used))) as Ha.
      fold used in Ha. rewrite length_map in Ha.
      rewrite (nth_error_nth _ _ _ (map_nth_error pkm _ _ Hi)) in Ha.
      rewrite (nth_error_nth _ _ _ (map_nth_error pkm _ _ Hl)) in Ha.
      apply Ha. lia.
Qed.

End EngineTable.

(** X5.  Whatever the order of the rows and whatever rows repeat a
    breakpoint, line 87 hands [np.interp] sample points in strictly
    ascending order, which is what NumPy asks of [xp], as long as no
    breakpoint of the table is NaN. *)
Theorem prepared_table_strictly_ascending (SV : SortValues float)
    (df_prob : list (ProbRow float)) :
  nonan (map pkm df_prob) ->
  let used := drop_duplicates (sort_values df_prob) in
  strictly_ascending (map pkm used) = true /\
  distinct_keys used = true /\
  nonan (map pkm used).
Proof.
  intros Hn used. split; [|split].
  - apply (@prepared_strict float Binary64 Binary64_laws SV). exact Hn.
  - apply (@drop_duplicates_seen_distinct float Binary64 Binary64_laws).
  - apply (@prepared_nonan float Binary64 SV). exact Hn.
Qed.

Lemma prepared_table_strictly_ascending_witness :
  let used :=
    drop_duplicates (sort_values (SortValues := FrontSort) tabla_duplicada) in
  strictly_ascending (map pkm used) = true /\
  distinct_keys used = true /\
  nonan (map pkm used).
Proof.
  apply (prepared_table_strictly_ascending FrontSort tabla_duplicada).
  repeat constructor.
Defined.

(** X6.  The engine gives the same answer on a table and on that table
    already sorted and deduplicated: preparing twice changes nothing
    (breakpoints that are not NaN). *)
Theorem calcular_resultados_prepared (SV : SortValues float)
    (df_prob : list (ProbRow float)) (tarifa_grid_liv : list float)
    (tpda_liv tpda_cam mult_cam dist_km : float) :
  nonan (map pkm df_prob) ->
  calcular_resultados (drop_duplicates (sort_values df_prob))
    tarifa_grid_liv tpda_liv tpda_cam mult_cam dist_km =
  calcular_resultados df_prob
    tarifa_grid_liv tpda_liv tpda_cam mult_cam dist_km.
Proof.
  intros Hn.
  pose proof (@prepared_fixed float Binary64 Binary64_laws SV SV df_prob Hn)
    as E.
  cbv zeta in E. unfold calcular_resultados. now rewrite E.
Qed.

Lemma calcular_resultados_prepared_witness :
  calcular_resultados (SV := StableSort)
    (drop_duplicates (sort_values (SortValues := StableSort) tabla_duplicada))
    grid_ejemplo tpda_liv_base tpda_cam_base mult_cam_base dist_km_base =
  calcular_resultados (SV := StableSort) tabla_duplicada
    grid_ejemplo tpda_liv_base tpda_cam_base mult_cam_base dist_km_base.
Proof.
  apply (calcular_resultados_prepared StableSort tabla_duplicada).
  repeat constructor.
Defined.

(** X7.  When the breakpoints of the table are numbers and pairwise
    different, the result depends neither on the order in which the rows
    are written nor on the sorting algorithm pandas uses. *)
Theorem calcular_resultados_row_order (SV1 SV2 : SortValues float)
    (df_prob df_prob' : list (ProbRow float)) (tarifa_grid_liv : list float)
    (tpda_liv tpda_cam mult_cam dist_km : float) :
  Permutation df_prob df_prob' ->
  nonan (map pkm df_prob) -> distinct_keys df_prob = true ->
  calcular_resultados (SV := SV1) df_prob
    tarifa_grid_liv tpda_liv tpda_cam mult_cam dist_km =
  calcular_resultados (SV := SV2) df_prob'
    tarifa_grid_liv tpda_liv tpda_cam mult_cam dist_km.
Proof.
  intros Hp Hn Hd.
  pose proof (@prepared_perm float Binary64 Binary64_laws SV1 SV2
                df_prob df_prob' Hp Hn Hd) as E.
  unfold calcular_resultados. now rewrite E.
Qed.

Lemma calcular_resultados_row_order_witness :
  calcular_resultados (SV := StableSort) tabla_probabilidades_base
    grid_ejemplo tpda_liv_base tpda_cam_base mult_cam_base dist_km_base =
  calcular_resultados (SV := FrontSort) (rev tabla_probabilidades_base)
    grid_ejemplo tpda_liv_base tpda_cam_base mult_cam_base dist_km_base.
Proof.
  apply (calcular_resultados_row_order StableSort FrontSort
           tabla_probabilidades_base (rev tabla_probabilidades_base)).
  - apply Permutation_rev.
  - repeat constructor.
  - reflexivity.
Defined.

(** The base table on the three-point grid, in the base scenario. *)
Definition resultados_base_ejemplo : list (ResultRow float) :=
  match calcular_resultados (SV := StableSort) tabla_probabilidades_base
          grid_ejemplo tpda_liv_base tpda_cam_base mult_cam_base
          dist_km_base with
  | Ok rows => rows
  | Raise _ => []
  end.

(** X8.  Where a tariff of the result coincides with a breakpoint of
    the prepared table, the three probabilities of that vehicle class
    are the entries of the table's row, with no interpolation error:
    for the light tariff and for the truck tariff alike. *)
Theorem calcular_resultados_at_breakpoint (SV : SortValues float)
    (df_prob : list (ProbRow float)) (tarifa_grid_liv : list float)
    (tpda_liv tpda_cam mult_cam dist_km : float)
    (rows : list (ResultRow float)) (r : ResultRow float)
    (t : ProbRow float) :
  nonan (map pkm df_prob) ->
  calcular_resultados df_prob tarifa_grid_liv
    tpda_liv tpda_cam mult_cam dist_km = Ok rows ->
  In r rows -> In t (drop_duplicates (sort_values df_prob)) ->
  (tarifa_usd_km_livianos r = pkm t ->
   pr_rv_liv r = pr_rv t /\ pr_mix_liv r = pr_mix t /\
   pr_int_liv r = pr_int t) /\
  (tarifa_usd_km_camiones r = pkm t ->
   pr_rv_cam r = pr_rv t /\ pr_mix_cam r = pr_mix t /\
   pr_int_cam r = pr_int t).
Proof.
  intros Hn Hok Hr Ht.
  destruct (calcular_resultados_inv _ _ _ _ _ _ _ Hok) as (_ & _ & Hrows).
  rewrite Forall_forall in Hrows. specialize (Hrows r Hr).
  pose proof (@prepared_strict float Binary64 Binary64_laws SV df_prob Hn)
    as Hs.
  destruct Hrows as [_ _ [j1 H1] [j2 H2] [j3 H3] [j4 H4] [j5 H5] [j6 H6]
                     _ _ _ _ _ _ _ _ _ _ _ _].
  pose proof (fun f j =>
                @interp_at_row float Binary64 Binary64_laws f _ t j Hs Ht)
    as Hrow.
  split; intros E; rewrite E in *.
  - rewrite Hrow in H1, H2, H3. auto.
  - rewrite Hrow in H4, H5, H6. auto.
Qed.

Lemma calcular_resultados_at_breakpoint_witness :
  exists r0 r1 r2,
    resultados_base_ejemplo = [r0; r1; r2] /\
    pr_rv_liv r2 = 0.02%float /\ pr_mix_liv r2 = 0.67%float /\
    pr_int_liv r2 = 0.31%float.
Proof.
  do 3 eexists. split; [reflexivity|].
  apply (proj1 (calcular_resultados_at_breakpoint StableSort
                  tabla_probabilidades_base grid_ejemplo tpda_liv_base
                  tpda_cam_base mult_cam_base dist_km_base
                  resultados_base_ejemplo _
                  (mkProbRow 0.50 0.02 0.67 0.31)%float
                  ltac:(repeat constructor) eq_refl
                  ltac:(right; right; left; reflexivity)
                  ltac:(vm_compute; tauto))).
  reflexivity.
Defined.

(** X9.  The row of the table with the largest breakpoint decides every
    tariff above it: a light or truck tariff greater than that
    breakpoint gets exactly that row's three probabilities.  With the
    multiplier above one this is where the truck columns end up first. *)
Theorem calcular_resultados_above_table (SV : SortValues float)
    (df_prob : list (ProbRow float)) (tarifa_grid_liv : list float)
    (tpda_liv tpda_cam mult_cam dist_km : float)
    (rows : list (ResultRow float)) :
  nonan (map pkm df_prob) ->
  calcular_resultados df_prob tarifa_grid_liv
    tpda_liv tpda_cam mult_cam dist_km = Ok rows ->
  exists t,
    In t df_prob /\
    (forall t', In t' df_prob -> (pkm t' <=? pkm t)%float = true) /\
    forall r, In r rows ->
      ((pkm t <? tarifa_usd_km_livianos r)%float = true ->
       pr_rv_liv r = pr_rv t /\ pr_mix_liv r = pr_mix t /\
       pr_int_liv r = pr_int t) /\
      ((pkm t <? tarifa_usd_km_camiones r)%float = true ->
       pr_rv_cam r = pr_rv t /\ pr_mix_cam r = pr_mix t /\
       pr_int_cam r = pr_int t).
Proof.
  intros Hn Hok.
  destruct (calcular_resultados_inv _ _ _ _ _ _ _ Hok) as (Hne & _ & Hrows).
  destruct df_prob as [|t0 df']; [congruence|].
  set (df := t0 :: df') in *.
  set (used := drop_duplicates (sort_values df)) in *.
  destruct (@prepared_last_max float Binary64 Binary64_laws SV df t0 Hne Hn)
    as (Hin & Hmax).
  fold used in Hin, Hmax.
  assert (Hu : used <> [])
    by (apply (@sorted_table_nonempty float Binary64 SV); exact Hne).
  exists (last used t0). split; [exact Hin|]. split; [exact Hmax|].
  intros r Hr. rewrite Forall_forall in Hrows. specialize (Hrows r Hr).
  destruct Hrows as [_ _ [j1 H1] [j2 H2] [j3 H3] [j4 H4] [j5 H5] [j6 H6]
                     _ _ _ _ _ _ _ _ _ _ _ _].
  pose proof (fun f j x =>
                @interp_at_last_row float Binary64 Binary64_laws f used t0
                  j x Hu) as Hlast.
  split; intros E.
  - rewrite (Hlast _ _ _ E) in H1. rewrite (Hlast _ _ _ E) in H2.
    rewrite (Hlast _ _ _ E) in H3. auto.
  - rewrite (Hlast _ _ _ E) in H4. rewrite (Hlast _ _ _ E) in H5.
    rewrite (Hlast _ _ _ E) in H6. auto.
Qed.

Lemma calcular_resultados_above_table_witness :
  exists t,
    In t tabla_probabilidades_base /\
    (forall t', In t' tabla_probabilidades_base ->
       (pkm t' <=? pkm t)%float = true) /\
    forall r, In r resultados_base_ejemplo ->
      ((pkm t <? tarifa_usd_km_livianos r)%float = true ->
       pr_rv_liv r = pr_rv t /\ pr_mix_liv r = pr_mix t /\
       pr_int_liv r = pr_int t) /\
      ((pkm t <? tarifa_usd_km_camiones r)%float = true ->
       pr_rv_cam r = pr_rv t /\ pr_mix_cam r = pr_mix t /\
       pr_int_cam r = pr_int t).
Proof.
  apply (calcular_resultados_above_table StableSort
           tabla_probabilidades_base grid_ejemplo tpda_liv_base
           tpda_cam_base mult_cam_base dist_km_base resultados_base_ejemplo).
  - repeat constructor.
  - reflexivity.
Defined.

(** X10.  The engine fails on the empty table only, and then with
    [IndexError]: on every table with a row it returns a result,
    whatever the numbers in the table, the grid and the scenario. *)
Theorem calcular_resultados_raises (SV : SortValues float)
    (df_prob : list (ProbRow float)) (tarifa_grid_liv : list float)
    (tpda_liv tpda_cam mult_cam dist_km : float) (e : PyExc) :
  calcular_resultados df_prob tarifa_grid_liv
    tpda_liv tpda_cam mult_cam dist_km = Raise e <->
  df_prob = [] /\ e = IndexError.
Proof.
  split.
  - intros H. destruct df_prob as [|t df].
    + rewrite calcular_resultados_empty_table in H. now injection H as <-.
    + destruct (calcular_resultados_rows (t :: df) tarifa_grid_liv
                  tpda_liv tpda_cam mult_cam dist_km ltac:(discriminate))
        as (rows & Hok & _).
      congruence.
  - intros [-> ->]. apply calcular_resultados_empty_table.
Qed.

Lemma calcular_resultados_raises_witness :
  calcular_resultados (SV := StableSort) [] grid_ejemplo
    tpda_liv_base tpda_cam_base mult_cam_base dist_km_base =
  Raise IndexError.
Proof.
  apply (proj2 (calcular_resultados_raises StableSort [] grid_ejemplo
                  tpda_liv_base tpda_cam_base mult_cam_base dist_km_base
                  IndexError)).
  split; reflexivity.
Defined.

(* ================================================================= *)
(** ** Lines 279-282: what the three indicators report *)

Section Indicators.
Context {A : Type} {N : Num A} {L : NumLaws A}.
Context {NI : NegInf A} {NL : NegInfLaws A}.

(** What [idxmax] has found when [idx_max] returns. *)
Lemma idx_max_inv (rows : list (ResultRow A)) (k : nat) :
  idx_max rows = Ok k ->
  (exists r, In r rows /\ nisnan (recaud_total_usd_dia r) = false) /\
  exists fv,
    argmax_inv (map fill_value (map recaud_total_usd_dia rows)) fv k.
Proof.
  unfold idx_max. intros H.
  destruct (idxmax (map recaud_total_usd_dia rows)) as [[k'|]|e] eqn:E;
    cbn in H; try discriminate.
  injection H as <-.
  destruct (idxmax_inv _ _ E) as ((w & Hw & Hn) & Hinv).
  split; [|exact Hinv].
  apply in_map_iff in Hw as (r & <- & Hr). now exists r.
Qed.

(** What the column holds when [idx_max] fails. *)
Lemma idx_max_raise_inv (rows : list (ResultRow A)) (e : PyExc) :
  idx_max rows = Raise e ->
  e = ValueError /\
  forall r, In r rows -> nisnan (recaud_total_usd_dia r) = true.
Proof.
  unfold idx_max. intros H.
  destruct (idxmax (map recaud_total_usd_dia rows)) as [[k'|]|e'] eqn:E;
    cbn in H; try discriminate.
  - injection H as <-. split; [reflexivity|].
    intros r Hr. apply (idxmax_none _ E). now apply in_map.
  - injection H as <-. destruct (idxmax_raise _ _ E) as (Hnil & ->).
    split; [reflexivity|].
    destruct rows; [intros ? []|discriminate].
Qed.

(** The lookups of lines 280-282 cannot fail once line 279 has
    returned; the row they read holds the first largest entry of the
    filled column. *)
Lemma kpis_inv (rows : list (ResultRow A)) (k : nat) :
  idx_max rows = Ok k ->
  exists r,
    nth_error rows k = Some r /\
    kpis rows = Ok (tarifa_usd_km_livianos r, recaud_total_usd_dia r,
                    recaud_total_usd_anio r) /\
    (exists r', In r' rows /\ nisnan (recaud_total_usd_dia r') = false) /\
    (forall r', In r' rows ->
       nleb (fill_value (recaud_total_usd_dia r'))
            (fill_value (recaud_total_usd_dia r)) = true) /\
    (forall j r', (j < k)%nat -> nth_error rows j = Some r' ->
       nltb (fill_value (recaud_total_usd_dia r'))
            (fill_value (recaud_total_usd_dia r)) = true).
Proof.
  intros H.
  destruct (idx_max_inv rows k H) as (Hex & fv & Hk & Hmax & Hfirst).
  rewrite !nth_error_map in Hk.
  destruct (nth_error rows k) as [r|] eqn:Er; [|discriminate].
  cbn in Hk. injection Hk as <-.
  exists r. split; [reflexivity|].
  split; [exact (kpis_at rows k r H Er)|].
  split; [exact Hex|]. split.
  - intros r' Hr'. destruct (In_nth_error _ _ Hr') as (j & Hj).
    apply (Hmax j). now rewrite !nth_error_map, Hj.
  - intros j r' Hlt Hj. apply (Hfirst j); [assumption|].
    now rewrite !nth_error_map, Hj.
Qed.

(** With a total above [-inf] in the column, the reported row holds a
    number that no number of the column exceeds. *)
Lemma kpis_number (rows : list (ResultRow A)) (r : ResultRow A) :
  (forall r', In r' rows ->
     nleb (fill_value (recaud_total_usd_dia r'))
          (fill_value (recaud_total_usd_dia r)) = true) ->
  (exists r', In r' rows /\
     nltb nneginf (recaud_total_usd_dia r') = true) ->
  nisnan (recaud_total_usd_dia r) = false /\
  forall r', In r' rows -> nisnan (recaud_total_usd_dia r') = false ->
    nleb (recaud_total_usd_dia r') (recaud_total_usd_dia r) = true.
Proof.
  intros Hmax (r0 & Hr0 & Hlt).
  assert (Hn : nisnan (recaud_total_usd_dia r) = false).
  { destruct (nisnan (recaud_total_usd_dia r)) eqn:E; [exfalso|reflexivity].
    pose proof (Hmax r0 Hr0) as Hle.
    destruct (nltb_not_nan _ _ Hlt) as [_ Hn0].
    rewrite (fill_value_number _ Hn0) in Hle.
    unfold fill_value in Hle. rewrite E in Hle.
    rewrite (nltb_not_nleb _ _ Hlt) in Hle. discriminate. }
  split; [exact Hn|]. intros r' Hr' Hn'.
  rewrite <- (fill_value_number _ Hn'), <- (fill_value_number _ Hn).
  now apply Hmax.
Qed.

Lemma kpis_raise_inv (rows : list (ResultRow A)) (e : PyExc) :
  kpis rows = Raise e -> idx_max rows = Raise e.
Proof.
  intros H. destruct (idx_max rows) as [k|e'] eqn:Ek.
  - destruct (kpis_inv rows k Ek) as (r & _ & Hok & _). congruence.
  - unfold kpis in H. rewrite Ek in H. cbn [bind] in H.
    now injection H as ->.
Qed.

End Indicators.

(** X11.  Whenever line 279 returns an index, the three lookups that
    follow succeed and report one and the same row, and the column has
    a total that is a number.  With every NaN total read as [-inf], the
    way pandas reads it, no row has a larger total than the reported one
    and every earlier row has a strictly smaller one.  When some total
    of the column is above [-inf], the reported total is a number and no
    number of the column exceeds it. *)
Theorem kpis_reports_maximum (rows : list (ResultRow float)) (k : nat) :
  idx_max rows = Ok k ->
  exists r,
    nth_error rows k = Some r /\
    kpis rows = Ok (tarifa_usd_km_livianos r, recaud_total_usd_dia r,
                    recaud_total_usd_anio r) /\
    (exists r', In r' rows /\
       PrimFloat.is_nan (recaud_total_usd_dia r') = false) /\
    (forall r', In r' rows ->
       (fill_value (recaud_total_usd_dia r') <=?
        fill_value (recaud_total_usd_dia r))%float = true) /\
    (forall j r', (j < k)%nat -> nth_error rows j = Some r' ->
       (fill_value (recaud_total_usd_dia r') <?
        fill_value (recaud_total_usd_dia r))%float = true) /\
    ((exists r', In r' rows /\
        (neg_infinity <? recaud_total_usd_dia r')%float = true) ->
     PrimFloat.is_nan (recaud_total_usd_dia r) = false /\
     forall r', In r' rows ->
       PrimFloat.is_nan (recaud_total_usd_dia r') = false ->
       (recaud_total_usd_dia r' <=? recaud_total_usd_dia r)%float = true).
Proof.
  intros H.
  destruct (@kpis_inv float Binary64 Binary64_laws Binary64_neginf
              Binary64_neginf_laws rows k H)
    as (r & Hr & Hk & Hex & Hmax & Hfirst).
  exists r. repeat (split; [assumption|]).
  exact (kpis_number rows r Hmax).
Qed.

Lemma kpis_reports_maximum_witness :
  exists r,
    nth_error resultados_base_ejemplo 1 = Some r /\
    kpis resultados_base_ejemplo =
      Ok (tarifa_usd_km_livianos r, recaud_total_usd_dia r,
          recaud_total_usd_anio r) /\
    (exists r', In r' resultados_base_ejemplo /\
       PrimFloat.is_nan (recaud_total_usd_dia r') = false) /\
    (forall r', In r' resultados_base_ejemplo ->
       (fill_value (recaud_total_usd_dia r') <=?
        fill_value (recaud_total_usd_dia r))%float = true) /\
    (forall j r', (j < 1)%nat ->
       nth_error resultados_base_ejemplo j = Some r' ->
       (fill_value (recaud_total_usd_dia r') <?
        fill_value (recaud_total_usd_dia r))%float = true) /\
    ((exists r', In r' resultados_base_ejemplo /\
        (neg_infinity <? recaud_total_usd_dia r')%float = true) ->
     PrimFloat.is_nan (recaud_total_usd_dia r) = false /\
     forall r', In r' resultados_base_ejemplo ->
       PrimFloat.is_nan (recaud_total_usd_dia r') = false ->
       (recaud_total_usd_dia r' <=? recaud_total_usd_dia r)%float = true).
Proof.
  apply (kpis_reports_maximum resultados_base_ejemplo 1). reflexivity.
Defined.

(** X12.  The indicators fail with [ValueError] only, never with the
    [IndexError] of a lookup, and only when no row of the result has a
    daily total that is a number (in particular when there is no row). *)
Theorem kpis_failure (rows : list (ResultRow float)) (e : PyExc) :
  kpis rows = Raise e ->
  e = ValueError /\
  idx_max rows = Raise ValueError /\
  forall r, In r rows -> PrimFloat.is_nan (recaud_total_usd_dia r) = true.
Proof.
  intros H.
  apply (@kpis_raise_inv float Binary64 Binary64_laws Binary64_neginf
           Binary64_neginf_laws) in H.
  destruct (@idx_max_raise_inv float Binary64 Binary64_laws Binary64_neginf
              Binary64_neginf_laws rows e H)
    as (-> & Hall).
  auto.
Qed.

(** The base table at a tariff so high that tariff times distance
    overflows. *)
Definition resultados_base_enorme : list (ResultRow float) :=
  match calcular_resultados (SV := StableSort) tabla_probabilidades_base
          [1e308%float] tpda_liv_base tpda_cam_base mult_cam_base
          dist_km_base with
  | Ok rows => rows
  | Raise _ => []
  end.

Lemma kpis_failure_witness :
  ValueError = ValueError /\
  idx_max resultados_base_enorme = Raise ValueError /\
  forall r, In r resultados_base_enorme ->
    PrimFloat.is_nan (recaud_total_usd_dia r) = true.
Proof.
  apply (kpis_failure resultados_base_enorme ValueError). reflexivity.
Defined.

(** X13.  On a table the engine returned, the reported tariff is a point
    of the tariff grid, and the annual indicator is 365 times the daily
    one, both read from one row, whose daily total is the sum of its
    light and truck revenues.  When some total of the table is above
    [-inf], the daily indicator is a number. *)
Theorem kpis_of_calcular_resultados (SV : SortValues float)
    (df_prob : list (ProbRow float)) (tarifa_grid_liv : list float)
    (tpda_liv tpda_cam mult_cam dist_km : float)
    (rows : list (ResultRow float))
    (tarifa_opt recaud_max_dia recaud_max_anio : float) :
  calcular_resultados df_prob tarifa_grid_liv
    tpda_liv tpda_cam mult_cam dist_km = Ok rows ->
  kpis rows = Ok (tarifa_opt, recaud_max_dia, recaud_max_anio) ->
  In tarifa_opt tarifa_grid_liv /\
  recaud_max_anio = (recaud_max_dia * 365)%float /\
  ((exists r, In r rows /\
      (neg_infinity <? recaud_total_usd_dia r)%float = true) ->
   PrimFloat.is_nan recaud_max_dia = false) /\
  exists r, In r rows /\
    tarifa_usd_km_livianos r = tarifa_opt /\
    recaud_max_dia = (recaud_liv_usd_dia r + recaud_cam_usd_dia r)%float.
Proof.
  intros Hok Hk.
  destruct (calcular_resultados_inv _ _ _ _ _ _ _ Hok) as (_ & Hgrid & Hrows).
  destruct (idx_max rows) as [k|e] eqn:Ek.
  2:{ unfold kpis in Hk. rewrite Ek in Hk. discriminate. }
  destruct (@kpis_inv float Binary64 Binary64_laws Binary64_neginf
              Binary64_neginf_laws rows k Ek)
    as (r & Hr & Hk' & _ & Hmax & _).
  rewrite Hk in Hk'. injection Hk' as -> -> ->.
  apply nth_error_In in Hr.
  rewrite Forall_forall in Hrows. specialize (Hrows r Hr).
  split; [rewrite <- Hgrid; now apply in_map|].
  split; [apply (ok_recaud_total_anio _ _ _ _ _ _ _ _ _ Hrows)|].
  split.
  - intros Hex.
    exact (proj1 (kpis_number rows r Hmax Hex)).
  - exists r. split; [assumption|]. split; [reflexivity|].
    apply (ok_recaud_total_dia _ _ _ _ _ _ _ _ _ Hrows).
Qed.

Lemma kpis_of_calcular_resultados_witness :
  In 0.25%float grid_ejemplo /\
  10789969.400000002%float = (29561.560000000005 * 365)%float /\
  ((exists r, In r resultados_base_ejemplo /\
      (neg_infinity <? recaud_total_usd_dia r)%float = true) ->
   PrimFloat.is_nan 29561.560000000005%float = false) /\
  exists r, In r resultados_base_ejemplo /\
    tarifa_usd_km_livianos r = 0.25%float /\
    29561.560000000005%float =
    (recaud_liv_usd_dia r + recaud_cam_usd_dia r)%float.
Proof.
  apply (kpis_of_calcular_resultados StableSort tabla_probabilidades_base
           grid_ejemplo tpda_liv_base tpda_cam_base mult_cam_base
           dist_km_base resultados_base_ejemplo).
  - reflexivity.
  - reflexivity.
Defined.

(* ================================================================= *)
(** ** A tariff of zero *)

Section Binary64Products.
Local Open Scope float_scope.

Lemma sf_is_finite (x : float) :
  (exists s, Prim2SF x = S754_zero s) \/
  (exists s m e, Prim2SF x = S754_finite s m e) ->
  PrimFloat.is_finite x = true.
Proof.
  unfold PrimFloat.is_finite, PrimFloat.is_infinity.
  rewrite negb_true_iff, orb_false_iff, is_nan_sf, eqb_spec, abs_spec.
  change (Prim2SF infinity) with (S754_infinity false).
  intros [[s ->]|(s & m & e & ->)]; split; reflexivity.
Qed.

Lemma mul_finite_zero (a b : float) :
  PrimFloat.is_finite a = true -> PrimFloat.is_zero b = true ->
  PrimFloat.is_zero (a * b) = true.
Proof.
  intros Ha Hb. apply is_zero_sf in Hb as [s Hb].
  apply is_zero_sf. rewrite mul_spec, Hb. unfold SF64mul.
  destruct (is_finite_sf a Ha) as [[sa ->]|(sa & m & e & ->)];
    cbn; eauto.
Qed.

(** A quotient that is zero: the dividend is finite and zero divided by
    the same divisor is zero as well. *)
Lemma div_zero_inv (a b z : float) :
  PrimFloat.is_zero (a / b) = true -> PrimFloat.is_zero z = true ->
  PrimFloat.is_finite a = true /\ PrimFloat.is_zero (z / b) = true.
Proof.
  intros H Hz. apply is_zero_sf in Hz as [sz Hz].
  apply is_zero_sf in H as [s H]. rewrite div_spec in H.
  rewrite is_zero_sf, div_spec, Hz. unfold SF64div in *.
  destruct (Prim2SF a) as [sa|sa| |sa ma ea] eqn:Ea;
    destruct (Prim2SF b) as [sb|sb| |sb mb eb] eqn:Eb;
    try (exfalso; cbn in H; discriminate);
    (split; [apply sf_is_finite; eauto 6|cbn; eauto]).
Qed.

End Binary64Products.

(** X14.  A light tariff of zero collects nothing: in a row whose light
    tariff is zero the six revenue columns are zero, provided the
    distance, the multiplier and the two expected quantities on the
    tolled route are finite numbers. *)
Theorem tarifa_cero_sin_recaudacion (SV : SortValues float)
    (df_prob : list (ProbRow float)) (tarifa_grid_liv : list float)
    (tpda_liv tpda_cam mult_cam dist_km : float)
    (rows : list (ResultRow float)) (r : ResultRow float) :
  calcular_resultados df_prob tarifa_grid_liv
    tpda_liv tpda_cam mult_cam dist_km = Ok rows ->
  In r rows ->
  PrimFloat.is_zero (tarifa_usd_km_livianos r) = true ->
  PrimFloat.is_finite mult_cam = true ->
  PrimFloat.is_finite dist_km = true ->
  PrimFloat.is_finite (Q_rv_liv_veh_dia r) = true ->
  PrimFloat.is_finite (Q_rv_cam_veh_dia r) = true ->
  PrimFloat.is_zero (tarifa_usd_km_camiones r) = true /\
  PrimFloat.is_zero (recaud_liv_usd_dia r) = true /\
  PrimFloat.is_zero (recaud_cam_usd_dia r) = true /\
  PrimFloat.is_zero (recaud_total_usd_dia r) = true /\
  PrimFloat.is_zero (recaud_liv_usd_anio r) = true /\
  PrimFloat.is_zero (recaud_cam_usd_anio r) = true /\
  PrimFloat.is_zero (recaud_total_usd_anio r) = true.
Proof.
  intros Hok Hr Hp Hm Hd Hql Hqc.
  destruct (calcular_resultados_inv _ _ _ _ _ _ _ Hok) as (_ & _ & Hrows).
  rewrite Forall_forall in Hrows. specialize (Hrows r Hr).
  destruct Hrows as [Hpc _ _ _ _ _ _ _ _ _ _ _ _ _
                     Hl Hc Ht Hla Hca Hta].
  simpl in Hpc, Hl, Hc, Ht, Hla, Hca, Hta.
  assert (Z1 : PrimFloat.is_zero (tarifa_usd_km_camiones r) = true)
    by (rewrite Hpc; now apply mul_zero_finite).
  assert (Z2 : PrimFloat.is_zero (recaud_liv_usd_dia r) = true).
  { rewrite Hl. apply mul_finite_zero; [assumption|].
    now apply mul_zero_finite. }
  assert (Z3 : PrimFloat.is_zero (recaud_cam_usd_dia r) = true).
  { rewrite Hc. apply mul_finite_zero; [assumption|].
    now apply mul_zero_finite. }
  assert (Z4 : PrimFloat.is_zero (recaud_total_usd_dia r) = true)
    by (rewrite Ht; now apply add_zero_zero).
  repeat split; try assumption.
  - rewrite Hla. now apply mul_zero_finite.
  - rewrite Hca. now apply mul_zero_finite.
  - rewrite Hta. now apply mul_zero_finite.
Qed.

Lemma tarifa_cero_sin_recaudacion_witness :
  exists r0 r1 r2,
    resultados_base_ejemplo = [r0; r1; r2] /\
    PrimFloat.is_zero (tarifa_usd_km_camiones r0) = true /\
    PrimFloat.is_zero (recaud_liv_usd_dia r0) = true /\
    PrimFloat.is_zero (recaud_cam_usd_dia r0) = true /\
    PrimFloat.is_zero (recaud_total_usd_dia r0) = true /\
    PrimFloat.is_zero (recaud_liv_usd_anio r0) = true /\
    PrimFloat.is_zero (recaud_cam_usd_anio r0) = true /\
    PrimFloat.is_zero (recaud_total_usd_anio r0) = true.
Proof.
  do 3 eexists. split; [reflexivity|].
  apply (tarifa_cero_sin_recaudacion StableSort tabla_probabilidades_base
           grid_ejemplo tpda_liv_base tpda_cam_base mult_cam_base
           dist_km_base resultados_base_ejemplo);
    solve [reflexivity | left; reflexivity].
Defined.

(* ================================================================= *)
(** ** [np.linspace] and the tariff grid *)

Section LinspaceShape.
Context {A : Type} {N : Num A}.

Lemma set_last_length (stop : A) (y : list A) :
  length (set_last stop y) = length y.
Proof.
  induction y as [|a y IH]; [reflexivity|].
  destruct y as [|b y]; [reflexivity|].
  change (S (length (set_last stop (b :: y))) = S (length (b :: y))).
  now rewrite IH.
Qed.

Lemma set_last_last (stop d : A) (y : list A) :
  y <> [] -> last (set_last stop y) d = stop.
Proof.
  induction y as [|a y IH]; intros Hne; [congruence|].
  destruct y as [|b y]; [reflexivity|].
  change (last (a :: set_last stop (b :: y)) d = stop).
  assert (Hs : set_last stop (b :: y) <> []).
  { intros E. apply (f_equal (@length A)) in E.
    rewrite set_last_length in E. discriminate. }
  destruct (set_last stop (b :: y)) as [|c l] eqn:E; [congruence|].
  change (last (c :: l) d = stop). apply IH. discriminate.
Qed.

Lemma set_last_hd (stop d : A) (y : list A) :
  (2 <= length y)%nat -> hd d (set_last stop y) = hd d y.
Proof.
  destruct y as [|a [|b y]]; simpl; intros H; try lia. reflexivity.
Qed.

Lemma arange_length (num : Z) : length (arange (A := A) num) = Z.to_nat num.
Proof.
  unfold arange. now rewrite length_map, length_seq.
Qed.

(** The samples before the last one is overwritten. *)
Definition linspace_raw (start stop : A) (num : Z) : list A :=
  let div := (num - 1)%Z in
  let delta := (stop - start)%num in
  map (fun v => (v + start)%num)
    (if (div >? 0)%Z then
       if (delta / nofZ div =? nofZ 0)%num
       then map (fun v => (v / nofZ div * delta)%num) (arange num)
       else map (fun v => (v * (delta / nofZ div))%num) (arange num)
     else map (fun v => (v * delta)%num) (arange num)).

Lemma linspace_raw_length (start stop : A) (num : Z) :
  length (linspace_raw start stop num) = Z.to_nat num.
Proof.
  unfold linspace_raw. rewrite length_map.
  destruct (num - 1 >? 0)%Z;
    [destruct (neqb _ _)|];
    now rewrite length_map, arange_length.
Qed.

Lemma linspace_unfold (start stop : A) (num : Z) :
  0 <= num ->
  linspace start stop num =
  Ok (if (num >? 1)%Z then set_last stop (linspace_raw start stop num)
      else linspace_raw start stop num).
Proof.
  intros H. unfold linspace, linspace_raw.
  destruct (Z.ltb_spec num 0); [lia|reflexivity].
Qed.

Lemma linspace_length (start stop : A) (num : Z) :
  0 <= num ->
  exists grid,
    linspace start stop num = Ok grid /\ length grid = Z.to_nat num /\
    (2 <= num -> forall d, last grid d = stop).
Proof.
  intros H. rewrite (linspace_unfold start stop num H).
  eexists. split; [reflexivity|]. split.
  - destruct (num >? 1)%Z;
      [rewrite set_last_length|]; apply linspace_raw_length.
  - intros H2 d. destruct (Z.gtb_spec num 1); [|lia].
    apply set_last_last. intros E.
    apply (f_equal (@length A)) in E.
    rewrite linspace_raw_length in E. simpl in E. lia.
Qed.

End LinspaceShape.

(** X15.  [np.linspace(start, stop, num)] fails on a negative [num]
    with [ValueError] and otherwise returns exactly [num] samples; from
    two samples on, the last one is [stop] itself, not a rounded sum. *)
Theorem linspace_shape (start stop : float) (num : Z) :
  (num < 0 -> linspace start stop num = Raise ValueError) /\
  (0 <= num ->
   exists grid,
     linspace start stop num = Ok grid /\
     length grid = Z.to_nat num /\
     (2 <= num -> last grid 0%float = stop)).
Proof.
  split.
  - intros H. unfold linspace. destruct (Z.ltb_spec num 0); [reflexivity|lia].
  - intros H. destruct (linspace_length start stop num H)
      as (grid & Hg & Hl & Hlast).
    exists grid. auto.
Qed.

Lemma linspace_shape_witness :
  linspace 0.0%float 0.8%float (-1) = Raise ValueError /\
  exists grid,
    linspace 0.0%float 0.8%float 17 = Ok grid /\
    length grid = 17%nat /\
    (2 <= 17 -> last grid 0%float = 0.8%float).
Proof.
  split.
  - apply (proj1 (linspace_shape 0.0%float 0.8%float (-1))). lia.
  - apply (proj2 (linspace_shape 0.0%float 0.8%float 17)). lia.
Defined.

(** X16.  From two samples on, the first sample of [np.linspace] equals
    [start] as a float ([==]) whenever [start] is not NaN and the step
    [(stop - start) / (num - 1)] is a finite number, in both branches of
    the code (step rounded to zero or not). *)
Theorem linspace_first (start stop : float) (num : Z) (grid : list float) :
  2 <= num ->
  linspace start stop num = Ok grid ->
  PrimFloat.is_finite ((stop - start) / float_of_Z (num - 1)) = true ->
  PrimFloat.is_nan start = false ->
  (hd 0 grid =? start)%float = true.
Proof.
  intros H2 Hg Hstep Hstart.
  rewrite (linspace_unfold start stop num ltac:(lia)) in Hg.
  destruct (Z.gtb_spec num 1); [|lia].
  injection Hg as <-.
  rewrite set_last_hd
    by (rewrite linspace_raw_length; apply Nat2Z.inj_le; rewrite Z2Nat.id; lia).
  unfold linspace_raw, arange.
  destruct (Z.to_nat num) as [|n] eqn:En; [lia|].
  destruct (Z.gtb_spec (num - 1) 0); [|lia].
  cbn [seq map hd Z.of_nat nofZ Binary64 float_of_Z nadd nmul ndiv nsub neqb].
  match goal with
  | |- context [if ?c then _ else _] => destruct c eqn:Ez
  end;
    cbn [map hd];
    apply add_zero_l; try assumption.
  - destruct (div_zero_inv (stop - start) (float_of_Z (num - 1)) 0 Ez eq_refl)
      as (Hd & Hz).
    now apply mul_zero_finite.
  - now apply mul_zero_finite.
Qed.

(** The tariff grid of the base scenario:
    [np.linspace(0.00, 0.80, 17)]. *)
Definition tarifa_grid_base : list float :=
  match linspace 0.00%float 0.80%float 17 with
  | Ok grid => grid
  | Raise _ => []
  end.

Lemma linspace_first_witness :
  (hd 0 tarifa_grid_base =? 0.00)%float = true.
Proof.
  apply (linspace_first 0.00%float 0.80%float 17 tarifa_grid_base);
    [lia|reflexivity|reflexivity|reflexivity].
Defined.

(* ================================================================= *)
(** ** The script: grid and engine together *)

Lemma last_map_any {X Y : Type} (f : X -> Y) (l : list X) (d : X) (d' : Y) :
  l <> [] -> last (map f l) d' = f (last l d).
Proof.
  induction l as [|a l IH]; intros Hne; [congruence|].
  destruct l as [|b l]; [reflexivity|].
  change (last (map f (b :: l)) d' = f (last (b :: l) d)).
  apply IH. discriminate.
Qed.

Section ScriptRows.
Context {A : Type} {N : Num A} {SV : SortValues A}.

Lemma resultados_ok (df_prob : list (ProbRow A))
    (tpda_liv tpda_bus tpda_pes mult_cam dist_km pmin pmax : A) (npts : Z) :
  0 <= npts -> df_prob <> [] ->
  exists rows,
    resultados df_prob tpda_liv tpda_bus tpda_pes mult_cam dist_km
      pmin pmax npts = Ok rows /\
    length rows = Z.to_nat npts /\
    (2 <= npts ->
     forall d,
       last (map tarifa_usd_km_livianos rows) d = pmax /\
       last (map tarifa_usd_km_camiones rows) d = (pmax * mult_cam)%num).
Proof.
  intros Hn Hne. unfold resultados.
  destruct (linspace_length pmin pmax npts Hn) as (grid & -> & Hl & Hlast).
  cbn [bind].
  destruct (calcular_resultados_rows df_prob grid tpda_liv
              (tpda_bus + tpda_pes)%num mult_cam dist_km Hne)
    as (rows & -> & Hgrid & Hrows).
  exists rows. split; [reflexivity|]. split.
  - rewrite <- Hl, <- Hgrid. now rewrite length_map.
  - intros H2 d. split; [rewrite Hgrid; now apply Hlast|].
    assert (E : map tarifa_usd_km_camiones rows =
                map (fun p => (p * mult_cam)%num) grid).
    { rewrite <- Hgrid, map_map. apply map_ext_in. intros r Hr.
      rewrite Forall_forall in Hrows.
      apply (ok_p_cam _ _ _ _ _ _ _ _ _ (Hrows r Hr)). }
    rewrite E.
    assert (Hg : grid <> []).
    { intros ->. simpl in Hl. lia. }
    rewrite (last_map_any _ grid d d Hg). f_equal. now apply Hlast.
Qed.

End ScriptRows.

(** X17.  The script, from the sidebar values to the result table: a
    negative number of points stops it with [ValueError] before the
    engine runs, an empty table with [IndexError]; otherwise the table
    has exactly [npts] rows, and from two points on its last row carries
    the light tariff [pmax] itself and the truck tariff
    [pmax * mult_cam]. *)
Theorem resultados_rows (SV : SortValues float)
    (df_prob : list (ProbRow float))
    (tpda_liv tpda_bus tpda_pes mult_cam dist_km pmin pmax : float)
    (npts : Z) :
  (npts < 0 ->
   resultados df_prob tpda_liv tpda_bus tpda_pes mult_cam dist_km
     pmin pmax npts = Raise ValueError) /\
  (0 <= npts -> df_prob = [] ->
   resultados df_prob tpda_liv tpda_bus tpda_pes mult_cam dist_km
     pmin pmax npts = Raise IndexError) /\
  (0 <= npts -> df_prob <> [] ->
   exists rows,
     resultados df_prob tpda_liv tpda_bus tpda_pes mult_cam dist_km
       pmin pmax npts = Ok rows /\
     length rows = Z.to_nat npts /\
     (2 <= npts ->
      last (map tarifa_usd_km_livianos rows) 0%float = pmax /\
      last (map tarifa_usd_km_camiones rows) 0%float =
        (pmax * mult_cam)%float)).
Proof.
  split; [|split].
  - intros H. unfold resultados, linspace.
    destruct (Z.ltb_spec npts 0); [reflexivity|lia].
  - intros H ->. unfold resultados.
    destruct (linspace_length pmin pmax npts H) as (grid & -> & _).
    cbn [bind]. apply calcular_resultados_empty_table.
  - intros H Hne.
    destruct (resultados_ok df_prob tpda_liv tpda_bus tpda_pes mult_cam
                dist_km pmin pmax npts H Hne) as (rows & Hok & Hl & Hlast).
    exists rows. split; [assumption|]. split; [assumption|].
    intros H2. apply (Hlast H2).
Qed.

Lemma resultados_rows_witness :
  resultados (SV := StableSort) tabla_probabilidades_base
    tpda_liv_base tpda_bus_base tpda_pes_base mult_cam_base dist_km_base
    0.00%float 0.80%float (-1) = Raise ValueError /\
  resultados (SV := StableSort) []
    tpda_liv_base tpda_bus_base tpda_pes_base mult_cam_base dist_km_base
    0.00%float 0.80%float 17 = Raise IndexError /\
  exists rows,
    resultados (SV := StableSort) tabla_probabilidades_base
      tpda_liv_base tpda_bus_base tpda_pes_base mult_cam_base dist_km_base
      0.00%float 0.80%float 17 = Ok rows /\
    length rows = 17%nat /\
    (2 <= 17 ->
     last (map tarifa_usd_km_livianos rows) 0%float = 0.80%float /\
     last (map tarifa_usd_km_camiones rows) 0%float =
       (0.80 * mult_cam_base)%float).
Proof.
  split; [|split].
  - apply (proj1 (resultados_rows StableSort tabla_probabilidades_base
                    tpda_liv_base tpda_bus_base tpda_pes_base mult_cam_base
                    dist_km_base 0.00%float 0.80%float (-1))). lia.
  - apply (proj1 (proj2 (resultados_rows StableSort []
                    tpda_liv_base tpda_bus_base tpda_pes_base mult_cam_base
                    dist_km_base 0.00%float 0.80%float 17)));
      [lia|reflexivity].
  - apply (proj2 (proj2 (resultados_rows StableSort
                    tabla_probabilidades_base
                    tpda_liv_base tpda_bus_base tpda_pes_base mult_cam_base
                    dist_km_base 0.00%float 0.80%float 17)));
      [lia|discriminate].
Defined.

(* ================================================================= *)
(** ** The session state: initialisation and reset *)

Section SessionState.

Lemma contains_getitem (k : String.string) (d : PyDict) :
  contains k d = match getitem k d with Some _ => true | None => false end.
Proof.
  unfold contains, getitem.
  induction d as [|[k' v'] d IH]; [reflexivity|].
  simpl. destruct (String.eqb k' k); [reflexivity|exact IH].
Qed.

Lemma getitem_setitem (k k' : String.string) (v : PyVal) (d : PyDict) :
  getitem k' (setitem k v d) =
  if String.eqb k k' then Some v else getitem k' d.
Proof.
  unfold getitem.
  induction d as [|[k0 v0] d IH]; simpl.
  - destruct (String.eqb k k'); reflexivity.
  - destruct (String.eqb_spec k0 k) as [->|Hne]; simpl.
    + destruct (String.eqb k k'); reflexivity.
    + destruct (String.eqb_spec k0 k') as [->|Hne'].
      * destruct (String.eqb_spec k k'); [congruence|reflexivity].
      * exact IH.
Qed.

Lemma getitem_cons (k k0 : String.string) (v0 : PyVal) (d : PyDict) :
  getitem k ((k0, v0) :: d) =
  if String.eqb k0 k then Some v0 else getitem k d.
Proof.
  unfold getitem. simpl. destruct (String.eqb k0 k); reflexivity.
Qed.

(** What the initialisation loop leaves under a key. *)
Lemma init_from_lookup (items : PyDict) : forall (st : PyDict) k,
  getitem k (init_from items st) =
  match getitem k st with
  | Some v => Some v
  | None => getitem k items
  end.
Proof.
  unfold init_from.
  induction items as [|[k0 v0] items IH]; intros st k.
  - simpl. destruct (getitem k st); reflexivity.
  - cbn [fold_left fst snd]. rewrite IH, contains_getitem, getitem_cons.
    destruct (getitem k0 st) as [w|] eqn:E0.
    + destruct (getitem k st) eqn:Ek; [reflexivity|].
      destruct (String.eqb_spec k0 k) as [->|Hne]; [congruence|reflexivity].
    + rewrite getitem_setitem.
      destruct (String.eqb_spec k0 k) as [->|Hne].
      * now rewrite E0.
      * destruct (getitem k st); reflexivity.
Qed.

(** What the reset loop leaves under a key. *)
Lemma reset_from_lookup (items : PyDict) : forall (st : PyDict) k,
  NoDup (keys items) ->
  getitem k (reset_from items st) =
  match getitem k items with
  | Some v => Some v
  | None => getitem k st
  end.
Proof.
  unfold reset_from.
  induction items as [|[k0 v0] items IH]; intros st k Hnd.
  - reflexivity.
  - inversion Hnd as [|? ? Hnin Hnd']. subst.
    cbn [fold_left fst snd].
    rewrite (IH _ _ Hnd'), getitem_setitem, getitem_cons.
    destruct (String.eqb_spec k0 k) as [->|Hne]; [|reflexivity].
    destruct (getitem k items) as [w|] eqn:E; [|reflexivity].
    exfalso. apply Hnin. unfold getitem in E.
    destruct (find _ items) as [[k1 v1]|] eqn:F; [|discriminate].
    apply find_some in F. destruct F as [Hin Hk]. simpl in Hk.
    apply String.eqb_eq in Hk. subst k1.
    unfold keys. change k with (fst (k, v1)). now apply in_map.
Qed.

(** The initialisation loop does nothing to a state that holds every
    key. *)
Lemma init_from_id (items : PyDict) : forall st : PyDict,
  (forall kv, In kv items -> contains (fst kv) st = true) ->
  init_from items st = st.
Proof.
  unfold init_from.
  induction items as [|kv items IH]; intros st H; [reflexivity|].
  simpl. rewrite (H kv (or_introl eq_refl)).
  apply IH. intros kv' Hin. apply H. now right.
Qed.

Lemma getitem_in (items : PyDict) (kv : String.string * PyVal) :
  In kv items -> getitem (fst kv) items <> None.
Proof.
  intros Hin. unfold getitem.
  destruct (find _ items) eqn:F; [discriminate|].
  pose proof (find_none _ _ F kv Hin) as Hf. simpl in Hf.
  now rewrite String.eqb_refl in Hf.
Qed.

Lemma DEFAULTS_keys : NoDup (keys DEFAULTS).
Proof.
  unfold keys, DEFAULTS. simpl.
  repeat (constructor; [simpl; intuition discriminate|]).
  constructor.
Qed.

End SessionState.

(** X18.  The initialisation of lines 45-47 fills in what is missing and
    nothing else: after it a key holds the value the session already
    had, or else its value in [DEFAULTS]; a key that is in neither stays
    absent.  Running it again, as every rerun of the script does,
    changes nothing. *)
Theorem init_session_state_lookup (session_state : PyDict)
    (k : String.string) :
  getitem k (init_session_state session_state) =
  match getitem k session_state with
  | Some v => Some v
  | None => getitem k DEFAULTS
  end /\
  init_session_state (init_session_state session_state) =
  init_session_state session_state.
Proof.
  split; [apply init_from_lookup|].
  apply init_from_id. intros kv Hin.
  rewrite contains_getitem. unfold init_session_state.
  rewrite init_from_lookup.
  destruct (getitem (fst kv) session_state); [reflexivity|].
  pose proof (getitem_in DEFAULTS kv Hin).
  destruct (getitem (fst kv) DEFAULTS); [reflexivity|congruence].
Qed.

(** X19.  The reset button of lines 203-205 puts every key of
    [DEFAULTS] back to its base value, whatever the session held, and
    leaves every other key of the session as it was; the initialisation
    that runs on the following rerun has nothing left to do. *)
Theorem reset_session_state_lookup (session_state : PyDict)
    (k : String.string) :
  getitem k (reset_session_state session_state) =
  match getitem k DEFAULTS with
  | Some v => Some v
  | None => getitem k session_state
  end /\
  init_session_state (reset_session_state session_state) =
  reset_session_state session_state.
Proof.
  split; [apply reset_from_lookup, DEFAULTS_keys|].
  apply init_from_id. intros kv Hin.
  rewrite contains_getitem. unfold reset_session_state.
  rewrite (reset_from_lookup _ _ _ DEFAULTS_keys).
  pose proof (getitem_in DEFAULTS kv Hin).
  destruct (getitem (fst kv) DEFAULTS); [reflexivity|congruence].
Qed.

(* ================================================================= *)
(** ** The layout of the charts *)

(** X20.  Whatever the vehicle-type selection holds, no layout column
    receives two charts, neither in the demand section nor in a revenue
    tab, no series is drawn twice, and the total-revenue chart is
    always drawn. *)
Theorem curvas_sin_solape (tipo_vehiculo : String.string) :
  NoDup (map fst (curvas_demanda tipo_vehiculo)) /\
  NoDup (map fst (curvas_recaudacion tipo_vehiculo)) /\
  NoDup (map snd (curvas_demanda tipo_vehiculo)) /\
  NoDup (map snd (curvas_recaudacion tipo_vehiculo)) /\
  In Total (map snd (curvas_recaudacion tipo_vehiculo)).
Proof.
  unfold curvas_demanda, curvas_recaudacion,
    muestra_livianos, muestra_camiones.
  cbn [existsb].
  destruct (String.eqb_spec tipo_vehiculo "Ambos") as [->|HA];
    [|destruct (String.eqb_spec tipo_vehiculo "Livianos") as [->|HL];
      [|destruct (String.eqb_spec tipo_vehiculo
                    "Camiones (buses + pesados)") as [->|HC]]];
    cbn; repeat split;
    try solve [simpl; auto 6];
    repeat (constructor; [simpl; intuition discriminate|]);
    constructor.
Qed.

(* ================================================================= *)
(** ** Binary64: flat stretches of the table *)

Section Segment.
Context {A : Type} {N : Num A} {L : NumLaws A}.

Lemma interp_at_segment (x_grid y_grid : list A) (j i : Z) (q : A) :
  ascending x_grid = true ->
  0 <= i -> i + 1 < Z.of_nat (length x_grid) ->
  nleb (get x_grid i) q = true -> nltb q (get x_grid (i + 1)) = true ->
  interp_at x_grid y_grid j q = on_segment x_grid y_grid i q.
Proof.
  intros Hasc Hi Hi1 Hle Hlt.
  assert (Hn : nonan x_grid) by (apply ascending_nonan; [assumption|lia]).
  destruct (nleb_not_nan _ _ Hle) as [_ Hq].
  assert (Hhi : nltb (get x_grid (Z.of_nat (length x_grid) - 1)) q = false).
  { apply nleb_not_nltb.
    destruct (Z.eq_dec (i + 1) (Z.of_nat (length x_grid) - 1)) as [E|E].
    - rewrite <- E. now apply nltb_nleb.
    - apply nleb_trans with (get x_grid (i + 1)); [now apply nltb_nleb|].
      apply ascending_get; [assumption|lia|lia]. }
  assert (Hlo : nltb q (get x_grid 0) = false).
  { apply nleb_not_nltb.
    destruct (Z.eq_dec i 0) as [->|E]; [assumption|].
    apply nleb_trans with (get x_grid i); [|assumption].
    apply ascending_get; [assumption|lia|lia]. }
  assert (Hs : binary_search_with_guess q x_grid
                 (Z.of_nat (length x_grid)) j = i).
  { pose proof (search_inside q x_grid j Hn Hq ltac:(lia) Hhi Hlo) as B.
    assert (B' : bracket q x_grid (Z.of_nat (length x_grid)) i).
    { split; [lia|]. split; [assumption|]. now right. }
    pose proof (bracket_unique _ _ _ _ Hasc B B').
    pose proof (bracket_unique _ _ _ _ Hasc B' B).
    lia. }
  unfold interp_at.
  destruct x_grid as [|x0 [|x1 xs]] eqn:Eg;
    [simpl in Hi1; lia|simpl in Hi1; lia|].
  rewrite <- Eg in *.
  unfold interp_one, on_segment. rewrite Hq, Hs.
  destruct (Z.eqb_spec i (-1)); [lia|].
  destruct (Z.eqb_spec i (Z.of_nat (length x_grid))); [lia|].
  destruct (Z.eqb_spec i (Z.of_nat (length x_grid) - 1)); [lia|].
  destruct (neqb (get x_grid i) q); [reflexivity|].
  cbv zeta.
  repeat match goal with
    | |- context [if ?c then _ else _] => destruct c
    end; reflexivity.
Qed.

End Segment.


(** X24.  On a stretch of the table where two neighbouring values are
    equal, a query between the two sample points is answered with a
    float equal to that value: the rounding of the slope formula cannot
    move it, and where the formula yields NaN (infinite values, an
    overflowing difference) NumPy's fallback returns the value
    itself.  The domain is ascending; the other queries of the batch do
    not matter. *)
Theorem interp_clamp_flat_segment (domain values xq ys : list float)
    (k : nat) (q : float) (i : Z) :
  ascending domain = true ->
  interp_clamp domain values xq = Ok ys ->
  nth_error xq k = Some q ->
  0 <= i -> i + 1 < Z.of_nat (length domain) ->
  (get domain i <=? q)%float = true ->
  (q <? get domain (i + 1))%float = true ->
  (get values i =? get values (i + 1))%float = true ->
  exists y, nth_error ys k = Some y /\ (y =? get values i)%float = true.
Proof.
  intros Hasc Hok Hk Hi Hi1 Hle Hlt He.
  destruct (interp_clamp_ok_inv _ _ _ _ Hok) as (Hne & Hlen).
  destruct (interp_clamp_nth domain values xq Hne Hlen)
    as (ys' & H & _ & Hnth).
  rewrite Hok in H. injection H as <-.
  destruct (Hnth k q Hk) as (j & Hy).
  eexists. split; [exact Hy|].
  rewrite (@interp_at_segment float Binary64 Binary64_laws
             domain values j i q Hasc Hi Hi1 Hle Hlt).
  now apply on_segment_flat.
Qed.

(** The tolled-route column of the base table around 0.72 USD/km: zero
    at 0.70 and at 0.75. *)
Lemma interp_clamp_flat_segment_witness :
  exists y,
    nth_error [0%float] 0 = Some y /\
    (y =? get (map pr_rv tabla_probabilidades_base) 14)%float = true.
Proof.
  apply (interp_clamp_flat_segment (map pkm tabla_probabilidades_base)
           (map pr_rv tabla_probabilidades_base) [0.72%float] [0%float]
           0 0.72%float 14);
    solve [reflexivity | lia].
Defined.
